(** * viola: selective encryption of configuration trees

    A shallow embedding of the Go packages [internal/walk] (the tree
    walker and the path accessors), [pkg/enc] (the wrappers around the
    age encryption backend) and [pkg/viola] ([Load], [Save] and the
    ciphertext detection heuristic), together with the properties
    that the specification states about them.

    Go strings are byte sequences: they are embedded as [string]
    (sequences of 8-bit [ascii]).  A value of type [any] is embedded
    as the inductive type [any]; a [map[string]any] is an
    association list whose order stands for the order in which
    [range] happens to enumerate the map (the order of the field
    records follows it, so it is kept).

    The walker follows the value that its visitor returns, which the
    visitor is free to choose: its recursion is bounded by a count of
    nested calls, and the statements say how many suffice.  The
    variables that a visitor captures and updates are an explicit
    state, passed in and out.  Errors are values of type [result].
    The age library, the TOML and JSON codecs and the key files are
    parameters ([enc.Age], [viola.Codecs]). *)

From Stdlib Require Import String Ascii List ZArith Lia Bool Arith PeanoNat.
Import ListNotations.

Open Scope string_scope.
Open Scope list_scope.
Open Scope nat_scope.

Set Warnings "-register-all".

(* ================================================================= *)
(** ** The functions of package [strings] used by the program *)

Module strings.

(** [strings.HasPrefix(s, prefix)]. *)
Fixpoint HasPrefix (s prefix : string) {struct prefix} : bool :=
  match prefix with
  | EmptyString => true
  | String c prefix' =>
      match s with
      | EmptyString => false
      | String d s' => Ascii.eqb d c && HasPrefix s' prefix'
      end
  end.

(** [strings.Contains(s, substr)]: [substr] starts at some offset of [s]. *)
Fixpoint Contains (s substr : string) : bool :=
  HasPrefix s substr ||
  match s with
  | EmptyString => false
  | String _ s' => Contains s' substr
  end.

(** [s[i:]], the suffix of [s] that starts at offset [i]. *)
Fixpoint drop (i : nat) (s : string) : string :=
  match i, s with
  | O, _ => s
  | S _, EmptyString => EmptyString
  | S i', String _ s' => drop i' s'
  end.

(** [sub] occurs in [s] at offset [i]. *)
Definition occurs_at (sub s : string) (i : nat) : Prop :=
  exists a b, s = (a ++ sub ++ b)%string /\ String.length a = i.

Definition occurs_atb (sub s : string) (i : nat) : bool :=
  Nat.leb i (String.length s) && HasPrefix (drop i s) sub.

End strings.

(* ================================================================= *)
(** ** Ciphertext detection (package [viola]) *)

Module armor.

Definition begin_marker : string := "-----BEGIN AGE ENCRYPTED FILE-----".
Definition end_marker : string := "-----END AGE ENCRYPTED FILE-----".

(** [isArmoredData] checks if a string looks like ASCII-armored age data. *)
Definition isArmoredData (s : string) : bool :=
  strings.Contains s begin_marker && strings.Contains s end_marker.

(** The reading of the specification: both markers occur, and an
    occurrence of the begin marker starts before an occurrence of the
    end marker. *)
Definition markers_in_order (s : string) : Prop :=
  exists i j, strings.occurs_at begin_marker s i /\
              strings.occurs_at end_marker s j /\ i < j.

(** Decision procedure for [markers_in_order]. *)
Definition markers_in_orderb (s : string) : bool :=
  existsb (fun i =>
    strings.occurs_atb begin_marker s i &&
    existsb (fun j => strings.occurs_atb end_marker s j && (i <? j))
            (seq 0 (S (String.length s))))
    (seq 0 (S (String.length s))).

(** An end marker followed by a begin marker. *)
Definition reversed_markers : string := (end_marker ++ begin_marker)%string.

End armor.

(* ================================================================= *)
(** ** Document trees *)

(** The dynamic values that a parsed document holds.  The walker
    distinguishes [map[string]any] and [[]any]; every other dynamic
    type is a leaf: nil, booleans, integers, floats (by their bits),
    strings, [VOther] for the rest (a date), and [VTables] for
    [[]map[string]any], which is what the document decoder gives for
    an array of tables ([[[servers]]]) where it gives [[]any] for an
    inline array.  A map is an association list with pairwise
    distinct keys ([wf]); its order is the order of one enumeration
    by [range]. *)
Inductive any : Type :=
| VNil
| VBool (b : bool)
| VInt (n : Z)
| VFloat (bits : Z)
| VString (s : string)
| VOther (repr : string)
| VMap (m : list (string * any))
| VSlice (s : list any)
| VTables (ts : list (list (string * any))).

Definition gomap : Type := list (string * any).

(** [v, exists := m[k]]. *)
Fixpoint map_get (m : gomap) (k : string) : option any :=
  match m with
  | [] => None
  | (k', v) :: m' => if String.eqb k' k then Some v else map_get m' k
  end.

(** [m[k] = v]: overwrite the entry of [k], or add one. *)
Fixpoint map_set (m : gomap) (k : string) (v : any) : gomap :=
  match m with
  | [] => [(k, v)]
  | (k', v') :: m' =>
      if String.eqb k' k then (k, v) :: m' else (k', v') :: map_set m' k v
  end.

Definition keys (m : gomap) : list string := map fst m.

Fixpoint distinct (l : list string) : bool :=
  match l with
  | [] => true
  | k :: l' => negb (existsb (String.eqb k) l') && distinct l'
  end.

(** Well-formed trees: the keys of every map that the walker enters
    are pairwise distinct. *)
Fixpoint wf (v : any) : bool :=
  match v with
  | VMap m => distinct (keys m) && forallb (fun kv => wf (snd kv)) m
  | VSlice s => forallb wf s
  | _ => true
  end.

Definition is_container (v : any) : bool :=
  match v with
  | VMap _ | VSlice _ => true
  | _ => false
  end.

(** The leaves of the walker: what its type switch sends to
    [default]. *)
Definition is_leaf (v : any) : bool := negb (is_container v).

(** Nesting depth of containers. *)
Fixpoint height (v : any) : nat :=
  match v with
  | VMap m => S (fold_right (fun kv h => Nat.max (height (snd kv)) h) 0 m)
  | VSlice s => S (fold_right (fun c h => Nat.max (height c) h) 0 s)
  | _ => 0
  end.

(** Positions in a tree, by typed segments. *)
Inductive step : Type :=
| Key (k : string)
| Index (i : nat).

Definition child (v : any) (s : step) : option any :=
  match s, v with
  | Key k, VMap m => map_get m k
  | Index i, VSlice l => nth_error l i
  | _, _ => None
  end.

Fixpoint subtree (v : any) (pos : list step) : option any :=
  match pos with
  | [] => Some v
  | s :: pos' =>
      match child v s with
      | Some c => subtree c pos'
      | None => None
      end
  end.


(** Trees made of strings, maps and sequences only. *)
Fixpoint strings_only (v : any) : bool :=
  match v with
  | VString _ => true
  | VMap m => forallb (fun kv => strings_only (snd kv)) m
  | VSlice s => forallb strings_only s
  | _ => false
  end.

(** Errors are values: [(x, nil)] is [Ok x], [(_, err)] is [Err msg]. *)
Inductive result (A : Type) : Type :=
| Ok (a : A)
| Err (msg : string).
Arguments Ok {A} a.
Arguments Err {A} msg.

(* ================================================================= *)
(** ** Package [fmt]: the two formats that the program uses *)

Module fmt.

Definition digit (d : nat) : ascii := ascii_of_nat (48 + d).

Fixpoint digits (fuel n : nat) (acc : string) : string :=
  match fuel with
  | O => acc
  | S fuel' =>
      let acc' := String (digit (n mod 10)) acc in
      if n / 10 =? 0 then acc' else digits fuel' (n / 10) acc'
  end.

(** [fmt.Sprintf("%d", n)] for a non-negative [n]. *)
Definition itoa (n : nat) : string := digits (S n) n "".

(** [fmt.Sprintf("[%d]", i)]. *)
Definition Sprintf_index (i : nat) : string :=
  ("[" ++ itoa i ++ "]")%string.

Definition is_digit (c : ascii) : bool :=
  let n := nat_of_ascii c in (48 <=? n) && (n <=? 57).

Definition is_space (c : ascii) : bool :=
  let n := nat_of_ascii c in
  (n =? 32) || (n =? 9) || (n =? 11) || (n =? 12) || (n =? 13).

(** The space runes of more than one byte, by their UTF-8 bytes:
    U+0085 and U+00A0; U+1680, U+2000 to U+200A, U+2028, U+2029,
    U+202F, U+205F and U+3000. *)
Definition is_space2 (b1 b2 : nat) : bool :=
  (b1 =? 194) && ((b2 =? 133) || (b2 =? 160)).

Definition is_space3 (b1 b2 b3 : nat) : bool :=
  ((b1 =? 225) && (b2 =? 154) && (b3 =? 128))
  || ((b1 =? 226) && (b2 =? 128)
      && (((128 <=? b3) && (b3 <=? 138))
          || (b3 =? 168) || (b3 =? 169) || (b3 =? 175)))
  || ((b1 =? 226) && (b2 =? 129) && (b3 =? 159))
  || ((b1 =? 227) && (b2 =? 128) && (b3 =? 128)).

(** [SkipSpace] of a scan without newline tolerance: the space runes
    are skipped, a newline is an error.  The string is read rune by
    rune; a byte that starts no space rune ends the skipping. *)
Fixpoint skip_space (s : string) : option string :=
  match s with
  | EmptyString => Some s
  | String c1 s1 =>
      let b1 := nat_of_ascii c1 in
      if b1 =? 10 then None
      else if is_space c1 then skip_space s1
      else if b1 <? 128 then Some s
      else
        match s1 with
        | EmptyString => Some s
        | String c2 s2 =>
            let b2 := nat_of_ascii c2 in
            if is_space2 b1 b2 then skip_space s2
            else
              match s2 with
              | EmptyString => Some s
              | String c3 s3 =>
                  if is_space3 b1 b2 (nat_of_ascii c3) then skip_space s3
                  else Some s
              end
        end
  end.

(** The longest prefix made of the characters that [%d] accepts,
    [0123456789], and what follows it. *)
Fixpoint scan_number (s : string) : string * string :=
  match s with
  | EmptyString => (EmptyString, EmptyString)
  | String c s' =>
      if is_digit c then
        let (tok, rest) := scan_number s' in (String c tok, rest)
      else (EmptyString, s)
  end.

(** [strconv.ParseInt(tok, 10, 64)] on the digits of a token. *)
Fixpoint parse_decimal (tok : string) (acc : Z) : option Z :=
  match tok with
  | EmptyString => Some acc
  | String c tok' =>
      if is_digit c
      then parse_decimal tok' (10 * acc + Z.of_nat (nat_of_ascii c - 48))%Z
      else None
  end.

Definition max_int : Z := (2 ^ 63 - 1)%Z.
Definition min_int : Z := (- 2 ^ 63)%Z.

(** [fmt.Sscanf(str, "%d", &index)]: [Some index] when [err == nil].
    Leading blanks are skipped, one sign is accepted, at least one
    digit is required, the value has to fit a 64-bit [int]; input left
    after the number is not an error. *)
Definition Sscanf_d (str : string) : option Z :=
  match skip_space str with
  | None => None
  | Some s1 =>
      let '(neg, s2) :=
        match s1 with
        | String c r =>
            if nat_of_ascii c =? 43 then (false, r)
            else if nat_of_ascii c =? 45 then (true, r)
            else (false, s1)
        | EmptyString => (false, s1)
        end in
      match fst (scan_number s2) with
      | EmptyString => None
      | tok =>
          match parse_decimal tok 0 with
          | None => None
          | Some n =>
              let v := if neg then (- n)%Z else n in
              if (min_int <=? v)%Z && (v <=? max_int)%Z then Some v else None
          end
      end
  end.

End fmt.

(* ================================================================= *)
(** ** Package [walk] *)

Module walk.

Section Walker.

(** The visitor closes over mutable variables of its caller (the list
    of field records); [St] is the type of that captured state, passed
    in and out of every call.

    A path is a [[]string]; it is embedded by its content, a list.
    That is what a visitor sees when it is called: [append] writes at
    the length of the slice it is given, never below, so the elements
    of a path that is in use do not change.  What is kept of
    [append(path, key)] after the call is another matter, see
    [FieldInfo] and [viola.FieldMeta]. *)
Context {St : Type}.

(** [VisitFunc]: called with the path, the key and the value of a
    field, returns the new value and whether to continue. *)
Definition VisitFunc : Type :=
  list string -> string -> any -> St -> (any * bool) * St.

(** One recursive call of the walker; [None] when the recursion is
    cut off before it returns. *)
Definition walker : Type :=
  list string -> string -> any -> St -> option (any * St).

(** "Build the path for this level". *)
Definition currentPath (parentPath : list string) (parentKey : string)
  : list string :=
  if negb (String.eqb parentKey "") then parentPath ++ [parentKey]
  else parentPath.

(** The loop [for k, v := range m] of [walkMap]. *)
Fixpoint rangeMap (walkValue : walker) (currentPath : list string)
  (m : gomap) (result : gomap) (st : St) : option (gomap * St) :=
  match m with
  | [] => Some (result, st)
  | (k, v) :: m' =>
      match walkValue currentPath k v st with
      | None => None
      | Some (newValue, st') =>
          rangeMap walkValue currentPath m' (map_set result k newValue) st'
      end
  end.

(** [walkMap] walks through a map (TOML table). *)
Definition walkMap (walkValue : walker) (parentPath : list string)
  (parentKey : string) (m : gomap) (st : St) : option (gomap * St) :=
  rangeMap walkValue (currentPath parentPath parentKey) m [] st.

(** The loop [for i, v := range s] of [walkSlice], from index [i]. *)
Fixpoint rangeSlice (walkValue : walker) (currentPath : list string)
  (i : nat) (s : list any) (st : St) : option (list any * St) :=
  match s with
  | [] => Some ([], st)
  | v :: s' =>
      match walkValue currentPath (fmt.Sprintf_index i) v st with
      | None => None
      | Some (newValue, st') =>
          match rangeSlice walkValue currentPath (S i) s' st' with
          | None => None
          | Some (result, st'') => Some (newValue :: result, st'')
          end
      end
  end.

(** [walkSlice] walks through a slice (TOML array). *)
Definition walkSlice (walkValue : walker) (parentPath : list string)
  (parentKey : string) (s : list any) (st : St)
  : option (list any * St) :=
  rangeSlice walkValue (currentPath parentPath parentKey) 0 s st.

(** [walkValue] recursively walks through any value type.  The
    recursion follows the value that the visitor returned, so it is
    bounded by [fuel], the depth of calls allowed. *)
Fixpoint walkValue (fuel : nat) (visit : VisitFunc) (path : list string)
  (key : string) (value : any) (st : St) : option (any * St) :=
  match fuel with
  | O => None
  | S fuel' =>
      let '((newValue, cont), st1) := visit path key value st in
      if negb cont then Some (newValue, st1)
      else
        match newValue with
        | VMap v =>
            match walkMap (walkValue fuel' visit) path key v st1 with
            | Some (r, st2) => Some (VMap r, st2)
            | None => None
            end
        | VSlice v =>
            match walkSlice (walkValue fuel' visit) path key v st1 with
            | Some (r, st2) => Some (VSlice r, st2)
            | None => None
            end
        | _ => Some (newValue, st1)
        end
  end.

(** [Walk] traverses a parsed document and calls the visitor for each
    field. *)
Definition Walk (fuel : nat) (data : any) (visit : VisitFunc) (st : St)
  : option (any * St) :=
  walkValue fuel visit [] "" data st.

End Walker.

(** [FieldInfo] contains information about a field found during
    traversal.  [Path] is the content of the slice [append(path, key)]
    when the entry is made; in Go that slice can share its array with
    the path that the walker goes on appending to (whether it does
    depends on the capacity that [append] found), and is then
    overwritten by a later entry.  The statements below that range
    over all trees identify an entry by its key and its value. *)
Record FieldInfo : Type := mkFieldInfo {
  Path : list string;
  FKey : string;
  Value : any
}.

(** [FindFields] searches for fields matching a predicate and returns
    their paths and values. *)
Definition FindFields (fuel : nat) (data : any)
  (predicate : list string -> string -> any -> bool)
  : option (list FieldInfo) :=
  match
    Walk fuel data
      (fun path key value results =>
         ((value, true),
          if predicate path key value
          then results ++ [mkFieldInfo (path ++ [key]) key value]
          else results))
      []
  with
  | Some (_, results) => Some results
  | None => None
  end.

(** The loop of [GetValue]; [None] stands for [return nil, false]. *)
Fixpoint GetValue_loop (current : any) (path : list string)
  : option any :=
  match path with
  | [] => Some current
  | key :: path' =>
      match current with
      | VMap v =>
          match map_get v key with
          | None => None
          | Some val => GetValue_loop val path'
          end
      | VSlice v =>
          let n := String.length key in
          if (n <? 3)
             || negb (match String.get 0 key with
                      | Some c => Ascii.eqb c "["
                      | None => false
                      end)
             || negb (match String.get (n - 1) key with
                      | Some c => Ascii.eqb c "]"
                      | None => false
                      end)
          then None
          else
            match fmt.Sscanf_d (String.substring 1 (n - 2) key) with
            | None => None
            | Some index =>
                if (index <? 0)%Z || (index >=? Z.of_nat (List.length v))%Z
                then None
                else
                  match nth_error v (Z.to_nat index) with
                  | Some val => GetValue_loop val path'
                  | None => None
                  end
            end
      | _ => None
      end
  end.

(** [GetValue] safely gets a value from the data structure using a
    path. *)
Definition GetValue (data : any) (path : list string) : any * bool :=
  match path with
  | [] => (data, true)
  | _ =>
      match GetValue_loop data path with
      | Some current => (current, true)
      | None => (VNil, false)
      end
  end.

(** The index that an index key such as ["[0]"] names in a slice of
    length [len]: the checks that [GetValue] and [SetValue] make on
    the key. *)
Definition parse_index (key : string) (len : nat) : option nat :=
  let n := String.length key in
  if (n <? 3)
     || negb (match String.get 0 key with
              | Some c => Ascii.eqb c "["
              | None => false
              end)
     || negb (match String.get (n - 1) key with
              | Some c => Ascii.eqb c "]"
              | None => false
              end)
  then None
  else
    match fmt.Sscanf_d (String.substring 1 (n - 2) key) with
    | None => None
    | Some index =>
        if (index <? 0)%Z || (index >=? Z.of_nat len)%Z then None
        else Some (Z.to_nat index)
    end.

(** [p[index] = newValue], for an index within bounds. *)
Fixpoint set_nth (p : list any) (index : nat) (newValue : any) : list any :=
  match p, index with
  | [], _ => []
  | _ :: p', O => newValue :: p'
  | x :: p', S i => x :: set_nth p' i newValue
  end.

(** [SetValue] changes in place the map or the slice that [GetValue]
    returned for the parent path.  Where the data is a tree (no map
    and no slice is reached by two paths, as in what a decoder
    returns) the effect on it is one replacement:
    [store data path object] is the data with [object] where
    [GetValue data path] leads.  Data that shares maps or slices is
    in module [heap] below. *)
Fixpoint store (current : any) (path : list string) (object : any) : any :=
  match path with
  | [] => object
  | key :: path' =>
      match current with
      | VMap v =>
          match map_get v key with
          | None => current
          | Some val => VMap (map_set v key (store val path' object))
          end
      | VSlice v =>
          match parse_index key (List.length v) with
          | None => current
          | Some index =>
              match nth_error v index with
              | Some val => VSlice (set_nth v index (store val path' object))
              | None => current
              end
          end
      | _ => current
      end
  end.

(** [SetValue] safely sets a value in the data structure using a
    path; the data after the call is returned with the boolean. *)
Definition SetValue (data : any) (path : list string) (newValue : any)
  : any * bool :=
  match path with
  | [] => (data, false)
  | [key] =>
      match data with
      | VMap m => (VMap (map_set m key newValue), true)
      | _ => (data, false)
      end
  | _ =>
      match GetValue data (removelast path) with
      | (parent, true) =>
          let finalKey := last path "" in
          match parent with
          | VMap p =>
              (store data (removelast path)
                     (VMap (map_set p finalKey newValue)), true)
          | VSlice p =>
              match parse_index finalKey (List.length p) with
              | None => (data, false)
              | Some index =>
                  (store data (removelast path)
                         (VSlice (set_nth p index newValue)), true)
              end
          | _ => (data, false)
          end
      | (_, false) => (data, false)
      end
  end.

(** The loop of [GetFullPath]: [i] is the index of the next part. *)
Fixpoint GetFullPath_loop (i : nat) (parts : list string) (result : string)
  : string :=
  match parts with
  | [] => result
  | part :: rest =>
      let result := if 0 <? i then (result ++ ".")%string else result in
      GetFullPath_loop (S i) rest (result ++ part)%string
  end.

(** [GetFullPath] returns the full path as a string, e.g.
    "database.config.private_password". *)
Definition GetFullPath (fi : FieldInfo) : string :=
  if List.length (Path fi) =? 0 then FKey fi
  else GetFullPath_loop 0 (Path fi) "".

(** The key under which the walker visits the child at a step. *)
Definition step_key (s : step) : string :=
  match s with
  | Key k => k
  | Index i => fmt.Sprintf_index i
  end.

(** The path and the key that the walker passes to the visitor at the
    node at position [pos] below a node visited with [path] and [key]. *)
Fixpoint address (path : list string) (key : string) (pos : list step)
  : list string * string :=
  match pos with
  | [] => (path, key)
  | s :: pos' => address (currentPath path key) (step_key s) pos'
  end.

(** The addressing that the specification describes: the root has no
    key of its own ([None]), every other node has one, and the path of
    a node is the path of its parent followed by the parent's key. *)
Definition spec_currentPath (parentPath : list string)
  (parentKey : option string) : list string :=
  match parentKey with
  | Some k => parentPath ++ [k]
  | None => parentPath
  end.

Fixpoint spec_address (path : list string) (key : option string)
  (pos : list step) : list string * option string :=
  match pos with
  | [] => (path, key)
  | s :: pos' =>
      spec_address (spec_currentPath path key) (Some (step_key s)) pos'
  end.

(** The visitor sees the root's missing key as the empty string. *)
Definition key_seen (key : option string) : string :=
  match key with
  | Some k => k
  | None => EmptyString
  end.

End walk.

(* ================================================================= *)
(** ** [GetValue] and [SetValue] over maps and slices that are shared *)

(** In Go a [map[string]any] and a [[]any] are references: the same
    map can stand under two keys, and [SetValue] changes it in place
    for both.  Here the maps and the slices live in a heap and a
    value names them by their addresses; the trees above are the
    heaps in which every address is named once.  The addresses that
    a value names are taken to be allocated: at one that is not,
    nothing is found and nothing is set. *)
Module heap.

Inductive value : Type :=
| Scalar (v : any)
| MapRef (a : nat)
| SliceRef (a : nat).

Record heap : Type := mkHeap {
  maps : list (list (string * value));
  slices : list (list value)
}.

(** [v, exists := m[k]]. *)
Fixpoint get (m : list (string * value)) (k : string) : option value :=
  match m with
  | [] => None
  | (k', v) :: m' => if String.eqb k' k then Some v else get m' k
  end.

(** [m[k] = v]. *)
Fixpoint set (m : list (string * value)) (k : string) (v : value)
  : list (string * value) :=
  match m with
  | [] => [(k, v)]
  | (k', v') :: m' =>
      if String.eqb k' k then (k, v) :: m' else (k', v') :: set m' k v
  end.

(** [l[i] = x], for an index within bounds. *)
Fixpoint update {A : Type} (l : list A) (i : nat) (x : A) : list A :=
  match l, i with
  | [], _ => []
  | _ :: l', O => x :: l'
  | y :: l', S i' => y :: update l' i' x
  end.

(** One entry of one object of the heap: a key of a map, or an index
    of a slice. *)
Inductive entry : Type :=
| MapEntry (a : nat) (k : string)
| SliceEntry (a : nat) (i : nat).

(** The assignments [m[k] = x] and [p[i] = x], on the map and on the
    slice at an address. *)
Definition assign (h : heap) (e : entry) (x : value) : heap :=
  match e with
  | MapEntry a k =>
      match nth_error (maps h) a with
      | Some m => mkHeap (update (maps h) a (set m k x)) (slices h)
      | None => h
      end
  | SliceEntry a i =>
      match nth_error (slices h) a with
      | Some p => mkHeap (maps h) (update (slices h) a (update p i x))
      | None => h
      end
  end.

(** The loop of [GetValue]; [None] stands for [return nil, false]. *)
Fixpoint GetValue_loop (h : heap) (current : value) (path : list string)
  : option value :=
  match path with
  | [] => Some current
  | key :: path' =>
      match current with
      | MapRef a =>
          match nth_error (maps h) a with
          | Some v =>
              match get v key with
              | None => None
              | Some val => GetValue_loop h val path'
              end
          | None => None
          end
      | SliceRef a =>
          match nth_error (slices h) a with
          | Some v =>
              match walk.parse_index key (List.length v) with
              | None => None
              | Some index =>
                  match nth_error v index with
                  | Some val => GetValue_loop h val path'
                  | None => None
                  end
              end
          | None => None
          end
      | Scalar _ => None
      end
  end.

Definition GetValue (h : heap) (data : value) (path : list string)
  : value * bool :=
  match path with
  | [] => (data, true)
  | _ =>
      match GetValue_loop h data path with
      | Some current => (current, true)
      | None => (Scalar VNil, false)
      end
  end.

(** [SetValue]: the heap after the call, and the boolean. *)
Definition SetValue (h : heap) (data : value) (path : list string)
  (newValue : value) : heap * bool :=
  match path with
  | [] => (h, false)
  | [key] =>
      match data with
      | MapRef a =>
          match nth_error (maps h) a with
          | Some _ => (assign h (MapEntry a key) newValue, true)
          | None => (h, false)
          end
      | _ => (h, false)
      end
  | _ =>
      match GetValue h data (removelast path) with
      | (parent, true) =>
          let finalKey := last path "" in
          match parent with
          | MapRef a =>
              match nth_error (maps h) a with
              | Some _ => (assign h (MapEntry a finalKey) newValue, true)
              | None => (h, false)
              end
          | SliceRef a =>
              match nth_error (slices h) a with
              | Some p =>
                  match walk.parse_index finalKey (List.length p) with
                  | None => (h, false)
                  | Some index =>
                      (assign h (SliceEntry a index) newValue, true)
                  end
              | None => (h, false)
              end
          | Scalar _ => (h, false)
          end
      | (_, false) => (h, false)
      end
  end.


End heap.
(* ================================================================= *)
(** ** Package [enc] *)

Module enc.

(** The recipients and identities that the program builds: X25519
    keys, by their textual form, and scrypt passphrases. *)
Inductive Recipient : Type :=
| X25519Recipient (s : string)
| ScryptRecipient (passphrase : string).

Inductive Identity : Type :=
| X25519Identity (s : string)
| ScryptIdentity (passphrase : string).

(** The age library and the files behind it, as the program calls
    them.  [age_seal n data recipients] is the pipeline
    [armor.NewWriter], [age.Encrypt], [Write], [Close], [Close]; it is
    randomised, and [n] stands for the random bytes drawn by the
    [n]-th call.  [age_open] is [armor.NewReader], [age.Decrypt],
    [io.ReadAll]. *)
Record Age : Type := mkAge {
  ParseX25519Identity : string -> result Identity;
  ParseX25519Recipient : string -> result Recipient;
  NewScryptIdentity : string -> result Identity;
  NewScryptRecipient : string -> result Recipient;
  loadIdentitiesFromFile : string -> result (list Identity);
  loadRecipientsFromFile : string -> result (list Recipient);
  age_seal : nat -> string -> list Recipient -> result string;
  age_open : string -> list Identity -> result string
}.

(** [KeySources] contains various sources for age identities and
    recipients.  [PassphraseProvider] is [None] for a nil function and
    otherwise what the function returns. *)
Record KeySources : Type := mkKeySources {
  IdentitiesFile : string;
  IdentitiesData : list string;
  RecipientsFile : string;
  Recipients : list string;
  PassphraseProvider : option (result string)
}.

Definition bind {A B : Type} (r : result A) (k : A -> result B) : result B :=
  match r with
  | Ok a => k a
  | Err msg => Err msg
  end.

Definition wrap {A : Type} (context : string) (r : result A) : result A :=
  match r with
  | Ok a => Ok a
  | Err msg => Err (context ++ ": " ++ msg)%string
  end.

Notation "x <- e ;; k" := (bind e (fun x => k))
  (at level 61, e at next level, right associativity).

Section Enc.

Variable age : Age.

(** The loops [for _, s := range ...] of the two loaders. *)
Fixpoint parse_each {A : Type} (parse : string -> result A)
  (context : string) (data : list string) (acc : list A)
  : result (list A) :=
  match data with
  | [] => Ok acc
  | s :: data' =>
      x <- wrap context (parse s) ;;
      parse_each parse context data' (acc ++ [x])
  end.

(** [LoadIdentities] loads age identities from the key sources. *)
Definition LoadIdentities (ks : KeySources) : result (list Identity) :=
  identities <-
    (if negb (String.eqb (IdentitiesFile ks) "")
     then
       fileIdentities <-
         wrap ("failed to load identities from file " ++ IdentitiesFile ks)
              (loadIdentitiesFromFile age (IdentitiesFile ks)) ;;
       Ok ([] ++ fileIdentities)
     else Ok []) ;;
  identities <-
    parse_each (ParseX25519Identity age) "failed to parse identity"
               (IdentitiesData ks) identities ;;
  match PassphraseProvider ks with
  | Some provider =>
      passphrase <- wrap "failed to get passphrase" provider ;;
      scryptIdentity <-
        wrap "failed to create scrypt identity"
             (NewScryptIdentity age passphrase) ;;
      Ok (identities ++ [scryptIdentity])
  | None => Ok identities
  end.

(** [LoadRecipients] loads age recipients from the key sources. *)
Definition LoadRecipients (ks : KeySources) : result (list Recipient) :=
  recipients <-
    (if negb (String.eqb (RecipientsFile ks) "")
     then
       fileRecipients <-
         wrap ("failed to load recipients from file " ++ RecipientsFile ks)
              (loadRecipientsFromFile age (RecipientsFile ks)) ;;
       Ok ([] ++ fileRecipients)
     else Ok []) ;;
  recipients <-
    parse_each (ParseX25519Recipient age) "failed to parse recipient"
               (Recipients ks) recipients ;;
  match PassphraseProvider ks with
  | Some provider =>
      passphrase <- wrap "failed to get passphrase" provider ;;
      scryptRecipient <-
        wrap "failed to create scrypt recipient"
             (NewScryptRecipient age passphrase) ;;
      Ok (recipients ++ [scryptRecipient])
  | None => Ok recipients
  end.

(** [Encrypt] encrypts data with the given recipients and returns
    ASCII-armored ciphertext. *)
Definition Encrypt (n : nat) (data : string) (recipients : list Recipient)
  : result string :=
  if List.length recipients =? 0 then Err "no recipients provided"
  else age_seal age n data recipients.

(** [Decrypt] decrypts ASCII-armored ciphertext using the given
    identities. *)
Definition Decrypt (armoredData : string) (identities : list Identity)
  : result string :=
  if List.length identities =? 0 then Err "no identities provided"
  else age_open age armoredData identities.

End Enc.

(** [GetRecipientStrings] extracts string representations of
    recipients for metadata. *)
Fixpoint GetRecipientStrings (recipients : list Recipient) : list string :=
  match recipients with
  | [] => []
  | X25519Recipient s :: rest => s :: GetRecipientStrings rest
  | ScryptRecipient _ :: rest => "passphrase" :: GetRecipientStrings rest
  end.

(** [HasPassphraseRecipient] checks if any recipient is a passphrase
    recipient. *)
Fixpoint HasPassphraseRecipient (recipients : list Recipient) : bool :=
  match recipients with
  | [] => false
  | ScryptRecipient _ :: _ => true
  | X25519Recipient _ :: rest => HasPassphraseRecipient rest
  end.

End enc.

(* ================================================================= *)
(** ** Package [viola] *)

Module viola.

Import armor walk enc.

(** The document codec (TOML) and the interchange codec (JSON). *)
Record Codecs : Type := mkCodecs {
  toml_Unmarshal : string -> result gomap;
  toml_Marshal : any -> result string;
  json_Unmarshal : string -> result any;
  json_Marshal : any -> result string
}.

(** [Options] configures viola behavior. *)
Record Options : Type := mkOptions {
  Keys : KeySources;
  PrivatePrefix : string;
  ShouldEncrypt : option (list string -> string -> any -> bool);
  EmitASCIIQR : bool;
  QRCommentPrefix : string;
  Indent : string
}.

(** [setDefaults] applies default values to options. *)
Definition setDefaults (o : Options) : Options :=
  let o :=
    if String.eqb (PrivatePrefix o) ""
    then mkOptions (Keys o) "private_" (ShouldEncrypt o) (EmitASCIIQR o)
                   (QRCommentPrefix o) (Indent o)
    else o in
  let o :=
    if String.eqb (QRCommentPrefix o) ""
    then mkOptions (Keys o) (PrivatePrefix o) (ShouldEncrypt o)
                   (EmitASCIIQR o) "# " (Indent o)
    else o in
  if String.eqb (Indent o) ""
  then mkOptions (Keys o) (PrivatePrefix o) (ShouldEncrypt o)
                 (EmitASCIIQR o) (QRCommentPrefix o) "  "
  else o.

(** [shouldEncryptField] determines if a field should be encrypted. *)
Definition shouldEncryptField (o : Options) (path : list string)
  (key : string) (value : any) : bool :=
  match ShouldEncrypt o with
  | Some f => f path key value
  | None => strings.HasPrefix key (PrivatePrefix o)
  end.

(** [FieldMeta] contains metadata about an encrypted field.  [Path]
    is the content of the slice [append(path, key)] when the record is
    made; in Go that slice can share its array with the path that the
    walker goes on appending to, so the statements about records below
    identify a record by its ciphertext and say nothing of [Path]. *)
Record FieldMeta : Type := mkFieldMeta {
  Path : list string;
  WasEncrypted : bool;
  Armored : string;
  ASCIIQR : string;
  UsedRecipients : list string;
  UsedPassphrase : bool
}.

(** [Result] contains the decrypted configuration and metadata. *)
Record Result : Type := mkResult {
  Tree : gomap;
  Fields : list FieldMeta
}.

Section Viola.

Variable age : Age.
Variable codecs : Codecs.

(** "Try to decode as JSON (for non-string values)"; "Not JSON, treat
    as string". *)
Definition decode (decrypted : string) : any :=
  match json_Unmarshal codecs decrypted with
  | Ok jsonValue => jsonValue
  | Err _ => VString decrypted
  end.

(** The visitor of [Load]; the captured variable is [fields]. *)
Definition load_visit (identities : list Identity)
  : VisitFunc (St := list FieldMeta) :=
  fun path key value fields =>
    match value with
    | VString strValue =>
        if isArmoredData strValue then
          match Decrypt age strValue identities with
          | Err _ =>
              ((value, true),
               fields ++ [mkFieldMeta (path ++ [key]) true strValue "" [] false])
          | Ok decrypted =>
              let jsonValue := decode decrypted in
              ((jsonValue, true),
               fields ++ [mkFieldMeta (path ++ [key]) true strValue "" [] false])
          end
        else ((value, true), fields)
    | _ => ((value, true), fields)
    end.

(** [Load] parses and decrypts a TOML configuration.  [None]: the
    walk did not return within [fuel] nested calls. *)
Definition Load (fuel : nat) (data : string) (opts : Options)
  : option (result Result) :=
  let opts := setDefaults opts in
  match toml_Unmarshal codecs data with
  | Err e => Some (Err ("failed to parse TOML: " ++ e)%string)
  | Ok tree =>
      match LoadIdentities age (Keys opts) with
      | Err e => Some (Err ("failed to load identities: " ++ e)%string)
      | Ok identities =>
          match Walk fuel (VMap tree) (load_visit identities) [] with
          | None => None
          | Some (VMap decryptedTree, fields) =>
              Some (Ok (mkResult decryptedTree fields))
          | Some (_, _) =>
              Some (Err "panic: interface conversion: not map[string]interface {}")
          end
      end
  end.

(** "String value, encrypt directly"; "Non-string value, serialize
    to JSON first". *)
Definition encode (value : any) : result string :=
  match value with
  | VString strValue => Ok strValue
  | _ => json_Marshal codecs value
  end.

(** The visitor of [Save]; the captured variable is [fields], paired
    with the count of the encryptions done so far. *)
Definition save_visit (opts : Options) (recipients : list Recipient)
  : VisitFunc (St := list FieldMeta * nat) :=
  fun path key value st =>
    let '(fields, n) := st in
    if shouldEncryptField opts path key value then
      match
        match value with
        | VString strValue =>
            if isArmoredData strValue then Some strValue else None
        | _ => None
        end
      with
      | Some strValue =>
          ((value, true),
           (fields ++ [mkFieldMeta (path ++ [key]) true strValue ""
                         (GetRecipientStrings recipients)
                         (HasPassphraseRecipient recipients)], n))
      | None =>
          match encode value with
          | Err _ => ((value, true), (fields, n))
          | Ok dataToEncrypt =>
              match Encrypt age n dataToEncrypt recipients with
              | Err _ => ((value, true), (fields, S n))
              | Ok encrypted =>
                  ((VString encrypted, true),
                   (fields ++ [mkFieldMeta (path ++ [key]) true encrypted ""
                                 (GetRecipientStrings recipients)
                                 (HasPassphraseRecipient recipients)], S n))
              end
          end
      end
    else ((value, true), (fields, n)).

(** The walk of [Save] over a tree, for recipients already loaded. *)
Definition save_walk (fuel : nat) (seed : nat) (tree : any)
  (opts : Options) (recipients : list Recipient)
  : option (any * (list FieldMeta * nat)) :=
  Walk fuel tree (save_visit opts recipients) ([], seed).

(** [Save] encrypts and serializes a configuration to TOML. *)
Definition Save (fuel : nat) (seed : nat) (tree : any) (opts : Options)
  : option (result (string * list FieldMeta)) :=
  let opts := setDefaults opts in
  match LoadRecipients age (Keys opts) with
  | Err e => Some (Err ("failed to load recipients: " ++ e)%string)
  | Ok recipients =>
      if List.length recipients =? 0
      then Some (Err "no recipients available for encryption")
      else
        match save_walk fuel seed tree opts recipients with
        | None => None
        | Some (encryptedTree, (fields, _)) =>
            match toml_Marshal codecs encryptedTree with
            | Err e => Some (Err ("failed to marshal TOML: " ++ e)%string)
            | Ok tomlData => Some (Ok (tomlData, fields))
            end
        end
  end.

(** [Transform] loads a configuration, applies a transformation
    function, and saves it back.  The function changes the tree in
    place and may fail: it is given by the tree it leaves, or its
    error. *)
Definition Transform (fuel : nat) (seed : nat) (data : string)
  (opts : Options) (transform : gomap -> result gomap)
  : option (result (string * list FieldMeta)) :=
  match Load fuel data opts with
  | None => None
  | Some (Err e) =>
      Some (Err ("failed to load configuration: " ++ e)%string)
  | Some (Ok result) =>
      match transform (Tree result) with
      | Err e => Some (Err ("transformation failed: " ++ e)%string)
      | Ok tree => Save fuel seed (VMap tree) opts
      end
  end.

End Viola.

End viola.

(* ================================================================= *)
(** ** Auxiliary notions for the statements *)

(** The loop of [walkMap] when the keys are pairwise distinct: the
    result lists the keys in the order of the enumeration. *)
Fixpoint eachMap {St : Type} (w : walk.walker (St := St))
  (currentPath : list string) (m : gomap) (st : St)
  : option (gomap * St) :=
  match m with
  | [] => Some ([], st)
  | (k, v) :: m' =>
      match w currentPath k v st with
      | None => None
      | Some (newValue, st') =>
          match eachMap w currentPath m' st' with
          | None => None
          | Some (result, st'') => Some ((k, newValue) :: result, st'')
          end
      end
  end.

(** A predicate holds at every node of a tree. *)
Fixpoint all_nodes (P : any -> bool) (v : any) : bool :=
  P v &&
  match v with
  | VMap m => forallb (fun kv => all_nodes P (snd kv)) m
  | VSlice s => forallb (all_nodes P) s
  | _ => true
  end.

(** [pos1] is a position strictly above [pos]. *)
Definition above (pos1 pos : list step) : Prop :=
  exists s rest, pos = pos1 ++ s :: rest.

(** One list of records extends another. *)
Definition extends {A : Type} (l l' : list A) : Prop :=
  exists more, l' = l ++ more.

(** A string of decimal digits. *)
Fixpoint all_digits (s : string) : bool :=
  match s with
  | EmptyString => true
  | String c s' => fmt.is_digit c && all_digits s'
  end.

(** The steps of a position that lead to a container: all but the
    last one. *)
Definition inner_steps (pos : list step) : list step := removelast pos.

(** The record that [Load] makes for an armored leaf, and the one that
    [Save] makes. *)
Definition load_record (path : list string) (key : string) (armored : string)
  : viola.FieldMeta :=
  viola.mkFieldMeta (path ++ [key]) true armored "" [] false.

Definition save_record (recipients : list enc.Recipient)
  (path : list string) (key : string) (armored : string) : viola.FieldMeta :=
  viola.mkFieldMeta (path ++ [key]) true armored ""
    (enc.GetRecipientStrings recipients)
    (enc.HasPassphraseRecipient recipients).

(** The size of a tree, strings counted by their length. *)
Fixpoint weight (v : any) : nat :=
  match v with
  | VString s => S (String.length s)
  | VMap m => S (fold_right (fun kv n => weight (snd kv) + n) 0 m)
  | VSlice s => S (fold_right (fun c n => weight c + n) 0 s)
  | _ => 1
  end.

(** The state of the visitor of [Save] grows by records only. *)
Definition save_le (st st' : list viola.FieldMeta * nat) : Prop :=
  extends (fst st) (fst st').

(** A predicate on path, key and value holds at every node of a tree,
    under the addresses of the walker. *)
Fixpoint nodes_at (P : list string -> string -> any -> bool)
  (path : list string) (key : string) (v : any) : bool :=
  P path key v &&
  match v with
  | VMap m =>
      forallb (fun kv => nodes_at P (walk.currentPath path key) (fst kv) (snd kv)) m
  | VSlice s =>
      (fix each (i : nat) (l : list any) : bool :=
         match l with
         | [] => true
         | c :: l' =>
             nodes_at P (walk.currentPath path key) (fmt.Sprintf_index i) c
             && each (S i) l'
         end) 0 s
  | _ => true
  end.

(** The walk of [Save] reaches a position when its visitor returns
    every container above the position as it is: none is sealed. *)
Definition reached (age : enc.Age) (codecs : viola.Codecs)
  (opts : viola.Options) (recipients : list enc.Recipient)
  (tree : any) (pos : list step) : Prop :=
  forall pos1 a, above pos1 pos -> subtree tree pos1 = Some a ->
  forall st,
    fst (viola.save_visit age codecs opts recipients
           (fst (walk.address [] "" pos1)) (snd (walk.address [] "" pos1))
           a st) = (a, true).

(** A map stored under the empty key, with one leaf. *)
Definition under_empty_key : any :=
  VMap [("", VMap [("x", VString "v")])].

(** A string that is not yet ciphertext for the heuristic. *)
Definition plain (v : any) : bool :=
  match v with
  | VString s => negb (armor.isArmoredData s)
  | _ => true
  end.

(** A record of [Save] comes from a node visited under a path and a
    key: the policy matches the node, and the ciphertext of the
    record is the text of the node, armored already, or what sealing
    the encoding of the node gave. *)
Definition recorded_from (age : enc.Age) (codecs : viola.Codecs)
  (opts : viola.Options) (recipients : list enc.Recipient)
  (path : list string) (key : string) (y : any) (f : viola.FieldMeta)
  : Prop :=
  viola.shouldEncryptField opts path key y = true /\
  ((y = VString (viola.Armored f) /\
    armor.isArmoredData (viola.Armored f) = true) \/
   (exists n data,
      viola.encode codecs y = Ok data /\
      enc.Encrypt age n data recipients = Ok (viola.Armored f))).

(* ================================================================= *)
(** ** A test double for the libraries *)

(** Stand-ins for the age library and the codecs, small enough to
    compute with: armor without encryption, the JSON literals, and a
    document codec that knows one document. *)
Module fake.

Import armor enc viola.

Definition seal (n : nat) (data : string) (recipients : list Recipient)
  : result string :=
  Ok (begin_marker ++ data ++ end_marker)%string.

Definition open (armoredData : string) (identities : list Identity)
  : result string :=
  let n := String.length armoredData in
  let data :=
    String.substring (String.length begin_marker)
      (n - String.length begin_marker - String.length end_marker)
      armoredData in
  if String.eqb armoredData (begin_marker ++ data ++ end_marker)%string
  then Ok data
  else Err "malformed armor".

Definition age : Age :=
  mkAge (fun s => Ok (X25519Identity s))
        (fun s => Ok (X25519Recipient s))
        (fun s => Ok (ScryptIdentity s))
        (fun s => Ok (ScryptRecipient s))
        (fun _ => Err "open: no such file or directory")
        (fun _ => Err "open: no such file or directory")
        seal open.

(** An age library whose encryption fails. *)
Definition failing_age : Age :=
  mkAge (fun s => Ok (X25519Identity s))
        (fun s => Ok (X25519Recipient s))
        (fun s => Ok (ScryptIdentity s))
        (fun s => Ok (ScryptRecipient s))
        (fun _ => Err "open: no such file or directory")
        (fun _ => Err "open: no such file or directory")
        (fun _ _ _ => Err "failed to create age encryptor")
        open.

Definition json_literal (data : string) : result any :=
  if String.eqb data "true" then Ok (VBool true)
  else if String.eqb data "false" then Ok (VBool false)
  else if String.eqb data "null" then Ok VNil
  else Err "invalid character".

Definition quoted (s : string) : string :=
  (String (ascii_of_nat 34) s ++ String (ascii_of_nat 34) "")%string.

Fixpoint join (parts : list string) : string :=
  match parts with
  | [] => ""
  | [p] => p
  | p :: rest => (p ++ "," ++ join rest)%string
  end.

Fixpoint json_text (v : any) : string :=
  match v with
  | VNil => "null"
  | VBool true => "true"
  | VBool false => "false"
  | VInt n =>
      if (n <? 0)%Z then ("-" ++ fmt.itoa (Z.to_nat (- n)))%string
      else fmt.itoa (Z.to_nat n)
  | VFloat _ => "0"
  | VString s => quoted s
  | VOther repr => quoted repr
  | VMap m =>
      ("{" ++ join (map (fun kv => (quoted (fst kv) ++ ":"
                                     ++ json_text (snd kv))%string) m)
           ++ "}")%string
  | VSlice s => ("[" ++ join (map json_text s) ++ "]")%string
  | VTables ts =>
      ("[" ++ join (map (fun m =>
                           ("{" ++ join (map (fun kv =>
                                                (quoted (fst kv) ++ ":"
                                                 ++ json_text (snd kv))%string)
                                             m)
                                ++ "}")%string) ts)
           ++ "]")%string
  end.

Fixpoint any_eqb (a b : any) : bool :=
  match a, b with
  | VNil, VNil => true
  | VBool x, VBool y => Bool.eqb x y
  | VInt x, VInt y => Z.eqb x y
  | VFloat x, VFloat y => Z.eqb x y
  | VString x, VString y => String.eqb x y
  | VOther x, VOther y => String.eqb x y
  | VMap m, VMap m' =>
      (fix go (l l' : gomap) : bool :=
         match l, l' with
         | [], [] => true
         | (k, c) :: r, (k', c') :: r' =>
             String.eqb k k' && any_eqb c c' && go r r'
         | _, _ => false
         end) m m'
  | VSlice s, VSlice s' =>
      (fix go (l l' : list any) : bool :=
         match l, l' with
         | [], [] => true
         | c :: r, c' :: r' => any_eqb c c' && go r r'
         | _, _ => false
         end) s s'
  | VTables ts, VTables ts' =>
      (fix tables (l l' : list (list (string * any))) : bool :=
         match l, l' with
         | [], [] => true
         | m :: r, m' :: r' =>
             (fix go (a b : list (string * any)) : bool :=
                match a, b with
                | [], [] => true
                | (k, c) :: ra, (k', c') :: rb =>
                    String.eqb k k' && any_eqb c c' && go ra rb
                | _, _ => false
                end) m m' && tables r r'
         | _, _ => false
         end) ts ts'
  | _, _ => false
  end.

(** The document codec that knows the document [doc], under the
    name ["doc"]. *)
Definition codecs (doc : gomap) : Codecs :=
  mkCodecs
    (fun data => if String.eqb data "doc" then Ok doc
                 else Err "toml: expected key")
    (fun v => if any_eqb v (VMap doc) then Ok "doc"
              else Err "toml: unsupported type")
    json_literal
    (fun v => Ok (json_text v)).

(** Key sources with one inline recipient and one inline identity. *)
Definition keys : KeySources :=
  mkKeySources "" ["AGE-SECRET-KEY-1"] "" ["age1"] None.

(** Key sources with nothing in them. *)
Definition no_keys : KeySources := mkKeySources "" [] "" [] None.

Definition options (ks : KeySources) : Options :=
  mkOptions ks "" None false "" "".

(** A document with two secrets, one of them in a table, and what
    saving it gives. *)
Definition scenario_map : gomap :=
  [("username", VString "alice");
   ("private_password", VString "secret123");
   ("database",
    VMap [("host", VString "localhost");
          ("private_connection_string", VString "postgresql://x")])].

Definition scenario : any := VMap scenario_map.

Definition scenario_saved : gomap :=
  [("username", VString "alice");
   ("private_password",
    VString (begin_marker ++ "secret123" ++ end_marker)%string);
   ("database",
    VMap [("host", VString "localhost");
          ("private_connection_string",
           VString (begin_marker ++ "postgresql://x" ++ end_marker)%string)])].

(** A document that holds an armored block as one of its strings. *)
Definition with_armored_note : gomap :=
  [("note", VString (begin_marker ++ "hello" ++ end_marker)%string)].

(** A document with a secret string that reads as a JSON literal. *)
Definition with_json_like_secret : gomap :=
  [("private_flag", VString "true")].


(** A document with sequences: tables in one, numbers in the other. *)
Definition inventory : any :=
  VMap [("name", VString "app");
        ("servers",
         VSlice [VMap [("name", VString "alpha");
                       ("private_token", VString "t1")];
                 VMap [("name", VString "beta")]]);
        ("ports", VSlice [VInt 80; VInt 443])].

(** A well-formed armored block and a damaged one. *)
Definition sealed (data : string) : string :=
  (begin_marker ++ data ++ end_marker)%string.

Definition damaged : string :=
  ("#" ++ begin_marker ++ "AAAA" ++ end_marker)%string.

(** A document codec that writes one tree under the name ["doc"] and
    reads that name as another: what a decoder does that gives back
    an array of tables where a sequence of tables was written. *)
Definition codecs_reading (written : any) (read : gomap) : Codecs :=
  mkCodecs
    (fun data => if String.eqb data "doc" then Ok read
                 else Err "toml: expected key")
    (fun v => if any_eqb v written then Ok "doc"
              else Err "toml: unsupported type")
    json_literal
    (fun v => Ok (json_text v)).

(** The document with [[[servers]]]: as a tree with a sequence of
    tables, as [Save] walks it to, and as the decoder reads the
    saved document. *)
Definition servers : gomap :=
  [("servers",
    VSlice [VMap [("name", VString "prod");
                  ("private_api_key", VString "key123")]])].

Definition servers_saved : gomap :=
  [("servers",
    VSlice [VMap [("name", VString "prod");
                  ("private_api_key", VString (sealed "key123"))]])].

Definition servers_read : gomap :=
  [("servers",
    VTables [[("name", VString "prod");
              ("private_api_key", VString (sealed "key123"))]])].

(** The same document with a key that cannot be opened. *)
Definition servers_damaged : gomap :=
  [("servers",
    VTables [[("name", VString "prod");
              ("private_api_key", VString damaged)]])].

(** A table under a matched key that holds an armored leaf under a
    matched key, and the tree that [Save] walks it to. *)
Definition sealed_in_table : any :=
  VMap [("private_db", VMap [("private_token", VString (sealed "abc"))])].

Definition sealed_in_table_saved : gomap :=
  [("private_db",
    VString (sealed (json_text
                       (VMap [("private_token", VString (sealed "abc"))]))))].

(** Two secrets, one of them sealed already. *)
Definition half_sealed : gomap :=
  [("private_old", VString (sealed "x")); ("private_token", VString "abc")].

(** A heap in which one table stands under two keys of the root. *)
Definition shared_heap : heap.heap :=
  heap.mkHeap
    [[("a", heap.MapRef 1); ("b", heap.MapRef 1); ("c", heap.MapRef 2)];
     [("x", heap.Scalar (VString "old"))];
     [("x", heap.Scalar (VString "other"))]]
    [].

End fake.

(* ================================================================= *)
(** ** Properties of the string functions *)

Section StringFacts.

Import strings.
Local Open Scope string_scope.

Lemma append_nil_r (s : string) : s ++ "" = s.
Proof. induction s as [|c s IH]; simpl; [reflexivity | now rewrite IH]. Qed.

Lemma append_assoc (a b c : string) : (a ++ b) ++ c = a ++ b ++ c.
Proof. induction a as [|x a IH]; simpl; [reflexivity | now rewrite IH]. Qed.

Lemma length_append (a b : string) :
  String.length (a ++ b) = (String.length a + String.length b)%nat.
Proof. induction a as [|x a IH]; simpl; [reflexivity | now rewrite IH]. Qed.

Lemma HasPrefix_iff (s p : string) :
  HasPrefix s p = true <-> exists r, s = p ++ r.
Proof.
  revert s; induction p as [|c p IH]; intros s; simpl.
  - split; [intros _; now exists s | reflexivity].
  - destruct s as [|d s].
    + split; [discriminate | intros [r Hr]; discriminate].
    + rewrite andb_true_iff, Ascii.eqb_eq, IH. split.
      * intros [-> [r ->]]. now exists r.
      * intros [r Hr]. injection Hr as -> ->. split; [reflexivity | now exists r].
Qed.

Lemma Contains_iff (s sub : string) :
  Contains s sub = true <-> exists a b, s = a ++ sub ++ b.
Proof.
  induction s as [|c s IH]; simpl.
  - rewrite orb_false_r, HasPrefix_iff. split.
    + intros [r Hr]. now exists "", r.
    + intros [a [b Hab]]. destruct a; simpl in Hab.
      * now exists b.
      * discriminate.
  - rewrite orb_true_iff, HasPrefix_iff, IH. split.
    + intros [[r Hr] | [a [b Hab]]].
      * now exists "", r.
      * exists (String c a), b. simpl. now rewrite Hab.
    + intros [a [b Hab]]. destruct a as [|x a]; simpl in Hab.
      * left. now exists b.
      * right. injection Hab as _ ->. now exists a, b.
Qed.

Lemma drop_append (a b : string) : drop (String.length a) (a ++ b) = b.
Proof. induction a as [|x a IH]; simpl; [now destruct b | exact IH]. Qed.

Lemma drop_split (i : nat) (s : string) :
  (i <= String.length s)%nat ->
  exists a, s = a ++ drop i s /\ String.length a = i.
Proof.
  revert s; induction i as [|i IH]; intros s Hi.
  - exists "". now destruct s.
  - destruct s as [|c s]; simpl in Hi; [lia|].
    destruct (IH s) as [a [Ha Hl]]; [lia|].
    exists (String c a). simpl. split; [now rewrite <- Ha | now rewrite Hl].
Qed.

Lemma occurs_atb_iff (sub s : string) (i : nat) :
  occurs_atb sub s i = true <-> occurs_at sub s i.
Proof.
  unfold occurs_atb, occurs_at.
  rewrite andb_true_iff, Nat.leb_le, HasPrefix_iff. split.
  - intros [Hi [r Hr]]. destruct (drop_split i s Hi) as [a [Ha Hl]].
    exists a, r. split; [now rewrite <- Hr | exact Hl].
  - intros [a [b [-> <-]]]. split.
    + rewrite length_append. lia.
    + rewrite drop_append. now exists b.
Qed.

Lemma occurs_at_bound (sub s : string) (i : nat) :
  occurs_at sub s i -> (i <= String.length s)%nat.
Proof. intros [a [b [-> <-]]]. rewrite length_append. lia. Qed.

Lemma occurs_at_Contains (sub s : string) :
  Contains s sub = true <-> exists i, occurs_at sub s i.
Proof.
  rewrite Contains_iff. split.
  - intros [a [b H]]. exists (String.length a), a, b. now split.
  - intros [i [a [b [H _]]]]. now exists a, b.
Qed.

End StringFacts.

Section ArmorFacts.

Import strings armor.

Lemma markers_in_orderb_iff (s : string) :
  markers_in_orderb s = true <-> markers_in_order s.
Proof.
  unfold markers_in_orderb, markers_in_order.
  rewrite existsb_exists. split.
  - intros [i [_ Hi]]. apply andb_true_iff in Hi as [Hb He].
    apply existsb_exists in He as [j [_ Hj]].
    apply andb_true_iff in Hj as [He Hlt].
    exists i, j. rewrite <- !occurs_atb_iff, <- Nat.ltb_lt. now repeat split.
  - intros [i [j [Hb [He Hlt]]]].
    pose proof (occurs_at_bound _ _ _ Hb) as Bi.
    pose proof (occurs_at_bound _ _ _ He) as Bj.
    exists i. split; [apply in_seq; lia|].
    apply andb_true_iff. split; [now apply occurs_atb_iff|].
    apply existsb_exists. exists j. split; [apply in_seq; lia|].
    apply andb_true_iff. split; [now apply occurs_atb_iff | now apply Nat.ltb_lt].
Qed.

(** The heuristic accepts a string in which the end marker comes first. *)
Lemma isArmoredData_reversed : isArmoredData reversed_markers = true.
Proof. reflexivity. Qed.

Lemma reversed_not_in_order : ~ markers_in_order reversed_markers.
Proof.
  rewrite <- markers_in_orderb_iff. vm_compute. discriminate.
Qed.

(** C2, as the specification words it, fails: recognition does not
    imply that the begin marker precedes the end marker. *)
Lemma C2_order_not_checked :
  ~ (forall s, isArmoredData s = true <-> markers_in_order s).
Proof.
  intros H. apply reversed_not_in_order. apply H. exact isArmoredData_reversed.
Qed.

(** C2 (amended): a string is recognised as already encrypted exactly
    when it contains the begin marker and contains the end marker, at
    any offsets and in any order. *)
Theorem C2_isArmoredData_iff (s : string) :
  isArmoredData s = true <->
  (exists a b, s = (a ++ begin_marker ++ b)%string) /\
  (exists a b, s = (a ++ end_marker ++ b)%string).
Proof.
  unfold isArmoredData. now rewrite andb_true_iff, !Contains_iff.
Qed.

(** Markers in order are recognised; only the converse fails. *)
Lemma markers_in_order_recognised (s : string) :
  markers_in_order s -> isArmoredData s = true.
Proof.
  intros [i [j [Hb [He _]]]]. unfold isArmoredData.
  apply andb_true_iff. split; apply occurs_at_Contains; eauto.
Qed.

End ArmorFacts.
(* ================================================================= *)
(** ** Maps as association lists *)

Section MapFacts.

Lemma distinct_NoDup (l : list string) : distinct l = true <-> NoDup l.
Proof.
  induction l as [|k l IH]; simpl.
  - split; [constructor | reflexivity].
  - rewrite andb_true_iff, negb_true_iff, IH. split.
    + intros [Hk Hl]. constructor; [|exact Hl].
      intros Hin. assert (existsb (String.eqb k) l = true) as E.
      { apply existsb_exists. exists k. split; [exact Hin | apply String.eqb_refl]. }
      congruence.
    + intros H. inversion H as [|? ? Hk Hl]; subst. split; [|exact Hl].
      destruct (existsb (String.eqb k) l) eqn:E; [|reflexivity].
      apply existsb_exists in E as [k' [Hin Heq]].
      apply String.eqb_eq in Heq. subst k'. contradiction.
Qed.

Lemma map_set_fresh (m : gomap) (k : string) (v : any) :
  ~ In k (keys m) -> map_set m k v = m ++ [(k, v)].
Proof.
  induction m as [|[k' v'] m IH]; simpl; intros Hk; [reflexivity|].
  destruct (String.eqb_spec k' k) as [->|Hne].
  - exfalso. apply Hk. now left.
  - rewrite IH; [reflexivity|]. intros Hin. apply Hk. now right.
Qed.

Lemma map_get_In (m : gomap) (k : string) (c : any) :
  map_get m k = Some c -> In (k, c) m.
Proof.
  induction m as [|[k' v'] m IH]; simpl; [discriminate|].
  destruct (String.eqb_spec k' k) as [->|Hne].
  - intros [= ->]. now left.
  - intros H. right. now apply IH.
Qed.

Lemma In_map_get (m : gomap) (k : string) (c : any) :
  NoDup (keys m) -> In (k, c) m -> map_get m k = Some c.
Proof.
  induction m as [|[k' v'] m IH]; simpl; intros Hnd Hin; [contradiction|].
  inversion Hnd as [|? ? Hk Hm]; subst.
  destruct Hin as [[= -> ->]|Hin].
  - now rewrite String.eqb_refl.
  - destruct (String.eqb_spec k' k) as [->|Hne].
    + exfalso. apply Hk. apply (in_map fst) in Hin. exact Hin.
    + now apply IH.
Qed.

Lemma wf_map (m : gomap) :
  wf (VMap m) = true ->
  NoDup (keys m) /\ forall k c, In (k, c) m -> wf c = true.
Proof.
  simpl. rewrite andb_true_iff, distinct_NoDup, forallb_forall.
  intros [Hnd Hall]. split; [exact Hnd|].
  intros k c Hin. exact (Hall (k, c) Hin).
Qed.

Lemma wf_slice (s : list any) :
  wf (VSlice s) = true -> forall c, In c s -> wf c = true.
Proof. simpl. rewrite forallb_forall. auto. Qed.

Lemma wf_child (v : any) (s : step) (c : any) :
  wf v = true -> child v s = Some c -> wf c = true.
Proof.
  intros Hwf Hc. destruct s as [k|i], v; simpl in Hc; try discriminate.
  - apply wf_map in Hwf as [_ H]. apply (H k). now apply map_get_In.
  - apply (wf_slice _ Hwf). eapply nth_error_In; eauto.
Qed.

Lemma height_map_child (m : gomap) (k : string) (c : any) :
  In (k, c) m -> height c < height (VMap m).
Proof.
  simpl. induction m as [|[k' v'] m IH]; simpl; intros Hin; [contradiction|].
  destruct Hin as [[= -> ->]|Hin]; [lia|]. specialize (IH Hin). lia.
Qed.

Lemma height_slice_child (s : list any) (c : any) :
  In c s -> height c < height (VSlice s).
Proof.
  simpl. induction s as [|v s IH]; simpl; intros Hin; [contradiction|].
  destruct Hin as [->|Hin]; [lia|]. specialize (IH Hin). lia.
Qed.

Lemma all_nodes_here (P : any -> bool) (v : any) :
  all_nodes P v = true -> P v = true.
Proof. destruct v; simpl; rewrite ?andb_true_iff; tauto. Qed.

Lemma all_nodes_map (P : any -> bool) (m : gomap) (k : string) (c : any) :
  all_nodes P (VMap m) = true -> In (k, c) m -> all_nodes P c = true.
Proof.
  simpl. rewrite andb_true_iff, forallb_forall. intros [_ H] Hin.
  exact (H (k, c) Hin).
Qed.

Lemma all_nodes_slice (P : any -> bool) (s : list any) (c : any) :
  all_nodes P (VSlice s) = true -> In c s -> all_nodes P c = true.
Proof.
  simpl. rewrite andb_true_iff, forallb_forall. intros [_ H] Hin. auto.
Qed.

End MapFacts.

(* ================================================================= *)
(** ** The walker *)

Section WalkerFacts.

Import walk.

Context {St : Type}.
Variable visit : VisitFunc (St := St).

Local Abbreviation walker := (@walk.walker St).

(** With distinct keys the loop of [walkMap] adds the entries one
    after the other. *)
Lemma rangeMap_eachMap (w : walker) (cur : list string) (m result : gomap)
  (st : St) :
  NoDup (keys result ++ keys m) ->
  rangeMap w cur m result st =
  match eachMap w cur m st with
  | Some (r, st') => Some (result ++ r, st')
  | None => None
  end.
Proof.
  revert result st. induction m as [|[k v] m IH]; intros result st Hnd; simpl.
  - now rewrite app_nil_r.
  - destruct (w cur k v st) as [[nv st1]|]; [|reflexivity].
    assert (~ In k (keys result)) as Hk.
    { intros Hin. simpl in Hnd. apply NoDup_remove_2 in Hnd. apply Hnd.
      apply in_or_app. now left. }
    rewrite IH.
    + destruct (eachMap w cur m st1) as [[r st2]|]; [|reflexivity].
      rewrite map_set_fresh by exact Hk. now rewrite <- app_assoc.
    + rewrite map_set_fresh by exact Hk. unfold keys. rewrite map_app. simpl.
      rewrite <- app_assoc. simpl. exact Hnd.
Qed.

Lemma walkMap_eachMap (w : walker) (path : list string) (key : string)
  (m : gomap) (st : St) :
  NoDup (keys m) ->
  walkMap w path key m st = eachMap w (currentPath path key) m st.
Proof.
  intros Hnd. unfold walkMap. rewrite rangeMap_eachMap by exact Hnd.
  now destruct (eachMap w (currentPath path key) m st) as [[r st']|].
Qed.

Lemma eachMap_keys (w : walker) (cur : list string) (m r : gomap)
  (st st' : St) :
  eachMap w cur m st = Some (r, st') -> keys r = keys m.
Proof.
  revert r st st'. induction m as [|[k v] m IH]; intros r st st'; simpl.
  - now intros [= <- <-].
  - destruct (w cur k v st) as [[nv st1]|]; [|discriminate].
    destruct (eachMap w cur m st1) as [[r1 st2]|] eqn:E; [|discriminate].
    intros [= <- <-]. simpl. f_equal. eapply IH; eauto.
Qed.

(** More fuel does not change a result. *)
Lemma eachMap_mono (w w' : walker) (cur : list string) (m : gomap) :
  (forall k v st r, In (k, v) m -> w cur k v st = Some r -> w' cur k v st = Some r) ->
  forall st r, eachMap w cur m st = Some r -> eachMap w' cur m st = Some r.
Proof.
  induction m as [|[k v] m IH]; intros Hw st r; simpl; [auto|].
  destruct (w cur k v st) as [[nv st1]|] eqn:E; [|discriminate].
  rewrite (Hw k v st _ (or_introl eq_refl) E).
  destruct (eachMap w cur m st1) as [[r1 st2]|] eqn:E1; [|discriminate].
  rewrite (IH (fun k0 v0 st0 r0 Hin => Hw k0 v0 st0 r0 (or_intror Hin)) _ _ E1).
  auto.
Qed.

Lemma rangeMap_mono (w w' : walker) (cur : list string) (m : gomap) :
  (forall k v st r, w cur k v st = Some r -> w' cur k v st = Some r) ->
  forall result st r,
    rangeMap w cur m result st = Some r -> rangeMap w' cur m result st = Some r.
Proof.
  intros Hw. induction m as [|[k v] m IH]; intros result st r; simpl; [auto|].
  destruct (w cur k v st) as [[nv st1]|] eqn:E; [|discriminate].
  rewrite (Hw _ _ _ _ E). apply IH.
Qed.

Lemma rangeSlice_mono (w w' : walker) (cur : list string) (s : list any) :
  (forall k v st r, w cur k v st = Some r -> w' cur k v st = Some r) ->
  forall i st r,
    rangeSlice w cur i s st = Some r -> rangeSlice w' cur i s st = Some r.
Proof.
  intros Hw. induction s as [|v s IH]; intros i st r; simpl; [auto|].
  destruct (w cur (fmt.Sprintf_index i) v st) as [[nv st1]|] eqn:E; [|discriminate].
  rewrite (Hw _ _ _ _ E).
  destruct (rangeSlice w cur (S i) s st1) as [[r1 st2]|] eqn:E1; [|discriminate].
  now rewrite (IH _ _ _ E1).
Qed.

Lemma walkValue_mono (fuel fuel' : nat) :
  fuel <= fuel' ->
  forall path key v st r,
    walkValue fuel visit path key v st = Some r ->
    walkValue fuel' visit path key v st = Some r.
Proof.
  revert fuel'. induction fuel as [|fuel IH]; intros fuel' Hle path key v st r;
    [discriminate|].
  destruct fuel' as [|fuel']; [lia|]. simpl.
  destruct (visit path key v st) as [[nv cont] st1].
  destruct (negb cont); [auto|].
  destruct nv; auto.
  - unfold walkMap.
    destruct (rangeMap (walkValue fuel visit) _ m [] st1) as [[r1 st2]|] eqn:E;
      [|discriminate].
    rewrite (rangeMap_mono _ (walkValue fuel' visit) _ _
               (fun k x s r0 => IH fuel' ltac:(lia) _ k x s r0) _ _ _ E).
    auto.
  - unfold walkSlice.
    destruct (rangeSlice (walkValue fuel visit) _ 0 s st1) as [[r1 st2]|] eqn:E;
      [|discriminate].
    rewrite (rangeSlice_mono _ (walkValue fuel' visit) _ _
               (fun k x s0 r0 => IH fuel' ltac:(lia) _ k x s0 r0) _ _ _ E).
    auto.
Qed.

End WalkerFacts.

(* ================================================================= *)
(** ** Induction on trees *)

Section TreeFacts.

Lemma any_induction (P : any -> Prop) :
  P VNil -> (forall b, P (VBool b)) -> (forall n, P (VInt n)) ->
  (forall bits, P (VFloat bits)) -> (forall s, P (VString s)) ->
  (forall repr, P (VOther repr)) ->
  (forall m, Forall (fun kv => P (snd kv)) m -> P (VMap m)) ->
  (forall s, Forall P s -> P (VSlice s)) ->
  (forall ts, Forall (fun m => Forall (fun kv => P (snd kv)) m) ts ->
              P (VTables ts)) ->
  forall v, P v.
Proof.
  intros Hnil Hbool Hint Hfloat Hstr Hother Hmap Hslice Htables.
  fix IH 1. intros [ |b|n|bits|s|repr|m|s|ts].
  - exact Hnil.
  - apply Hbool.
  - apply Hint.
  - apply Hfloat.
  - apply Hstr.
  - apply Hother.
  - apply Hmap. induction m as [|[k c] m IHm]; constructor; [apply IH | exact IHm].
  - apply Hslice. induction s as [|c s IHs]; constructor; [apply IH | exact IHs].
  - apply Htables. induction ts as [|m ts IHts]; constructor; [|exact IHts].
    induction m as [|[k c] m IHm]; constructor; [apply IH | exact IHm].
Qed.

Lemma all_nodes_true (v : any) : all_nodes (fun _ => true) v = true.
Proof.
  induction v using any_induction; simpl; try reflexivity.
  - apply forallb_forall. intros kv Hin. rewrite Forall_forall in H. auto.
  - apply forallb_forall. intros c Hin. rewrite Forall_forall in H. auto.
Qed.

Lemma all_nodes_subtree (P : any -> bool) (pos : list step) :
  forall v x, all_nodes P v = true -> subtree v pos = Some x -> P x = true.
Proof.
  induction pos as [|s pos IH]; intros v x Hall; simpl.
  - intros [= <-]. now apply all_nodes_here.
  - destruct (child v s) as [c|] eqn:Hc; [|discriminate].
    apply IH. destruct s as [k|i], v; simpl in Hc; try discriminate.
    + apply (all_nodes_map P m k c Hall). now apply map_get_In.
    + apply (all_nodes_slice P s c Hall). eapply nth_error_In; eauto.
Qed.


Lemma extends_refl {A : Type} (l : list A) : extends l l.
Proof. exists []. now rewrite app_nil_r. Qed.

Lemma extends_trans {A : Type} (a b c : list A) :
  extends a b -> extends b c -> extends a c.
Proof. intros [x ->] [y ->]. exists (x ++ y). now rewrite app_assoc. Qed.

Lemma extends_In {A : Type} (l l' : list A) (x : A) :
  extends l l' -> In x l -> In x l'.
Proof. intros [more ->] Hin. apply in_or_app. now left. Qed.

End TreeFacts.

(* ================================================================= *)
(** ** Walks that return, walks that keep the tree, walks at a position *)

Section WalkerLoops.

Import walk.

Context {St : Type}.

(** Both loops relate the children to their results one by one. *)
Lemma eachMap_Forall2 (w : @walker St) (cur : list string)
  (Q : any -> any -> Prop) (R : St -> St -> Prop) (m : gomap) :
  (forall st, R st st) ->
  (forall a b c, R a b -> R b c -> R a c) ->
  (forall k c, In (k, c) m ->
     forall st, exists c' st', w cur k c st = Some (c', st') /\ Q c c' /\ R st st') ->
  forall st, exists r st',
    eachMap w cur m st = Some (r, st') /\
    Forall2 (fun kv kv' => fst kv = fst kv' /\ Q (snd kv) (snd kv')) m r /\
    R st st'.
Proof.
  intros Rrefl Rtrans. induction m as [|[k v] m IH]; intros Hw st; simpl.
  - exists [], st. repeat split; [constructor | apply Rrefl].
  - destruct (Hw k v (or_introl eq_refl) st) as [c' [st1 [E [Hq Hr]]]].
    rewrite E.
    destruct (IH (fun k0 c0 Hin => Hw k0 c0 (or_intror Hin)) st1)
      as [r [st2 [E2 [HF Hr2]]]].
    rewrite E2. exists ((k, c') :: r), st2. repeat split.
    + constructor; [now split | exact HF].
    + eapply Rtrans; eauto.
Qed.

Lemma rangeSlice_Forall2 (w : @walker St) (cur : list string)
  (Q : any -> any -> Prop) (R : St -> St -> Prop) (s : list any) :
  (forall st, R st st) ->
  (forall a b c, R a b -> R b c -> R a c) ->
  forall i,
  (forall j c, nth_error s j = Some c ->
     forall st, exists c' st',
       w cur (fmt.Sprintf_index (i + j)) c st = Some (c', st') /\ Q c c' /\ R st st') ->
  forall st, exists r st',
    rangeSlice w cur i s st = Some (r, st') /\ Forall2 Q s r /\ R st st'.
Proof.
  intros Rrefl Rtrans. induction s as [|v s IH]; intros i Hw st; simpl.
  - exists [], st. repeat split; [constructor | apply Rrefl].
  - destruct (Hw 0 v eq_refl st) as [c' [st1 [E [Hq Hr]]]].
    rewrite Nat.add_0_r in E. rewrite E.
    destruct (IH (S i)) with (st := st1) as [r [st2 [E2 [HF Hr2]]]].
    { intros j c Hj st0. specialize (Hw (S j) c Hj st0).
      now rewrite Nat.add_succ_r in Hw. }
    rewrite E2. exists (c' :: r), st2. repeat split.
    + now constructor.
    + eapply Rtrans; eauto.
Qed.

Lemma Forall2_eq_map (m r : gomap) :
  Forall2 (fun kv kv' => fst kv = fst kv' /\ snd kv = snd kv') m r -> r = m.
Proof.
  induction 1 as [|[k v] [k' v'] m r [Hk Hv] _ IH]; [reflexivity|].
  simpl in Hk, Hv. now subst.
Qed.

Lemma Forall2_eq_list (s r : list any) : Forall2 eq s r -> r = s.
Proof. induction 1; [reflexivity | now subst]. Qed.

(** What a loop did to the entry of one key, to the element at one
    index. *)
Lemma eachMap_at (w : @walker St) (cur : list string)
  (le : St -> St -> Prop) (m : gomap) :
  (forall st, le st st) ->
  (forall a b c, le a b -> le b c -> le a c) ->
  (forall k c st c' st', w cur k c st = Some (c', st') -> le st st') ->
  forall st r st' k c,
    eachMap w cur m st = Some (r, st') ->
    map_get m k = Some c ->
    exists sta c' stb,
      w cur k c sta = Some (c', stb) /\ map_get r k = Some c' /\
      le st sta /\ le stb st'.
Proof.
  intros Lrefl Ltrans Hw.
  assert (forall m st r st', eachMap w cur m st = Some (r, st') -> le st st')
    as Hloop.
  { clear m. induction m as [|[k v] m IH]; intros st r st'; simpl.
    - intros [= _ <-]. apply Lrefl.
    - destruct (w cur k v st) as [[nv st1]|] eqn:E; [|discriminate].
      destruct (eachMap w cur m st1) as [[r1 st2]|] eqn:E1; [|discriminate].
      intros [= _ <-]. eapply Ltrans; [eapply Hw | eapply IH]; eauto. }
  induction m as [|[k0 v] m IH]; intros st r st' k c; simpl; [discriminate|].
  destruct (w cur k0 v st) as [[nv st1]|] eqn:E; [|discriminate].
  destruct (eachMap w cur m st1) as [[r1 st2]|] eqn:E1; [|discriminate].
  intros [= <- <-]. simpl.
  destruct (String.eqb_spec k0 k) as [->|Hne].
  - intros [= ->]. exists st, nv, st1. repeat split; eauto.
  - intros Hget. destruct (IH _ _ _ _ _ E1 Hget) as [sta [c' [stb [Hc [Hg [L1 L2]]]]]].
    exists sta, c', stb. repeat split; eauto.
Qed.

Lemma rangeSlice_at (w : @walker St) (cur : list string)
  (le : St -> St -> Prop) (s : list any) :
  (forall st, le st st) ->
  (forall a b c, le a b -> le b c -> le a c) ->
  (forall k c st c' st', w cur k c st = Some (c', st') -> le st st') ->
  forall i st r st' j c,
    rangeSlice w cur i s st = Some (r, st') ->
    nth_error s j = Some c ->
    exists sta c' stb,
      w cur (fmt.Sprintf_index (i + j)) c sta = Some (c', stb) /\
      nth_error r j = Some c' /\ le st sta /\ le stb st'.
Proof.
  intros Lrefl Ltrans Hw.
  assert (forall s i st r st', rangeSlice w cur i s st = Some (r, st') -> le st st')
    as Hloop.
  { clear s. induction s as [|v s IH]; intros i st r st'; simpl.
    - intros [= _ <-]. apply Lrefl.
    - destruct (w cur _ v st) as [[nv st1]|] eqn:E; [|discriminate].
      destruct (rangeSlice w cur (S i) s st1) as [[r1 st2]|] eqn:E1; [|discriminate].
      intros [= _ <-]. eapply Ltrans; [eapply Hw | eapply IH]; eauto. }
  induction s as [|v s IH]; intros i st r st' j c; simpl.
  - destruct j; discriminate.
  - destruct (w cur _ v st) as [[nv st1]|] eqn:E; [|discriminate].
    destruct (rangeSlice w cur (S i) s st1) as [[r1 st2]|] eqn:E1; [|discriminate].
    intros [= <- <-]. destruct j as [|j]; simpl.
    + intros [= ->]. rewrite Nat.add_0_r. exists st, nv, st1. repeat split; eauto.
    + intros Hj. destruct (IH _ _ _ _ _ _ E1 Hj) as [sta [c' [stb [Hc [Hg [L1 L2]]]]]].
      rewrite Nat.add_succ_r. exists sta, c', stb. repeat split; eauto.
Qed.

(** A loop, and the loop that undoes it child by child. *)
Lemma eachMap_inverse {St2 : Type} (w1 : @walker St) (w2 : @walker St2)
  (cur : list string) (m : gomap) :
  (forall k c, In (k, c) m ->
     forall st c' st', w1 cur k c st = Some (c', st') ->
     forall s2, exists s2', w2 cur k c' s2 = Some (c, s2')) ->
  forall st r st',
    eachMap w1 cur m st = Some (r, st') ->
    forall s2, exists s2', eachMap w2 cur r s2 = Some (m, s2').
Proof.
  induction m as [|[k v] m IH]; intros Hw st r st'; simpl.
  - intros [= <- _] s2. now exists s2.
  - destruct (w1 cur k v st) as [[nv st1]|] eqn:E; [|discriminate].
    destruct (eachMap w1 cur m st1) as [[r1 st2]|] eqn:E1; [|discriminate].
    intros [= <- _] s2. simpl.
    destruct (Hw k v (or_introl eq_refl) _ _ _ E s2) as [s2a E2]. rewrite E2.
    destruct (IH (fun k0 c0 Hin => Hw k0 c0 (or_intror Hin)) _ _ _ E1 s2a)
      as [s2b E3].
    rewrite E3. now exists s2b.
Qed.

Lemma rangeSlice_inverse {St2 : Type} (w1 : @walker St) (w2 : @walker St2)
  (cur : list string) (s : list any) :
  forall i,
  (forall j c, nth_error s j = Some c ->
     forall st c' st',
       w1 cur (fmt.Sprintf_index (i + j)) c st = Some (c', st') ->
     forall s2, exists s2',
       w2 cur (fmt.Sprintf_index (i + j)) c' s2 = Some (c, s2')) ->
  forall st r st',
    rangeSlice w1 cur i s st = Some (r, st') ->
    forall s2, exists s2', rangeSlice w2 cur i r s2 = Some (s, s2').
Proof.
  induction s as [|v s IH]; intros i Hw st r st'; simpl.
  - intros [= <- _] s2. now exists s2.
  - destruct (w1 cur _ v st) as [[nv st1]|] eqn:E; [|discriminate].
    destruct (rangeSlice w1 cur (S i) s st1) as [[r1 st2]|] eqn:E1; [|discriminate].
    intros [= <- _] s2. simpl.
    pose proof (Hw 0 v eq_refl) as H0. rewrite Nat.add_0_r in H0.
    destruct (H0 _ _ _ E s2) as [s2a E2]. rewrite E2.
    destruct (IH (S i)) with (st := st1) (r := r1) (st' := st2) (s2 := s2a)
      as [s2b E3]; [|exact E1|].
    { intros j c Hj. specialize (Hw (S j) c Hj).
      now rewrite Nat.add_succ_r in Hw. }
    rewrite E3. now exists s2b.
Qed.

(** The loops return when every call in them returns. *)
Lemma rangeMap_returns (w : @walker St) (cur : list string) (m : gomap) :
  (forall k c, In (k, c) m -> forall st, exists r, w cur k c st = Some r) ->
  forall result st, exists r, rangeMap w cur m result st = Some r.
Proof.
  induction m as [|[k v] m IH]; intros Hw result st; simpl; [eauto|].
  destruct (Hw k v (or_introl eq_refl) st) as [[nv st1] E]. rewrite E.
  apply IH. intros k0 c0 Hin. apply (Hw k0 c0). now right.
Qed.

Lemma rangeSlice_returns (w : @walker St) (cur : list string) (s : list any) :
  (forall k c, In c s -> forall st, exists r, w cur k c st = Some r) ->
  forall i st, exists r, rangeSlice w cur i s st = Some r.
Proof.
  induction s as [|v s IH]; intros Hw i st; simpl; [eauto|].
  destruct (Hw (fmt.Sprintf_index i) v (or_introl eq_refl) st) as [[nv st1] E].
  rewrite E.
  destruct (IH (fun k c Hin => Hw k c (or_intror Hin)) (S i) st1) as [[r st2] E2].
  rewrite E2. eauto.
Qed.

End WalkerLoops.

Section WalkerTrees.

Import walk.

Context {St : Type}.
Variable visit : VisitFunc (St := St).

(** *** Termination: a measure that the visitor does not increase *)

Section Returns.

Variable mu : any -> nat.
Hypothesis mu_map : forall m k c, In (k, c) m -> mu c < mu (VMap m).
Hypothesis mu_slice : forall s c, In c s -> mu c < mu (VSlice s).
Hypothesis visit_mu :
  forall path key v st, mu (fst (fst (visit path key v st))) <= mu v.

Lemma walkValue_returns (fuel : nat) :
  forall path key v st,
    mu v < fuel -> exists r, walkValue fuel visit path key v st = Some r.
Proof.
  induction fuel as [|fuel IH]; intros path key v st Hmu; [lia|]. simpl.
  pose proof (visit_mu path key v st) as Hle.
  destruct (visit path key v st) as [[nv cont] st1]. simpl in Hle.
  destruct (negb cont); [eauto|].
  destruct nv; eauto.
  - destruct (rangeMap_returns (walkValue fuel visit) (currentPath path key) m)
      with (result := @nil (string * any)) (st := st1) as [[r st2] E].
    { intros k c Hin st0. apply IH. specialize (mu_map _ _ _ Hin). lia. }
    unfold walkMap. rewrite E. eauto.
  - destruct (rangeSlice_returns (walkValue fuel visit) (currentPath path key) s)
      with (i := 0) (st := st1) as [[r st2] E].
    { intros k c Hin st0. apply IH. specialize (mu_slice _ _ Hin). lia. }
    unfold walkSlice. rewrite E. eauto.
Qed.

End Returns.

(** *** A visitor that returns the nodes of a tree as they are *)

Section Keeps.

Variable R : St -> St -> Prop.
Hypothesis R_refl : forall st, R st st.
Hypothesis R_trans : forall a b c, R a b -> R b c -> R a c.
Variable P : any -> bool.
Hypothesis visit_keeps :
  forall x, P x = true ->
  forall path key st, exists st',
    visit path key x st = ((x, true), st') /\ R st st'.

Lemma walkValue_keeps (fuel : nat) :
  forall path key v st,
    height v < fuel -> wf v = true -> all_nodes P v = true ->
    exists st', walkValue fuel visit path key v st = Some (v, st') /\ R st st'.
Proof.
  induction fuel as [|fuel IH]; intros path key v st Hh Hwf Hall; [lia|]. simpl.
  destruct (visit_keeps v (all_nodes_here _ _ Hall) path key st) as [st1 [E Hr]].
  rewrite E. simpl.
  destruct v; try (exists st1; now split).
  - destruct (wf_map _ Hwf) as [Hnd Hc].
    rewrite walkMap_eachMap by exact Hnd.
    destruct (eachMap_Forall2 (walkValue fuel visit) (currentPath path key)
                eq R m R_refl R_trans) with (st := st1) as [r [st2 [E2 [HF Hr2]]]].
    { intros k c Hin st0.
      destruct (IH (currentPath path key) k c st0) as [st' [E' Hr']].
      - specialize (height_map_child _ _ _ Hin). lia.
      - eapply Hc; eauto.
      - eapply all_nodes_map; eauto.
      - exists c, st'. now repeat split. }
    rewrite E2. apply Forall2_eq_map in HF. subst r.
    exists st2. split; [reflexivity | eauto].
  - unfold walkSlice.
    destruct (rangeSlice_Forall2 (walkValue fuel visit) (currentPath path key)
                eq R s R_refl R_trans 0) with (st := st1) as [r [st2 [E2 [HF Hr2]]]].
    { intros j c Hj st0. apply nth_error_In in Hj.
      destruct (IH (currentPath path key) (fmt.Sprintf_index (0 + j)) c st0)
        as [st' [E' Hr']].
      - specialize (height_slice_child _ _ Hj). lia.
      - eapply wf_slice; eauto.
      - eapply all_nodes_slice; eauto.
      - exists c, st'. now repeat split. }
    rewrite E2. apply Forall2_eq_list in HF. subst r.
    exists st2. split; [reflexivity | eauto].
Qed.

End Keeps.

(** *** A visitor whose state only grows, and the walk at a position *)

Section Position.

Variable le : St -> St -> Prop.
Hypothesis le_refl : forall st, le st st.
Hypothesis le_trans : forall a b c, le a b -> le b c -> le a c.
Hypothesis visit_le : forall path key v st, le st (snd (visit path key v st)).

Lemma walkValue_after (fuel : nat) :
  forall path key v st v' st',
    walkValue fuel visit path key v st = Some (v', st') ->
    le (snd (visit path key v st)) st'.
Proof.
  induction fuel as [|fuel IH]; intros path key v st v' st'; [discriminate|].
  assert (forall p k x s x' s',
            walkValue fuel visit p k x s = Some (x', s') -> le s s') as Hcall.
  { intros p k x s x' s' E. eapply le_trans; [apply visit_le | eapply IH; eauto]. }
  simpl. destruct (visit path key v st) as [[nv cont] st1]. simpl.
  destruct (negb cont); [intros [= _ <-]; apply le_refl|].
  destruct nv; try (intros [= _ <-]; apply le_refl).
  - unfold walkMap.
    destruct (rangeMap _ _ m [] st1) as [[r st2]|] eqn:E; [|discriminate].
    intros [= _ <-].
    revert E. generalize (@nil (string * any)). revert st1.
    induction m as [|[k c] m IHm]; intros st1 res; simpl.
    + intros [= _ <-]. apply le_refl.
    + destruct (walkValue fuel visit _ k c st1) as [[nv sta]|] eqn:E1; [|discriminate].
      intros E. eapply le_trans; [eapply Hcall; eauto | eapply IHm; eauto].
  - unfold walkSlice.
    destruct (rangeSlice _ _ 0 s st1) as [[r st2]|] eqn:E; [|discriminate].
    intros [= _ <-].
    revert E. generalize 0. revert st1 r.
    induction s as [|c s IHs]; intros st1 r i; simpl.
    + intros [= _ <-]. apply le_refl.
    + destruct (walkValue fuel visit _ _ c st1) as [[nv sta]|] eqn:E1; [|discriminate].
      destruct (rangeSlice _ _ (S i) s sta) as [[r1 stb]|] eqn:E2; [|discriminate].
      intros [= _ <-]. eapply le_trans; [eapply Hcall; eauto | eapply IHs; eauto].
Qed.

Lemma walkValue_le (fuel : nat) :
  forall path key v st v' st',
    walkValue fuel visit path key v st = Some (v', st') -> le st st'.
Proof.
  intros path key v st v' st' E.
  eapply le_trans; [apply visit_le | eapply walkValue_after; eauto].
Qed.

Lemma above_cons (s : step) (pos1 pos : list step) :
  above pos1 pos -> above (s :: pos1) (s :: pos).
Proof. intros [s' [rest ->]]. now exists s', rest. Qed.

Lemma above_nil (s : step) (pos : list step) : above [] (s :: pos).
Proof. now exists s, pos. Qed.

(** When the visitor returns every node above a position as it is,
    the node at the position is walked, and the result of that walk
    stands at the same position of the result. *)
Lemma walkValue_at (pos : list step) :
  forall fuel path key v st v' st' x,
    walkValue fuel visit path key v st = Some (v', st') ->
    wf v = true ->
    subtree v pos = Some x ->
    (forall pos1 a, above pos1 pos -> subtree v pos1 = Some a ->
       forall st0,
         fst (visit (fst (address path key pos1)) (snd (address path key pos1))
                    a st0) = (a, true)) ->
    exists fuel1 st1 x' st2,
      walkValue fuel1 visit (fst (address path key pos))
                (snd (address path key pos)) x st1 = Some (x', st2) /\
      subtree v' pos = Some x' /\ le st st1 /\ le st2 st'.
Proof.
  induction pos as [|s pos IH]; intros fuel path key v st v' st' x Hw Hwf Hsub Hkept.
  - simpl in Hsub. injection Hsub as <-.
    exists fuel, st, v', st'. simpl. repeat split; auto.
  - simpl in Hsub. destruct (child v s) as [c|] eqn:Hc; [|discriminate].
    destruct fuel as [|fuel]; [discriminate|]. simpl in Hw.
    pose proof (Hkept [] v (above_nil s pos) eq_refl st) as Hv. simpl in Hv.
    pose proof (visit_le path key v st) as Hle.
    destruct (visit path key v st) as [[nv cont] st1]. simpl in Hv, Hle.
    injection Hv as -> ->. simpl in Hw.
    assert (forall pos1 a, above pos1 pos -> subtree c pos1 = Some a ->
              forall st0,
                fst (visit (fst (address (currentPath path key) (step_key s) pos1))
                           (snd (address (currentPath path key) (step_key s) pos1))
                           a st0) = (a, true)) as Hkept'.
    { intros pos1 a Ha Hs st0.
      apply (Hkept (s :: pos1) a (above_cons s _ _ Ha)). simpl. now rewrite Hc. }
    destruct s as [k|i], v; simpl in Hc; try discriminate.
    + destruct (wf_map _ Hwf) as [Hnd Hch].
      rewrite walkMap_eachMap in Hw by exact Hnd.
      destruct (eachMap _ _ m st1) as [[r st2]|] eqn:E; [|discriminate].
      injection Hw as <- <-.
      destruct (eachMap_at (walkValue fuel visit) (currentPath path key) le m
                  le_refl le_trans (walkValue_le fuel (currentPath path key))
                  _ _ _ _ _ E Hc)
        as [sta [c' [stb [Hcall [Hget [L1 L2]]]]]].
      destruct (IH _ _ _ _ _ _ _ _ Hcall
                  (Hch k c (map_get_In _ _ _ Hc)) Hsub Hkept')
        as [fuel1 [stc [x' [std [Hx [Hs' [L3 L4]]]]]]].
      exists fuel1, stc, x', std. simpl. rewrite Hget. repeat split; eauto.
    + unfold walkSlice in Hw.
      destruct (rangeSlice _ _ 0 s st1) as [[r st2]|] eqn:E; [|discriminate].
      injection Hw as <- <-.
      destruct (rangeSlice_at (walkValue fuel visit) (currentPath path key) le s
                  le_refl le_trans (walkValue_le fuel (currentPath path key))
                  _ _ _ _ _ _ E Hc)
        as [sta [c' [stb [Hcall [Hget [L1 L2]]]]]].
      simpl in Hcall.
      destruct (IH _ _ _ _ _ _ _ _ Hcall
                  (wf_slice _ Hwf c (nth_error_In _ _ Hc)) Hsub Hkept')
        as [fuel1 [stc [x' [std [Hx [Hs' [L3 L4]]]]]]].
      exists fuel1, stc, x', std. simpl. rewrite Hget. repeat split; eauto.
Qed.

End Position.

End WalkerTrees.

(* ================================================================= *)
(** ** Index keys: printing and scanning *)

Section FmtFacts.

Import fmt.

Local Opaque Nat.div Nat.modulo.

Lemma digit_is_digit (d : nat) :
  d < 10 -> is_digit (digit d) = true /\ nat_of_ascii (digit d) - 48 = d.
Proof.
  intros Hd. do 10 (destruct d as [|d]; [now vm_compute|]). lia.
Qed.

Lemma digits_parse (fuel : nat) :
  forall n acc, n < fuel ->
    exists k : nat, forall a : Z,
      parse_decimal (digits fuel n acc) a =
      parse_decimal acc (10 ^ Z.of_nat k * a + Z.of_nat n)%Z.
Proof.
  induction fuel as [|fuel IH]; intros n acc Hn; [lia|]. cbn [digits].
  assert (n mod 10 < 10) as Hmod by (apply Nat.mod_upper_bound; lia).
  destruct (digit_is_digit _ Hmod) as [Hd Hv].
  pose proof (Nat.div_mod_eq n 10) as Hdm.
  destruct (n / 10 =? 0) eqn:E.
  - apply Nat.eqb_eq in E. exists 1. intros a. cbn [parse_decimal].
    rewrite Hd, Hv. f_equal. rewrite Z.pow_1_r. lia.
  - apply Nat.eqb_neq in E.
    destruct (IH (n / 10) (String (digit (n mod 10)) acc)) as [k Hk]; [lia|].
    exists (S k). intros a. rewrite Hk. cbn [parse_decimal]. rewrite Hd, Hv.
    f_equal. rewrite Nat2Z.inj_succ, Z.pow_succ_r by lia.
    rewrite Hdm at 3. rewrite Nat2Z.inj_add, Nat2Z.inj_mul. simpl Z.of_nat. lia.
Qed.

Lemma digits_all (fuel : nat) :
  forall n acc, all_digits acc = true -> all_digits (digits fuel n acc) = true.
Proof.
  induction fuel as [|fuel IH]; intros n acc Hacc; cbn [digits]; [exact Hacc|].
  assert (n mod 10 < 10) as Hmod by (apply Nat.mod_upper_bound; lia).
  destruct (digit_is_digit _ Hmod) as [Hd _].
  destruct (n / 10 =? 0); [|apply IH]; cbn [all_digits]; now rewrite Hd.
Qed.

Lemma digits_nonempty (fuel : nat) :
  forall n acc, n < fuel -> digits fuel n acc <> EmptyString.
Proof.
  induction fuel as [|fuel IH]; intros n acc Hn; [lia|]. cbn [digits].
  pose proof (Nat.div_mod_eq n 10) as Hdm.
  destruct (n / 10 =? 0) eqn:E; [discriminate|].
  apply Nat.eqb_neq in E. apply IH. lia.
Qed.

Lemma scan_number_digits (s : string) :
  all_digits s = true -> scan_number s = (s, EmptyString).
Proof.
  induction s as [|c s IH]; cbn [all_digits scan_number]; [reflexivity|].
  rewrite andb_true_iff. intros [Hc Hs]. rewrite Hc, (IH Hs). reflexivity.
Qed.

Lemma is_digit_code (c : ascii) :
  is_digit c = true -> 48 <= nat_of_ascii c <= 57.
Proof.
  unfold is_digit. rewrite andb_true_iff, !Nat.leb_le. tauto.
Qed.

(** Scanning the decimal form of an index gives the index back. *)
Lemma Sscanf_itoa (n : nat) :
  (Z.of_nat n <= max_int)%Z -> Sscanf_d (itoa n) = Some (Z.of_nat n).
Proof.
  intros Hmax. unfold itoa.
  pose proof (digits_all (S n) n "" eq_refl) as Hall.
  pose proof (digits_nonempty (S n) n "" (Nat.lt_succ_diag_r n)) as Hne.
  destruct (digits_parse (S n) n "" (Nat.lt_succ_diag_r n)) as [k Hk].
  specialize (Hk 0%Z). cbn [parse_decimal] in Hk.
  rewrite Z.mul_0_r, Z.add_0_l in Hk.
  destruct (digits (S n) n "") as [|c rest] eqn:Ed; [congruence|].
  pose proof Hall as Hall'. cbn [all_digits] in Hall'. apply andb_true_iff in Hall' as [Hc _].
  apply is_digit_code in Hc.
  unfold Sscanf_d. cbn [skip_space].
  replace (nat_of_ascii c =? 10) with false by (symmetry; apply Nat.eqb_neq; lia).
  replace (is_space c) with false.
  2:{ unfold is_space. symmetry. rewrite !orb_false_iff, !Nat.eqb_neq. lia. }
  replace (nat_of_ascii c <? 128) with true by (symmetry; apply Nat.ltb_lt; lia).
  replace (nat_of_ascii c =? 43) with false by (symmetry; apply Nat.eqb_neq; lia).
  replace (nat_of_ascii c =? 45) with false by (symmetry; apply Nat.eqb_neq; lia).
  rewrite (scan_number_digits _ Hall). cbn [fst]. rewrite Hk.
  replace (min_int <=? Z.of_nat n)%Z with true
    by (symmetry; apply Z.leb_le; unfold min_int; lia).
  replace (Z.of_nat n <=? max_int)%Z with true by (symmetry; now apply Z.leb_le).
  reflexivity.
Qed.

Lemma get_last_bracket (d : string) :
  String.get (String.length d) (d ++ "]")%string = Some "]"%char.
Proof. induction d as [|c d IH]; simpl; [reflexivity | exact IH]. Qed.

Lemma substring_all_but_last (d : string) :
  String.substring 0 (String.length d) (d ++ "]")%string = d.
Proof. induction d as [|c d IH]; simpl; [reflexivity | now rewrite IH]. Qed.

(** An index key has the form that [GetValue] looks for. *)
Lemma Sprintf_index_form (i : nat) :
  let key := Sprintf_index i in
  let n := String.length key in
  (n <? 3) = false /\
  String.get 0 key = Some "["%char /\
  String.get (n - 1) key = Some "]"%char /\
  String.substring 1 (n - 2) key = itoa i.
Proof.
  unfold Sprintf_index.
  pose proof (digits_nonempty (S i) i "" (Nat.lt_succ_diag_r i)) as Hne.
  fold (itoa i) in Hne.
  destruct (itoa i) as [|c d] eqn:Ed; [congruence|].
  cbn [append String.length]. rewrite length_append. cbn [String.length].
  replace (S (S (String.length d + 1))) with (S (S (S (String.length d)))) by lia.
  cbn [Nat.sub Nat.ltb Nat.leb String.get String.substring].
  repeat split.
  - apply get_last_bracket.
  - f_equal. apply substring_all_but_last.
Qed.

End FmtFacts.

(* ================================================================= *)
(** ** Paths: what the walker passes and what [GetValue] resolves *)

Section PathFacts.

Import walk.

(** The visitor of [FindFields] returns every node as it is and only
    adds to its results. *)
Lemma FindFields_returns (fuel : nat) (data : any)
  (predicate : list string -> string -> any -> bool) :
  wf data = true -> height data < fuel ->
  exists results, FindFields fuel data predicate = Some results.
Proof.
  intros Hwf Hh. unfold FindFields, Walk.
  edestruct (walkValue_keeps
               (fun path key value results =>
                  ((value, true),
                   if predicate path key value
                   then results ++ [mkFieldInfo (path ++ [key]) key value]
                   else results))
               (fun _ _ => True) (fun _ => I) (fun _ _ _ _ _ => I)
               (fun _ => true)) as [st' [E _]].
  - intros x _ path key st. eexists. split; [reflexivity | exact I].
  - exact Hh.
  - exact Hwf.
  - apply all_nodes_true.
  - rewrite E. eauto.
Qed.

(** Every node is visited with the path and the key of [address]: a
    predicate that holds of them selects the node. *)
Lemma FindFields_complete (fuel : nat) (data : any)
  (predicate : list string -> string -> any -> bool)
  (results : list FieldInfo) (pos : list step) (x : any) :
  wf data = true ->
  FindFields fuel data predicate = Some results ->
  subtree data pos = Some x ->
  predicate (fst (address [] "" pos)) (snd (address [] "" pos)) x = true ->
  exists fi,
    In fi results /\ FKey fi = snd (address [] "" pos) /\ Value fi = x.
Proof.
  intros Hwf HF Hsub Hpred. unfold FindFields, Walk in HF.
  set (visit := fun path key value results =>
                  ((value, true),
                   if predicate path key value
                   then results ++ [mkFieldInfo (path ++ [key]) key value]
                   else results)) in HF.
  destruct (walkValue fuel visit [] "" data []) as [[v' st']|] eqn:E;
    [|discriminate].
  injection HF as <-.
  assert (forall path key v st, extends st (snd (visit path key v st))) as Hle.
  { intros path key v st. unfold visit. simpl.
    destruct (predicate path key v); [now eexists | apply extends_refl]. }
  destruct (walkValue_at visit extends extends_refl extends_trans Hle pos
              _ _ _ _ _ _ _ x E Hwf Hsub)
    as [fuel1 [st1 [x' [st2 [Hx [_ [_ L2]]]]]]].
  { intros. reflexivity. }
  apply (walkValue_after visit extends extends_refl extends_trans Hle) in Hx.
  unfold visit in Hx at 1. simpl in Hx. rewrite Hpred in Hx.
  exists (mkFieldInfo (fst (address [] "" pos) ++ [snd (address [] "" pos)])
                      (snd (address [] "" pos)) x).
  split; [|split; reflexivity].
  eapply extends_In; [exact L2|]. eapply extends_In; [exact Hx|].
  apply in_or_app. right. now left.
Qed.

(** Where no container is stored under the empty key, the walker's
    addressing is the one that the specification describes. *)
Lemma address_spec (pos : list step) :
  forall path key,
    (forall s, In s (inner_steps pos) -> step_key s <> "") ->
    (pos <> [] -> key <> Some "") ->
    address path (key_seen key) pos =
    (fst (spec_address path key pos), key_seen (snd (spec_address path key pos))).
Proof.
  induction pos as [|s pos IH]; intros path key Hin Hkey; [reflexivity|].
  cbn [address spec_address].
  assert (currentPath path (key_seen key) = spec_currentPath path key) as ->.
  { unfold currentPath, spec_currentPath. destruct key as [k|]; [|reflexivity].
    simpl. destruct (String.eqb_spec k ""); [|reflexivity].
    subst k. exfalso. now apply Hkey. }
  apply (IH (spec_currentPath path key) (Some (step_key s))).
  - intros s' Hs'. apply Hin. unfold inner_steps in *.
    destruct pos; [contradiction | now right].
  - intros Hpos [= Hk]. apply (Hin s); [|exact Hk].
    unfold inner_steps. destruct pos; [congruence | now left].
Qed.

Lemma spec_address_full (pos : list step) :
  forall path key,
    fst (spec_address path key pos) ++
      match snd (spec_address path key pos) with Some k => [k] | None => [] end =
    path ++ match key with Some k => [k] | None => [] end ++ map step_key pos.
Proof.
  induction pos as [|s pos IH]; intros path key; cbn [spec_address map].
  - now rewrite app_nil_r.
  - rewrite IH. unfold spec_currentPath.
    destruct key; simpl; now rewrite <- ?app_assoc.
Qed.

(** [GetValue] follows the keys of a position. *)
Lemma GetValue_loop_steps (pos : list step) :
  forall v x,
    Forall (fun s => match s with
                     | Index i => (Z.of_nat i <= fmt.max_int)%Z
                     | Key _ => True
                     end) pos ->
    subtree v pos = Some x ->
    GetValue_loop v (map step_key pos) = Some x.
Proof.
  induction pos as [|s pos IH]; intros v x Hfit Hsub; [exact Hsub|].
  inversion Hfit as [|? ? Hs Hrest]; subst.
  cbn [subtree] in Hsub. destruct (child v s) as [c|] eqn:Hc; [|discriminate].
  cbn [map GetValue_loop].
  destruct s as [k|i], v; simpl in Hc; try discriminate.
  - cbn [step_key]. rewrite Hc. now apply IH.
  - cbn [step_key].
    destruct (Sprintf_index_form i) as [H3 [Hb [He Hmid]]].
    cbv zeta in H3, Hb, He, Hmid. rewrite H3, Hb, He, Hmid.
    cbn [orb negb]. rewrite Ascii.eqb_refl. cbn [orb negb].
    rewrite (Sscanf_itoa i Hs).
    assert (i < List.length s) as Hlen by (apply nth_error_Some; congruence).
    replace (Z.of_nat i <? 0)%Z with false by (symmetry; apply Z.ltb_ge; lia).
    replace (Z.of_nat i >=? Z.of_nat (List.length s))%Z with false.
    2:{ symmetry. rewrite Z.geb_leb. apply Z.leb_gt. lia. }
    cbn [orb]. rewrite Nat2Z.id, Hc. now apply IH.
Qed.

(** X3: path round trip, where it holds: below the root, with no container
    under the empty key and indices that fit in an [int], the path
    that the walker reports resolves to the node. *)
Lemma GetValue_walk_path (data : any) (pos : list step) (x : any) :
  pos <> [] ->
  (forall s, In s (inner_steps pos) -> step_key s <> "") ->
  Forall (fun s => match s with
                   | Index i => (Z.of_nat i <= fmt.max_int)%Z
                   | Key _ => True
                   end) pos ->
  subtree data pos = Some x ->
  GetValue data (fst (address [] "" pos) ++ [snd (address [] "" pos)])
  = (x, true).
Proof.
  intros Hpos Hin Hfit Hsub.
  pose proof (address_spec pos [] None Hin ltac:(discriminate)) as Ha.
  change (key_seen None) with EmptyString in Ha. rewrite Ha. cbn [fst snd].
  pose proof (spec_address_full pos [] None) as Hfull. cbn [app] in Hfull.
  destruct pos as [|s pos]; [congruence|].
  destruct (snd (spec_address [] None (s :: pos))) as [k|] eqn:Ek.
  - cbn [key_seen]. rewrite Hfull. unfold GetValue.
    rewrite (GetValue_loop_steps _ _ _ Hfit Hsub). reflexivity.
  - exfalso. rewrite app_nil_r in Hfull.
    clear - Ek. cbn [spec_address] in Ek.
    revert Ek. generalize (spec_currentPath [] None). generalize (step_key s).
    induction pos as [|s' pos IH]; intros k p; cbn [spec_address snd];
      [discriminate | apply IH].
Qed.

(** C5: the walker is meant to pass the path of the parent container,
    and the published paths are meant to name "the keys leading to
    this field".  For the leaf of [under_empty_key] the specification's
    addressing gives the path [[""]] and the key ["x"]; the walker
    passes the empty path, and [FindFields] reports the leaf at
    [["x"]]: the empty key of the containing map is taken for the
    root's missing key and dropped. *)
Theorem C5_empty_key_taken_for_root :
  spec_address [] None [Key ""; Key "x"] = ([""], Some "x") /\
  address [] "" [Key ""; Key "x"] = ([], "x") /\
  FindFields 3 under_empty_key (fun _ _ v => is_leaf v)
  = Some [mkFieldInfo ["x"] "x" (VString "v")].
Proof. repeat split. Qed.

(** C9: the path under which the walk reports the leaf of
    [under_empty_key] does not resolve: [GetValue] answers
    [(nil, false)], where the path that names all keys resolves. *)
Theorem C9_reported_path_not_found :
  FindFields 3 under_empty_key (fun _ _ v => is_leaf v)
  = Some [mkFieldInfo ["x"] "x" (VString "v")] /\
  GetValue under_empty_key ["x"] = (VNil, false) /\
  GetValue under_empty_key [""; "x"] = (VString "v", true).
Proof. repeat split. Qed.

End PathFacts.

(* ================================================================= *)
(** ** Walks below a substituted value, and walks that keep the shape *)

Section WalkerShapes.

Import walk.

Context {St : Type}.
Variable visit : VisitFunc (St := St).

(** The descent of [walkValue] into a value that the visitor has just
    returned, when the visitor returns the nodes of that value as they
    are. *)
Lemma walkValue_keeps_below (R : St -> St -> Prop) (P : any -> bool)
  (fuel : nat) (path : list string) (key : string) (v : any) (st : St) :
  (forall st, R st st) ->
  (forall a b c, R a b -> R b c -> R a c) ->
  (forall x, P x = true ->
     forall path key st, exists st',
       visit path key x st = ((x, true), st') /\ R st st') ->
  height v <= fuel -> wf v = true -> all_nodes P v = true ->
  exists st',
    match v with
    | VMap m =>
        match walkMap (walkValue fuel visit) path key m st with
        | Some (r, st2) => Some (VMap r, st2)
        | None => None
        end
    | VSlice s =>
        match walkSlice (walkValue fuel visit) path key s st with
        | Some (r, st2) => Some (VSlice r, st2)
        | None => None
        end
    | _ => Some (v, st)
    end = Some (v, st') /\ R st st'.
Proof.
  intros R_refl R_trans Hkeep Hh Hwf Hall.
  destruct v; try (exists st; now split).
  - destruct (wf_map _ Hwf) as [Hnd Hc].
    rewrite walkMap_eachMap by exact Hnd.
    destruct (eachMap_Forall2 (walkValue fuel visit) (currentPath path key)
                eq R m R_refl R_trans) with (st := st) as [r [st2 [E2 [HF Hr2]]]].
    { intros k c Hin st0.
      destruct (walkValue_keeps visit R R_refl R_trans P Hkeep fuel
                  (currentPath path key) k c st0) as [st' [E' Hr']].
      - specialize (height_map_child _ _ _ Hin). lia.
      - eapply Hc; eauto.
      - eapply all_nodes_map; eauto.
      - exists c, st'. now repeat split. }
    rewrite E2. apply Forall2_eq_map in HF. subst r. exists st2. now split.
  - unfold walkSlice.
    destruct (rangeSlice_Forall2 (walkValue fuel visit) (currentPath path key)
                eq R s R_refl R_trans 0) with (st := st) as [r [st2 [E2 [HF Hr2]]]].
    { intros j c Hj st0. apply nth_error_In in Hj.
      destruct (walkValue_keeps visit R R_refl R_trans P Hkeep fuel
                  (currentPath path key) (fmt.Sprintf_index (0 + j)) c st0)
        as [st' [E' Hr']].
      - specialize (height_slice_child _ _ Hj). lia.
      - eapply wf_slice; eauto.
      - eapply all_nodes_slice; eauto.
      - exists c, st'. now repeat split. }
    rewrite E2. apply Forall2_eq_list in HF. subst r. exists st2. now split.
Qed.


End WalkerShapes.

(* ================================================================= *)
(** ** [Load] *)

Section LoadFacts.

Import armor walk enc viola.

Variable age : Age.
Variable codecs : Codecs.

Lemma setDefaults_Keys (o : Options) : Keys (setDefaults o) = Keys o.
Proof.
  unfold setDefaults.
  destruct (String.eqb (PrivatePrefix o) ""); cbn [QRCommentPrefix Indent Keys];
    destruct (String.eqb (QRCommentPrefix o) ""); cbn [Indent Keys];
    destruct (String.eqb (Indent o) ""); reflexivity.
Qed.

Lemma subtree_app (pos1 rest : list step) :
  forall v,
    subtree v (pos1 ++ rest) =
    match subtree v pos1 with
    | Some a => subtree a rest
    | None => None
    end.
Proof.
  induction pos1 as [|s pos1 IH]; intros v; cbn [app subtree]; [reflexivity|].
  destruct (child v s); [apply IH | reflexivity].
Qed.

(** What stands above a node is a container. *)
Lemma above_container (v : any) (pos1 pos : list step) (a x : any) :
  above pos1 pos -> subtree v pos1 = Some a -> subtree v pos = Some x ->
  is_container a = true.
Proof.
  intros [s [rest ->]] Ha Hx. rewrite subtree_app, Ha in Hx.
  cbn [subtree] in Hx. destruct s, a; simpl in Hx; try discriminate; reflexivity.
Qed.

Lemma load_visit_extends (identities : list Identity)
  (path : list string) (key : string) (v : any) (fields : list FieldMeta) :
  extends fields (snd (load_visit age codecs identities path key v fields)).
Proof.
  unfold load_visit. destruct v; try apply extends_refl.
  destruct (isArmoredData s); [|apply extends_refl].
  destruct (Decrypt age s identities); now eexists.
Qed.

Lemma load_visit_container (identities : list Identity)
  (path : list string) (key : string) (v : any) (fields : list FieldMeta) :
  is_container v = true ->
  load_visit age codecs identities path key v fields = ((v, true), fields).
Proof. destruct v; try discriminate; reflexivity. Qed.

Lemma load_visit_plain (identities : list Identity)
  (path : list string) (key : string) (v : any) (fields : list FieldMeta) :
  plain v = true ->
  load_visit age codecs identities path key v fields = ((v, true), fields).
Proof.
  destruct v; try reflexivity. simpl. intros H.
  apply negb_true_iff in H. now rewrite H.
Qed.

Lemma load_visit_undecryptable (identities : list Identity)
  (path : list string) (key : string) (s e : string) (fields : list FieldMeta) :
  isArmoredData s = true -> Decrypt age s identities = Err e ->
  load_visit age codecs identities path key (VString s) fields
  = ((VString s, true), fields ++ [load_record path key s]).
Proof. intros Ha Hd. unfold load_visit. now rewrite Ha, Hd. Qed.

Lemma Decrypt_no_identities (s : string) :
  Decrypt age s [] = Err "no identities provided".
Proof. reflexivity. Qed.

(** The walk of [Load] over a map gives a map. *)
Lemma load_walk_map (identities : list Identity) (fuel : nat)
  (path : list string) (key : string) (m : gomap)
  (fields : list FieldMeta) (v' : any) (fields' : list FieldMeta) :
  walkValue fuel (load_visit age codecs identities) path key (VMap m) fields
  = Some (v', fields') ->
  exists r, v' = VMap r.
Proof.
  destruct fuel as [|fuel]; [discriminate|]. cbn [walkValue load_visit negb].
  destruct (walkMap _ path key m fields) as [[r st2]|]; [|discriminate].
  intros [= <- _]. now exists r.
Qed.

(** Once the document is parsed and the identities are loaded, [Load]
    has no way to fail: it returns a result, unless the walk does not
    return. *)
Lemma Load_ok_or_unfinished (fuel : nat) (data : string) (opts : Options)
  (tree : gomap) (identities : list Identity) :
  toml_Unmarshal codecs data = Ok tree ->
  LoadIdentities age (Keys opts) = Ok identities ->
  Load age codecs fuel data opts = None \/
  exists r, Load age codecs fuel data opts = Some (Ok r).
Proof.
  intros Hparse Hids. unfold Load. rewrite Hparse, setDefaults_Keys, Hids.
  unfold Walk.
  destruct (walkValue fuel (load_visit age codecs identities) [] "" (VMap tree) [])
    as [[v' fields]|] eqn:E; [|now left].
  destruct (load_walk_map _ _ _ _ _ _ _ _ E) as [r ->]. right. eauto.
Qed.

(** At an armored leaf that cannot be opened, below containers: the
    leaf stays, a record is added. *)
Lemma load_walk_undecryptable (identities : list Identity) (fuel : nat)
  (tree : any) (pos : list step) (s e : string)
  (v' : any) (fields' : list FieldMeta) :
  wf tree = true ->
  Walk fuel tree (load_visit age codecs identities) [] = Some (v', fields') ->
  subtree tree pos = Some (VString s) ->
  isArmoredData s = true -> Decrypt age s identities = Err e ->
  subtree v' pos = Some (VString s) /\
  exists f, In f fields' /\ WasEncrypted f = true /\ Armored f = s.
Proof.
  intros Hwf Hwalk Hsub Harm Hdec. unfold Walk in Hwalk.
  destruct (walkValue_at (load_visit age codecs identities) extends
              extends_refl extends_trans (load_visit_extends identities) pos
              _ _ _ _ _ _ _ _ Hwalk Hwf Hsub)
    as [fuel1 [st1 [x' [st2 [Hx [Hs' [_ L2]]]]]]].
  { intros pos1 a Habove Ha st0.
    rewrite load_visit_container; [reflexivity|].
    eapply above_container; eauto. }
  destruct fuel1 as [|fuel1]; [discriminate|]. cbn [walkValue] in Hx.
  rewrite (load_visit_undecryptable _ _ _ _ _ _ Harm Hdec) in Hx.
  cbn [negb] in Hx. injection Hx as <- <-. split; [exact Hs'|].
  exists (load_record (fst (address [] "" pos)) (snd (address [] "" pos)) s).
  split; [|split; reflexivity].
  eapply extends_In; [exact L2|]. apply in_or_app. right. now left.
Qed.

End LoadFacts.

Section LoadClaims.

Import armor walk enc viola.

Variable age : Age.
Variable codecs : Codecs.

(** X29: with key sources that yield no identity, [Load] of a
    parseable document returns without error; the tree is the parsed
    tree, unchanged, every record says [WasEncrypted], and every
    string recognised as armored ciphertext that stands in the maps
    and sequences of the tree ([map[string]any], [[]any]) has its
    record. *)
Theorem Load_without_identities (fuel : nat) (data : string)
  (opts : Options) (tree : gomap) :
  toml_Unmarshal codecs data = Ok tree ->
  wf (VMap tree) = true ->
  LoadIdentities age (Keys opts) = Ok [] ->
  height (VMap tree) < fuel ->
  exists fields,
    Load age codecs fuel data opts = Some (Ok (mkResult tree fields)) /\
    Forall (fun f => WasEncrypted f = true) fields /\
    forall pos s,
      subtree (VMap tree) pos = Some (VString s) ->
      isArmoredData s = true ->
      exists f, In f fields /\ WasEncrypted f = true /\ Armored f = s.
Proof.
  intros Hparse Hwf Hids Hfuel.
  set (R := fun st st' : list FieldMeta =>
              Forall (fun f => WasEncrypted f = true) st ->
              Forall (fun f => WasEncrypted f = true) st').
  assert (forall x, (fun _ : any => true) x = true ->
            forall path key st, exists st',
              load_visit age codecs [] path key x st = ((x, true), st') /\
              R st st') as Hkeep.
  { intros x _ path key st. unfold load_visit.
    destruct x; try (eexists; split; [reflexivity | now unfold R]).
    destruct (isArmoredData s).
    - rewrite Decrypt_no_identities. eexists. split; [reflexivity|].
      intros H. apply Forall_app. split; [exact H | now repeat constructor].
    - eexists. split; [reflexivity | now unfold R]. }
  destruct (walkValue_keeps (load_visit age codecs []) R
              (fun _ H => H) (fun _ _ _ H1 H2 H => H2 (H1 H)) _ Hkeep
              fuel [] "" (VMap tree) [] Hfuel Hwf (all_nodes_true _))
    as [fields [Hwalk HR]].
  exists fields. split; [|split].
  - unfold Load. rewrite Hparse, setDefaults_Keys, Hids.
    unfold Walk. now rewrite Hwalk.
  - apply HR. constructor.
  - intros pos s Hsub Harm.
    eapply (load_walk_undecryptable age codecs [] fuel (VMap tree)); eauto.
    apply Decrypt_no_identities.
Qed.

(** X28: a string recognised as ciphertext that cannot be decrypted,
    standing in the maps and sequences of the tree ([map[string]any],
    [[]any]), does not make [Load] fail: it keeps its armored text in
    the output tree and a record with [WasEncrypted] is emitted for
    it.  [mu] is a measure that bounds the nesting of ciphertexts:
    opening a ciphertext and decoding it does not give a larger
    value. *)
Theorem Load_keeps_undecryptable_leaf (mu : any -> nat) (fuel : nat)
  (data : string) (opts : Options) (tree : gomap)
  (identities : list Identity) (pos : list step) (s e : string) :
  (forall m k c, In (k, c) m -> mu c < mu (VMap m)) ->
  (forall l c, In c l -> mu c < mu (VSlice l)) ->
  (forall c d, Decrypt age c identities = Ok d ->
               mu (decode codecs d) <= mu (VString c)) ->
  toml_Unmarshal codecs data = Ok tree ->
  wf (VMap tree) = true ->
  LoadIdentities age (Keys opts) = Ok identities ->
  subtree (VMap tree) pos = Some (VString s) ->
  isArmoredData s = true ->
  Decrypt age s identities = Err e ->
  mu (VMap tree) < fuel ->
  exists r,
    Load age codecs fuel data opts = Some (Ok r) /\
    subtree (VMap (Tree r)) pos = Some (VString s) /\
    exists f, In f (Fields r) /\ WasEncrypted f = true /\ Armored f = s.
Proof.
  intros Hmap Hslice Hopen Hparse Hwf Hids Hsub Harm Hdec Hfuel.
  destruct (walkValue_returns (load_visit age codecs identities) mu
              Hmap Hslice) with (fuel := fuel) (path := @nil string)
              (key := "") (v := VMap tree) (st := @nil FieldMeta)
    as [[v' fields] Hwalk]; [|exact Hfuel|].
  { intros path key v st. unfold load_visit.
    destruct v; cbn [fst]; try lia.
    destruct (isArmoredData s0); cbn [fst]; [|lia].
    destruct (Decrypt age s0 identities) eqn:Ed; cbn [fst]; [|lia].
    now apply Hopen. }
  destruct (load_walk_map _ _ _ _ _ _ _ _ _ _ Hwalk) as [r ->].
  destruct (load_walk_undecryptable age codecs identities fuel (VMap tree)
              pos s e (VMap r) fields Hwf Hwalk Hsub Harm Hdec) as [Hleaf Hrec].
  exists (mkResult r fields). split; [|split]; [|exact Hleaf|exact Hrec].
  unfold Load. rewrite Hparse, setDefaults_Keys, Hids.
  unfold Walk. now rewrite Hwalk.
Qed.

End LoadClaims.

Section LoadWitnesses.

Import armor walk enc viola.

Lemma Load_without_identities_witness :
  exists fields,
    Load fake.age (fake.codecs [("k", VString fake.damaged)]) 2 "doc"
         (fake.options fake.no_keys)
    = Some (Ok (mkResult [("k", VString fake.damaged)] fields)) /\
    Forall (fun f => WasEncrypted f = true) fields /\
    forall pos s,
      subtree (VMap [("k", VString fake.damaged)]) pos = Some (VString s) ->
      isArmoredData s = true ->
      exists f, In f fields /\ WasEncrypted f = true /\ Armored f = s.
Proof.
  apply (Load_without_identities fake.age
           (fake.codecs [("k", VString fake.damaged)]) 2 "doc"
           (fake.options fake.no_keys) [("k", VString fake.damaged)]).
  - reflexivity.
  - reflexivity.
  - reflexivity.
  - simpl. lia.
Defined.


(** The test double's armor is longer than what it holds. *)
Lemma fake_open_weight (doc : gomap) (identities : list enc.Identity)
  (c d : string) :
  enc.Decrypt fake.age c identities = Ok d ->
  weight (viola.decode (fake.codecs doc) d) <= weight (VString c).
Proof.
  unfold enc.Decrypt. destruct (List.length identities =? 0); [discriminate|].
  cbn [enc.age_open fake.age]. unfold fake.open.
  set (mid := String.substring _ _ c).
  destruct (String.eqb_spec c (armor.begin_marker ++ mid ++ armor.end_marker))
    as [Hc|]; [|discriminate].
  intros [= <-].
  assert (String.length mid <= String.length c) as Hlen.
  { clearbody mid. rewrite Hc, !length_append. lia. }
  unfold viola.decode. cbn [viola.json_Unmarshal fake.codecs].
  unfold fake.json_literal.
  repeat (match goal with |- context [if ?b then _ else _] => destruct b end);
    cbn [weight]; lia.
Qed.

Lemma weight_map_child (m : gomap) (k : string) (c : any) :
  In (k, c) m -> weight c < weight (VMap m).
Proof.
  cbn [weight]. induction m as [|[k' v'] m IH]; intros Hin; [contradiction|].
  cbn [fold_right snd]. destruct Hin as [[= -> ->]|Hin]; [lia|].
  specialize (IH Hin). lia.
Qed.

Lemma weight_slice_child (s : list any) (c : any) :
  In c s -> weight c < weight (VSlice s).
Proof.
  cbn [weight]. induction s as [|v s IH]; intros Hin; [contradiction|].
  cbn [fold_right]. destruct Hin as [->|Hin]; [lia|].
  specialize (IH Hin). lia.
Qed.

Lemma Load_keeps_undecryptable_leaf_witness :
  exists r,
    viola.Load fake.age (fake.codecs [("k", VString fake.damaged)]) 80 "doc"
               (fake.options fake.keys) = Some (Ok r) /\
    subtree (VMap (viola.Tree r)) [Key "k"] = Some (VString fake.damaged) /\
    exists f, In f (viola.Fields r) /\ viola.WasEncrypted f = true /\
              viola.Armored f = fake.damaged.
Proof.
  apply (Load_keeps_undecryptable_leaf fake.age
           (fake.codecs [("k", VString fake.damaged)]) weight 80 "doc"
           (fake.options fake.keys) [("k", VString fake.damaged)]
           [enc.X25519Identity "AGE-SECRET-KEY-1"] [Key "k"] fake.damaged
           "malformed armor").
  - exact weight_map_child.
  - exact weight_slice_child.
  - exact (fake_open_weight _ _).
  - reflexivity.
  - reflexivity.
  - reflexivity.
  - reflexivity.
  - reflexivity.
  - reflexivity.
  - vm_compute. lia.
Defined.

(** C4: the type switch of the walker has the cases [map[string]any]
    and [[]any]; an array of tables is a [[]map[string]any], goes to
    [default], and is not entered.  In the document with
    [[[servers]]] the key of the server is recognised as ciphertext
    and cannot be opened, and [Load] returns no record for it; in a
    sequence of tables ([[]any]) the same string is recorded. *)
Theorem C4_leaf_in_array_of_tables_not_recorded :
  toml_Unmarshal (fake.codecs fake.servers_damaged) "doc"
  = Ok fake.servers_damaged /\
  isArmoredData fake.damaged = true /\
  Decrypt fake.age fake.damaged [X25519Identity "AGE-SECRET-KEY-1"]
  = Err "malformed armor" /\
  Load fake.age (fake.codecs fake.servers_damaged) 3 "doc"
       (fake.options fake.keys)
  = Some (Ok (mkResult fake.servers_damaged [])) /\
  exists r f,
    Load fake.age
         (fake.codecs
            [("servers",
              VSlice [VMap [("name", VString "prod");
                            ("private_api_key", VString fake.damaged)]])])
         4 "doc" (fake.options fake.keys) = Some (Ok r) /\
    Fields r = [f] /\ WasEncrypted f = true /\ Armored f = fake.damaged.
Proof.
  repeat split; try reflexivity.
  eexists. eexists. repeat split.
Qed.

(** C10: with no identity, in the document with [[[servers]]], the
    key of the server is recognised as ciphertext and [Load] returns
    no record for it: the walker does not enter an array of
    tables. *)
Theorem C10_leaf_in_array_of_tables_not_recorded :
  toml_Unmarshal (fake.codecs fake.servers_read) "doc" = Ok fake.servers_read /\
  LoadIdentities fake.age (Keys (fake.options fake.no_keys)) = Ok [] /\
  isArmoredData (fake.sealed "key123") = true /\
  Load fake.age (fake.codecs fake.servers_read) 3 "doc"
       (fake.options fake.no_keys)
  = Some (Ok (mkResult fake.servers_read [])).
Proof. repeat split. Qed.

(** The round trip of the document with [[[servers]]]: [Save] seals
    the key in the sequence of tables, the decoder reads the saved
    document with an array of tables, and [Load] returns that array
    with the key still sealed. *)
Lemma array_of_tables_round_trip :
  exists fields,
    Save fake.age
         (fake.codecs_reading (VMap fake.servers_saved) fake.servers_read)
         4 0 (VMap fake.servers) (fake.options fake.keys)
    = Some (Ok ("doc", fields)) /\
    Load fake.age
         (fake.codecs_reading (VMap fake.servers_saved) fake.servers_read)
         4 "doc" (fake.options fake.keys)
    = Some (Ok (mkResult fake.servers_read [])) /\
    fake.servers_read <> fake.servers.
Proof.
  eexists. repeat split. discriminate.
Qed.

End LoadWitnesses.

(* ================================================================= *)
(** ** [Save] *)

Section SaveFacts.

Import armor walk enc viola.

Variable age : Age.
Variable codecs : Codecs.

Lemma save_le_refl (st : list FieldMeta * nat) : save_le st st.
Proof. apply extends_refl. Qed.

Lemma save_le_trans (a b c : list FieldMeta * nat) :
  save_le a b -> save_le b c -> save_le a c.
Proof. apply extends_trans. Qed.

Lemma save_visit_le (opts : Options) (recipients : list Recipient)
  (path : list string) (key : string) (v : any) (st : list FieldMeta * nat) :
  save_le st (snd (save_visit age codecs opts recipients path key v st)).
Proof.
  unfold save_visit, save_le. destruct st as [fields n].
  destruct (shouldEncryptField opts path key v); [|apply extends_refl].
  destruct (match v with
            | VString strValue =>
                if isArmoredData strValue then Some strValue else None
            | _ => None
            end); [now eexists|].
  destruct (encode codecs v); [|apply extends_refl].
  destruct (Encrypt age n a recipients); [now eexists | apply extends_refl].
Qed.

Lemma save_visit_unmatched (opts : Options) (recipients : list Recipient)
  (path : list string) (key : string) (v : any) (st : list FieldMeta * nat) :
  shouldEncryptField opts path key v = false ->
  save_visit age codecs opts recipients path key v st = ((v, true), st).
Proof. intros H. unfold save_visit. destruct st. now rewrite H. Qed.

(** The visitor returns the value it was given, or a string. *)
Lemma save_visit_height (opts : Options) (recipients : list Recipient)
  (path : list string) (key : string) (v : any) (st : list FieldMeta * nat) :
  height (fst (fst (save_visit age codecs opts recipients path key v st)))
  <= height v.
Proof.
  unfold save_visit. destruct st as [fields n].
  destruct (shouldEncryptField opts path key v); [|reflexivity].
  destruct (match v with
            | VString strValue =>
                if isArmoredData strValue then Some strValue else None
            | _ => None
            end); [reflexivity|].
  destruct (encode codecs v); [|reflexivity].
  destruct (Encrypt age n a recipients); cbn [fst height]; lia.
Qed.

(** The walk of [Save] returns, whatever the tree. *)
Lemma save_walk_returns (fuel seed : nat) (tree : any) (opts : Options)
  (recipients : list Recipient) :
  height tree < fuel ->
  exists encryptedTree fields n,
    save_walk age codecs fuel seed tree opts recipients
    = Some (encryptedTree, (fields, n)).
Proof.
  intros Hfuel. unfold save_walk, Walk.
  destruct (walkValue_returns (save_visit age codecs opts recipients) height
              height_map_child height_slice_child
              (save_visit_height opts recipients) fuel [] "" tree ([], seed)
              Hfuel) as [[v' [fields n]] E].
  rewrite E. eauto.
Qed.

(** [Save], once the recipients are loaded, is the walk followed by
    the serialisation. *)
Lemma Save_unfold (fuel seed : nat) (tree : any) (opts : Options)
  (recipients : list Recipient) :
  LoadRecipients age (Keys opts) = Ok recipients ->
  recipients <> [] ->
  Save age codecs fuel seed tree opts =
  match save_walk age codecs fuel seed tree (setDefaults opts) recipients with
  | None => None
  | Some (encryptedTree, (fields, _)) =>
      match toml_Marshal codecs encryptedTree with
      | Err e => Some (Err ("failed to marshal TOML: " ++ e)%string)
      | Ok tomlData => Some (Ok (tomlData, fields))
      end
  end.
Proof.
  intros HR Hne. unfold Save. rewrite setDefaults_Keys, HR.
  destruct recipients; [congruence | reflexivity].
Qed.

(** C7: with no recipient, [Save] returns an error, whatever the tree
    and the policy; nothing is walked and nothing is serialised.  The
    backend wrapper [Encrypt] refuses an empty list as well. *)
Theorem C7_Save_no_recipients (fuel seed : nat) (tree : any) (opts : Options) :
  LoadRecipients age (Keys opts) = Ok [] ->
  Save age codecs fuel seed tree opts
  = Some (Err "no recipients available for encryption") /\
  forall n data, Encrypt age n data [] = Err "no recipients provided".
Proof.
  intros HR. split; [|reflexivity].
  unfold Save. now rewrite setDefaults_Keys, HR.
Qed.

(** The walk of [Save] reaches a position when the visitor returns
    every container above it as it is: none of them is sealed. *)
Lemma save_walk_at (opts : Options) (recipients : list Recipient)
  (fuel seed : nat) (tree : any) (pos : list step) (x : any)
  (encryptedTree : any) (st' : list FieldMeta * nat) :
  wf tree = true ->
  save_walk age codecs fuel seed tree opts recipients
  = Some (encryptedTree, st') ->
  subtree tree pos = Some x ->
  reached age codecs opts recipients tree pos ->
  exists fuel1 st1 x' st2,
    walkValue (S fuel1) (save_visit age codecs opts recipients)
              (fst (address [] "" pos)) (snd (address [] "" pos)) x st1
    = Some (x', st2) /\
    subtree encryptedTree pos = Some x' /\ save_le st2 st'.
Proof.
  intros Hwf Hwalk Hsub Habove. unfold save_walk, Walk in Hwalk.
  destruct (walkValue_at (save_visit age codecs opts recipients) save_le
              save_le_refl save_le_trans (save_visit_le opts recipients) pos
              _ _ _ _ _ _ _ _ Hwalk Hwf Hsub)
    as [fuel1 [st1 [x' [st2 [Hx [Hs' [_ L2]]]]]]].
  { intros pos1 a Hab Ha st0. exact (Habove pos1 a Hab Ha st0). }
  destruct fuel1 as [|fuel1]; [discriminate|].
  exists fuel1, st1, x', st2. now repeat split.
Qed.


(** C6 (amended): a leaf that the policy matches, that is already
    recognised as ciphertext and that the walk reaches (no container
    above it is sealed as one value) is not sealed again: the output
    tree holds the same armored text at its position, and a record
    is emitted for it with [WasEncrypted], the existing armored text
    and the recipients of this call. *)
Theorem C6_armored_leaf_not_resealed (fuel seed : nat) (tree : any)
  (opts : Options) (recipients : list Recipient) (pos : list step)
  (s : string) :
  LoadRecipients age (Keys opts) = Ok recipients ->
  recipients <> [] ->
  wf tree = true ->
  height tree < fuel ->
  subtree tree pos = Some (VString s) ->
  isArmoredData s = true ->
  shouldEncryptField (setDefaults opts) (fst (address [] "" pos))
                     (snd (address [] "" pos)) (VString s) = true ->
  reached age codecs (setDefaults opts) recipients tree pos ->
  exists encryptedTree fields n,
    save_walk age codecs fuel seed tree (setDefaults opts) recipients
    = Some (encryptedTree, (fields, n)) /\
    Save age codecs fuel seed tree opts =
    match toml_Marshal codecs encryptedTree with
    | Err e => Some (Err ("failed to marshal TOML: " ++ e)%string)
    | Ok tomlData => Some (Ok (tomlData, fields))
    end /\
    subtree encryptedTree pos = Some (VString s) /\
    exists f,
      In f fields /\ WasEncrypted f = true /\ Armored f = s /\
      UsedRecipients f = GetRecipientStrings recipients /\
      UsedPassphrase f = HasPassphraseRecipient recipients.
Proof.
  intros HR Hne Hwf Hfuel Hsub Harm Hpol Habove.
  destruct (save_walk_returns fuel seed tree (setDefaults opts) recipients Hfuel)
    as [enc [fields [n Hwalk]]].
  exists enc, fields, n. split; [exact Hwalk|]. split.
  { rewrite (Save_unfold _ _ _ _ _ HR Hne), Hwalk. reflexivity. }
  destruct (save_walk_at _ _ _ _ _ _ _ _ _ Hwf Hwalk Hsub Habove)
    as [fuel1 [[fields1 n1] [x' [st2 [Hx [Hs' L2]]]]]].
  cbn [walkValue] in Hx. unfold save_visit in Hx at 1.
  rewrite Hpol, Harm in Hx. cbn [negb] in Hx. injection Hx as <- <-.
  split; [exact Hs'|].
  exists (save_record recipients (fst (address [] "" pos))
                      (snd (address [] "" pos)) s).
  split; [|repeat split].
  eapply extends_In; [exact L2|]. cbn [fst]. apply in_or_app. right. now left.
Qed.

(** What the visitor of [Save] does at a node: it returns the node
    and adds no record, or it returns a string and adds one record,
    which comes from the node. *)
Lemma save_visit_record (opts : Options) (recipients : list Recipient)
  (path : list string) (key : string) (v : any)
  (fields : list FieldMeta) (n : nat) :
  (exists n',
     save_visit age codecs opts recipients path key v (fields, n)
     = ((v, true), (fields, n'))) \/
  (exists c f n',
     save_visit age codecs opts recipients path key v (fields, n)
     = ((VString c, true), (fields ++ [f], n')) /\
     recorded_from age codecs opts recipients path key v f).
Proof.
  unfold save_visit, recorded_from.
  destruct (shouldEncryptField opts path key v) eqn:Hpol; [|left; eauto].
  destruct (match v with
            | VString strValue =>
                if isArmoredData strValue then Some strValue else None
            | _ => None
            end) as [strValue|] eqn:Hs.
  - right. destruct v; try discriminate.
    destruct (isArmoredData s) eqn:Ha; [|discriminate].
    injection Hs as <-. eexists. eexists. eexists.
    split; [reflexivity|]. split; [reflexivity|]. left. now split.
  - destruct (encode codecs v) as [data|] eqn:Henc; [|left; eauto].
    destruct (Encrypt age n data recipients) as [c|] eqn:Hc; [|left; eauto].
    right. eexists. eexists. eexists.
    split; [reflexivity|]. split; [reflexivity|]. right. cbn [Armored]. eauto.
Qed.

(** Every record that the walk of [Save] adds comes from a node of
    the tree. *)
Lemma save_walk_records (opts : Options) (recipients : list Recipient)
  (fuel : nat) :
  forall path key v st v' st',
    walkValue fuel (save_visit age codecs opts recipients) path key v st
    = Some (v', st') ->
    wf v = true ->
    exists new,
      fst st' = fst st ++ new /\
      forall f, In f new ->
        exists pos y,
          subtree v pos = Some y /\
          recorded_from age codecs opts recipients
            (fst (address path key pos)) (snd (address path key pos)) y f.
Proof.
  induction fuel as [|fuel IH]; intros path key v [fields n] v' st' Hw Hwf;
    [discriminate|].
  cbn [walkValue] in Hw.
  destruct (save_visit_record opts recipients path key v fields n)
    as [[n' Hv] | [c [f [n' [Hv Hf]]]]]; rewrite Hv in Hw; cbn [negb] in Hw.
  2:{ injection Hw as _ <-. exists [f]. split; [reflexivity|].
      intros f0 [<-|[]]. exists [], v. now split. }
  set (Good := fun f : FieldMeta =>
                 exists pos y,
                   subtree v pos = Some y /\
                   recorded_from age codecs opts recipients
                     (fst (address path key pos)) (snd (address path key pos))
                     y f).
  set (R := fun a b : list FieldMeta * nat =>
              exists new, fst b = fst a ++ new /\
                          forall f, In f new -> Good f).
  assert (forall a, R a a) as Rrefl.
  { intros a. exists []. split; [now rewrite app_nil_r | contradiction]. }
  assert (forall a b c, R a b -> R b c -> R a c) as Rtrans.
  { intros a b c [n1 [E1 H1]] [n2 [E2 H2]]. exists (n1 ++ n2).
    split; [now rewrite E2, E1, app_assoc|].
    intros f Hin. apply in_app_or in Hin as [Hin|Hin]; auto. }
  change (R (fields, n) st').
  apply (Rtrans _ (fields, n')); [exists []; split;
                                   [now rewrite app_nil_r | contradiction]|].
  clear Hv. generalize dependent (fields, n'). intros st1 Hw.
  destruct v; try (injection Hw as _ <-; apply Rrefl).
  - destruct (wf_map _ Hwf) as [Hnd Hc].
    rewrite walkMap_eachMap in Hw by exact Hnd.
    destruct (eachMap _ _ m st1) as [[r st2]|] eqn:E; [|discriminate].
    injection Hw as _ <-.
    clear Rrefl. revert st1 r st2 E.
    assert (forall k c, In (k, c) m -> map_get m k = Some c) as Hget
      by (intros; now apply In_map_get).
    revert Hget Hc. generalize m at 1 3 4 as m0.
    induction m0 as [|[k c] m0 IHm]; intros Hget Hc st1 r st2 E.
    + cbn [eachMap] in E. injection E as _ <-.
      exists []. split; [now rewrite app_nil_r | contradiction].
    + cbn [eachMap] in E.
      destruct (walkValue fuel _ (currentPath path key) k c st1)
        as [[c' sta]|] eqn:Ec; [|discriminate].
      destruct (eachMap _ _ m0 sta) as [[r0 stb]|] eqn:E0; [|discriminate].
      injection E as _ <-.
      apply (Rtrans _ sta).
      * destruct (IH _ _ _ _ _ _ Ec (Hc k c (or_introl eq_refl)))
          as [new [Enew Hnew]].
        exists new. split; [exact Enew|]. intros f Hin.
        destruct (Hnew f Hin) as [pos [y [Hs Hr]]].
        exists (Key k :: pos), y. cbn [subtree child address step_key].
        rewrite (Hget k c (or_introl eq_refl)). now split.
      * eapply IHm; eauto.
        -- intros k0 c0 Hin. apply Hget. now right.
        -- intros k0 c0 Hin. apply (Hc k0 c0). now right.
  - unfold walkSlice in Hw.
    destruct (rangeSlice _ _ 0 s st1) as [[r st2]|] eqn:E; [|discriminate].
    injection Hw as _ <-.
    clear Rrefl. revert st1 r st2 E.
    assert (forall j c, nth_error s j = Some c -> nth_error s (0 + j) = Some c)
      as Hnth by (intros; assumption).
    pose proof (wf_slice _ Hwf) as Hc.
    revert Hnth Hc. generalize 0 as i. generalize s at 1 3 4 as s0.
    induction s0 as [|c s0 IHs]; intros i Hnth Hc st1 r st2 E.
    + cbn [rangeSlice] in E. injection E as _ <-.
      exists []. split; [now rewrite app_nil_r | contradiction].
    + cbn [rangeSlice] in E.
      destruct (walkValue fuel _ (currentPath path key)
                          (fmt.Sprintf_index i) c st1)
        as [[c' sta]|] eqn:Ec; [|discriminate].
      destruct (rangeSlice _ _ (S i) s0 sta) as [[r0 stb]|] eqn:E0; [|discriminate].
      injection E as _ <-.
      apply (Rtrans _ sta).
      * destruct (IH _ _ _ _ _ _ Ec (Hc c (or_introl eq_refl)))
          as [new [Enew Hnew]].
        exists new. split; [exact Enew|]. intros f Hin.
        destruct (Hnew f Hin) as [pos [y [Hs Hr]]].
        exists (Index i :: pos), y. cbn [subtree child address step_key].
        specialize (Hnth 0 c eq_refl). rewrite Nat.add_0_r in Hnth.
        rewrite Hnth. now split.
      * eapply (IHs (S i)); eauto.
        -- intros j c0 Hj. specialize (Hnth (S j) c0 Hj).
           now rewrite Nat.add_succ_r in Hnth.
        -- intros c0 Hin. apply Hc. now right.
Qed.
(** C8: at a leaf that the policy matches, not yet ciphertext, whose
    encoding fails or whose sealing fails, the visitor returns the
    leaf as it is and adds no record, and the walk goes on.  Where
    the serialisation of the walked tree succeeds, [Save] succeeds;
    in the tree that it wrote the leaf stands unchanged, and no
    record that it returns is for the leaf: every record comes from
    a node at another position.  (The leaf is one that the walk
    visits: no container above it is sealed.) *)
Theorem C8_failed_seal_leaves_leaf (fuel seed : nat) (tree : any)
  (opts : Options) (recipients : list Recipient) (pos : list step)
  (x : any) :
  LoadRecipients age (Keys opts) = Ok recipients ->
  recipients <> [] ->
  wf tree = true ->
  height tree < fuel ->
  subtree tree pos = Some x ->
  is_container x = false ->
  plain x = true ->
  shouldEncryptField (setDefaults opts) (fst (address [] "" pos))
                     (snd (address [] "" pos)) x = true ->
  match encode codecs x with
  | Err _ => True
  | Ok data => forall n, exists e, Encrypt age n data recipients = Err e
  end ->
  reached age codecs (setDefaults opts) recipients tree pos ->
  (forall encryptedTree st,
     save_walk age codecs fuel seed tree (setDefaults opts) recipients
     = Some (encryptedTree, st) ->
     exists tomlData, toml_Marshal codecs encryptedTree = Ok tomlData) ->
  (forall fields n, exists n',
     save_visit age codecs (setDefaults opts) recipients
                (fst (address [] "" pos)) (snd (address [] "" pos)) x
                (fields, n)
     = ((x, true), (fields, n'))) /\
  exists tomlData encryptedTree fields n,
    save_walk age codecs fuel seed tree (setDefaults opts) recipients
    = Some (encryptedTree, (fields, n)) /\
    toml_Marshal codecs encryptedTree = Ok tomlData /\
    Save age codecs fuel seed tree opts = Some (Ok (tomlData, fields)) /\
    subtree encryptedTree pos = Some x /\
    forall f, In f fields ->
      exists pos' y,
        pos' <> pos /\ subtree tree pos' = Some y /\
        recorded_from age codecs (setDefaults opts) recipients
          (fst (address [] "" pos')) (snd (address [] "" pos')) y f.
Proof.
  intros HR Hne Hwf Hfuel Hsub Hleaf Hplain Hpol Hfail Habove Hmarshal.
  assert (forall fields n, exists n',
            save_visit age codecs (setDefaults opts) recipients
                       (fst (address [] "" pos)) (snd (address [] "" pos)) x
                       (fields, n)
            = ((x, true), (fields, n'))) as Hvisit.
  { intros fields n. unfold save_visit. rewrite Hpol.
    replace (match x with
             | VString strValue =>
                 if isArmoredData strValue then Some strValue else None
             | _ => None
             end) with (@None string).
    2:{ destruct x; try reflexivity. simpl in Hplain.
        apply negb_true_iff in Hplain. now rewrite Hplain. }
    destruct (encode codecs x) as [data|]; [|now exists n].
    destruct (Hfail n) as [e ->]. now exists (S n). }
  split; [exact Hvisit|].
  destruct (save_walk_returns fuel seed tree (setDefaults opts) recipients Hfuel)
    as [enc [fields [n Hwalk]]].
  destruct (Hmarshal _ _ Hwalk) as [tomlData Hm].
  exists tomlData, enc, fields, n.
  split; [exact Hwalk|]. split; [exact Hm|]. split.
  { rewrite (Save_unfold _ _ _ _ _ HR Hne), Hwalk, Hm. reflexivity. }
  split.
  - destruct (save_walk_at _ _ _ _ _ _ _ _ _ Hwf Hwalk Hsub Habove)
      as [fuel1 [[fields1 n1] [x' [st2 [Hx [Hs' L2]]]]]].
    cbn [walkValue] in Hx. destruct (Hvisit fields1 n1) as [n' Hv].
    rewrite Hv in Hx. cbn [negb] in Hx.
    destruct x; try discriminate; injection Hx as <- _; exact Hs'.
  - intros f Hin.
    destruct (save_walk_records (setDefaults opts) recipients fuel [] "" tree
                ([], seed) enc (fields, n) Hwalk Hwf) as [new [Enew Hnew]].
    cbn [fst app] in Enew. subst new.
    destruct (Hnew f Hin) as [pos' [y [Hy Hrec]]].
    exists pos', y. split; [|now split].
    intros ->. rewrite Hsub in Hy. injection Hy as <-.
    destruct Hrec as [_ [[Hx Harm] | [n0 [data [Henc Hseal]]]]].
    + rewrite Hx in Hplain. cbn [plain] in Hplain. now rewrite Harm in Hplain.
    + rewrite Henc in Hfail. destruct (Hfail n0) as [e He]. congruence.
Qed.

End SaveFacts.

(* ================================================================= *)
(** ** Checking trees and the test double *)

Section Checks.

Import armor walk enc viola.

(** [nodes_at] decides a property of all the nodes of a tree. *)
Lemma nodes_at_subtree (P : list string -> string -> any -> bool)
  (pos : list step) :
  forall path key v x,
    nodes_at P path key v = true ->
    subtree v pos = Some x ->
    P (fst (address path key pos)) (snd (address path key pos)) x = true.
Proof.
  induction pos as [|s pos IH]; intros path key v x Hall Hsub.
  - cbn [subtree] in Hsub. injection Hsub as <-. cbn [address fst snd].
    destruct v; cbn [nodes_at] in Hall; rewrite ?andb_true_iff in Hall; tauto.
  - cbn [subtree] in Hsub. destruct (child v s) as [c|] eqn:Hc; [|discriminate].
    cbn [address]. apply (IH _ _ c); [|exact Hsub].
    destruct s as [k|i], v; simpl in Hc; try discriminate.
    + cbn [nodes_at] in Hall. apply andb_true_iff in Hall as [_ Hall].
      rewrite forallb_forall in Hall.
      exact (Hall (k, c) (map_get_In _ _ _ Hc)).
    + cbn [nodes_at] in Hall. apply andb_true_iff in Hall as [_ Hall].
      cbn [step_key]. revert Hall Hc.
      change i with (0 + i) at 2. generalize 0. revert i.
      induction s as [|c0 s IHs]; intros i j Hall Hc.
      * destruct i; discriminate.
      * apply andb_true_iff in Hall as [H0 Hrest]. destruct i as [|i].
        -- cbn [nth_error] in Hc. injection Hc as <-. now rewrite Nat.add_0_r.
        -- rewrite Nat.add_succ_r. apply (IHs i (S j) Hrest Hc).
Qed.

Lemma any_eqb_eq (a : any) : forall b, fake.any_eqb a b = true -> a = b.
Proof.
  induction a as [ |x|x|x|x|x|m Hm|s Hs|ts Hts] using any_induction;
    intros b; destruct b; cbn [fake.any_eqb]; try discriminate.
  - reflexivity.
  - intros H. apply Bool.eqb_prop in H. now subst.
  - intros H. apply Z.eqb_eq in H. now subst.
  - intros H. apply Z.eqb_eq in H. now subst.
  - intros H. apply String.eqb_eq in H. now subst.
  - intros H. apply String.eqb_eq in H. now subst.
  - intros H. f_equal. revert m0 H.
    induction Hm as [|[k c] m Hc _ IH]; intros [|[k' c'] m']; try discriminate.
    + reflexivity.
    + intros H. apply andb_true_iff in H as [H Hr].
      apply andb_true_iff in H as [Hk Hv].
      apply String.eqb_eq in Hk. apply Hc in Hv. cbn [snd] in Hv.
      rewrite (IH _ Hr). now subst.
  - intros H. f_equal. revert s0 H.
    induction Hs as [|c s Hc _ IH]; intros [|c' s']; try discriminate.
    + reflexivity.
    + intros H. apply andb_true_iff in H as [Hv Hr].
      apply Hc in Hv. rewrite (IH _ Hr). now subst.
  - intros H. f_equal. revert ts0 H.
    induction Hts as [|m ts Hm _ IH]; intros [|m' ts']; try discriminate.
    + reflexivity.
    + intros H. apply andb_true_iff in H as [Hv Hr].
      rewrite (IH _ Hr). f_equal. clear IH Hr. revert m' Hv.
      induction Hm as [|[k c] m Hc _ IHm]; intros [|[k' c'] m'];
        try discriminate.
      * reflexivity.
      * intros H. apply andb_true_iff in H as [H Hr].
        apply andb_true_iff in H as [Hk Hv].
        apply String.eqb_eq in Hk. apply Hc in Hv. cbn [snd] in Hv.
        rewrite (IHm _ Hr). now subst.
Qed.

(** The document codec of the test double round-trips its document. *)
Lemma fake_toml_roundtrip (doc : gomap) (v : any) (bytes : string) :
  toml_Marshal (fake.codecs doc) v = Ok bytes ->
  exists m, v = VMap m /\ toml_Unmarshal (fake.codecs doc) bytes = Ok m.
Proof.
  cbn [toml_Marshal toml_Unmarshal fake.codecs].
  destruct (fake.any_eqb v (VMap doc)) eqn:E; [|discriminate].
  intros [= <-]. apply any_eqb_eq in E. now exists doc.
Qed.

Lemma substring_middle (a d b : string) :
  String.substring (String.length a) (String.length d) (a ++ d ++ b)%string = d.
Proof.
  induction a as [|x a IH]; cbn [String.length append].
  - induction d as [|y d IHd]; cbn [String.length append].
    + now destruct b.
    + cbn [String.substring]. now rewrite IHd.
  - exact IH.
Qed.

(** The armor of the test double is recognised, and opens to what was
    sealed, with any identity. *)
Lemma fake_seal_armored (n : nat) (data : string) (recipients : list Recipient)
  (c : string) :
  Encrypt fake.age n data recipients = Ok c -> isArmoredData c = true.
Proof.
  unfold Encrypt. destruct (List.length recipients =? 0); [discriminate|].
  cbn [age_seal fake.age]. unfold fake.seal.
  intros H. assert (c = (begin_marker ++ data ++ end_marker)%string) as ->
    by congruence. clear H.
  unfold isArmoredData. apply andb_true_iff. split; apply Contains_iff.
  - now exists EmptyString, (data ++ end_marker)%string.
  - exists (begin_marker ++ data)%string, EmptyString.
    now rewrite append_nil_r, append_assoc.
Qed.

Lemma fake_opens (n : nat) (data : string) (recipients : list Recipient)
  (identities : list Identity) (c : string) :
  identities <> [] ->
  Encrypt fake.age n data recipients = Ok c ->
  Decrypt fake.age c identities = Ok data.
Proof.
  intros Hids. unfold Encrypt, Decrypt.
  destruct (List.length recipients =? 0); [discriminate|].
  destruct identities as [|i ids]; [congruence|]. cbn [List.length Nat.eqb].
  cbn [age_seal age_open fake.age]. unfold fake.seal, fake.open.
  intros H. assert (c = (begin_marker ++ data ++ end_marker)%string) as ->
    by congruence. clear H.
  rewrite !length_append.
  replace (String.length begin_marker + (String.length data + String.length end_marker)
           - String.length begin_marker - String.length end_marker)
    with (String.length data) by lia.
  rewrite substring_middle. now rewrite String.eqb_refl.
Qed.

Lemma above_single (pos1 : list step) (s : step) :
  above pos1 [s] -> pos1 = [].
Proof.
  intros [s' [rest H]]. destruct pos1 as [|s0 pos1]; [reflexivity|].
  exfalso. injection H as _ H. destruct pos1; discriminate.
Qed.

End Checks.

Section SaveWitnesses.

Import armor walk enc viola.

Lemma C7_Save_no_recipients_witness :
  Save fake.age (fake.codecs []) 5 0
       (VMap [("private_password", VString "secret")])
       (fake.options fake.no_keys)
  = Some (Err "no recipients available for encryption") /\
  forall n data, Encrypt fake.age n data [] = Err "no recipients provided".
Proof.
  apply (C7_Save_no_recipients fake.age (fake.codecs []) 5 0
           (VMap [("private_password", VString "secret")])
           (fake.options fake.no_keys)).
  reflexivity.
Defined.

Lemma C6_armored_leaf_not_resealed_witness :
  exists encryptedTree fields n,
    save_walk fake.age (fake.codecs []) 2 0
      (VMap [("private_token", VString (fake.sealed "abc"))])
      (setDefaults (fake.options fake.keys)) [X25519Recipient "age1"]
    = Some (encryptedTree, (fields, n)) /\
    Save fake.age (fake.codecs []) 2 0
      (VMap [("private_token", VString (fake.sealed "abc"))])
      (fake.options fake.keys) =
    match toml_Marshal (fake.codecs []) encryptedTree with
    | Err e => Some (Err ("failed to marshal TOML: " ++ e)%string)
    | Ok tomlData => Some (Ok (tomlData, fields))
    end /\
    subtree encryptedTree [Key "private_token"]
    = Some (VString (fake.sealed "abc")) /\
    exists f,
      In f fields /\ WasEncrypted f = true /\
      Armored f = fake.sealed "abc" /\
      UsedRecipients f = GetRecipientStrings [X25519Recipient "age1"] /\
      UsedPassphrase f = HasPassphraseRecipient [X25519Recipient "age1"].
Proof.
  apply (C6_armored_leaf_not_resealed fake.age (fake.codecs []) 2 0
           (VMap [("private_token", VString (fake.sealed "abc"))])
           (fake.options fake.keys) [X25519Recipient "age1"]
           [Key "private_token"] (fake.sealed "abc")).
  - reflexivity.
  - discriminate.
  - reflexivity.
  - simpl. lia.
  - reflexivity.
  - reflexivity.
  - reflexivity.
  - intros pos1 a Habove. rewrite (above_single _ _ Habove).
    intros [= <-] [fields n]. reflexivity.
Defined.

(** C6, as the specification words it, fails: an armored leaf under a
    matched key, in a table that is itself under a matched key.  The
    table is sealed as one value: the leaf has no position in the
    tree that [Save] writes and no record holds its text. *)
Lemma C6_leaf_in_sealed_table_not_recorded :
  subtree fake.sealed_in_table [Key "private_db"; Key "private_token"]
  = Some (VString (fake.sealed "abc")) /\
  isArmoredData (fake.sealed "abc") = true /\
  shouldEncryptField (setDefaults (fake.options fake.keys))
    (fst (address [] "" [Key "private_db"; Key "private_token"]))
    (snd (address [] "" [Key "private_db"; Key "private_token"]))
    (VString (fake.sealed "abc")) = true /\
  exists fields,
    Save fake.age (fake.codecs fake.sealed_in_table_saved) 3 0
         fake.sealed_in_table (fake.options fake.keys)
    = Some (Ok ("doc", fields)) /\
    toml_Unmarshal (fake.codecs fake.sealed_in_table_saved) "doc"
    = Ok fake.sealed_in_table_saved /\
    subtree (VMap fake.sealed_in_table_saved)
            [Key "private_db"; Key "private_token"] = None /\
    forall f, In f fields -> Armored f <> fake.sealed "abc".
Proof.
  repeat split; try reflexivity.
  eexists. repeat split; try reflexivity.
  intros f [<-|[]]. discriminate.
Qed.

Lemma C8_failed_seal_leaves_leaf_witness :
  (forall fields n, exists n',
     save_visit fake.failing_age (fake.codecs fake.half_sealed)
                (setDefaults (fake.options fake.keys))
                [X25519Recipient "age1"] [] "private_token" (VString "abc")
                (fields, n)
     = ((VString "abc", true), (fields, n'))) /\
  exists tomlData encryptedTree fields n,
    save_walk fake.failing_age (fake.codecs fake.half_sealed) 3 0
      (VMap fake.half_sealed)
      (setDefaults (fake.options fake.keys)) [X25519Recipient "age1"]
    = Some (encryptedTree, (fields, n)) /\
    toml_Marshal (fake.codecs fake.half_sealed) encryptedTree = Ok tomlData /\
    Save fake.failing_age (fake.codecs fake.half_sealed) 3 0
      (VMap fake.half_sealed) (fake.options fake.keys)
    = Some (Ok (tomlData, fields)) /\
    subtree encryptedTree [Key "private_token"] = Some (VString "abc") /\
    forall f, In f fields ->
      exists pos' y,
        pos' <> [Key "private_token"] /\
        subtree (VMap fake.half_sealed) pos' = Some y /\
        recorded_from fake.failing_age (fake.codecs fake.half_sealed)
          (setDefaults (fake.options fake.keys)) [X25519Recipient "age1"]
          (fst (address [] "" pos')) (snd (address [] "" pos')) y f.
Proof.
  apply (C8_failed_seal_leaves_leaf fake.failing_age
           (fake.codecs fake.half_sealed) 3 0 (VMap fake.half_sealed)
           (fake.options fake.keys) [X25519Recipient "age1"]
           [Key "private_token"] (VString "abc")).
  - reflexivity.
  - discriminate.
  - reflexivity.
  - simpl. lia.
  - reflexivity.
  - reflexivity.
  - reflexivity.
  - reflexivity.
  - simpl. intros n. now exists "failed to create age encryptor".
  - intros pos1 a Habove. rewrite (above_single _ _ Habove).
    intros [= <-] [fields n]. reflexivity.
  - intros encryptedTree st Hwalk.
    assert (encryptedTree = VMap fake.half_sealed) as ->.
    { vm_compute in Hwalk. now injection Hwalk as <- _. }
    now exists "doc".
Defined.

End SaveWitnesses.

(* ================================================================= *)
(** ** Shape *)

Section ShapeClaims.

Import armor walk enc viola.

Variable age : Age.
Variable codecs : Codecs.



End ShapeClaims.

Section ShapeWitnesses.

Import armor walk enc viola.



End ShapeWitnesses.

(* ================================================================= *)
(** ** Round trip *)

Section RoundTrip.

Import armor walk enc viola.

Variable age : Age.
Variable codecs : Codecs.
Variable opts : Options.
Variable recipients : list Recipient.
Variable identities : list Identity.

(** Sealed text is recognised as ciphertext, and the identities open
    what was sealed to the recipients. *)
Hypothesis seal_armored :
  forall n data c, Encrypt age n data recipients = Ok c ->
                   isArmoredData c = true.
Hypothesis opens :
  forall n data c, Encrypt age n data recipients = Ok c ->
                   Decrypt age c identities = Ok data.

Lemma save_visit_cases (path : list string) (key : string) (v : any)
  (st : list FieldMeta * nat) :
  plain v = true ->
  (exists st1,
     save_visit age codecs opts recipients path key v st = ((v, true), st1)) \/
  (exists data c n st1,
     shouldEncryptField opts path key v = true /\
     encode codecs v = Ok data /\
     Encrypt age n data recipients = Ok c /\
     save_visit age codecs opts recipients path key v st
     = ((VString c, true), st1)).
Proof.
  intros Hplain. unfold save_visit. destruct st as [fields n].
  destruct (shouldEncryptField opts path key v) eqn:Hpol; [|left; eauto].
  replace (match v with
           | VString strValue =>
               if isArmoredData strValue then Some strValue else None
           | _ => None
           end) with (@None string).
  2:{ destruct v; try reflexivity. simpl in Hplain.
      apply negb_true_iff in Hplain. now rewrite Hplain. }
  destruct (encode codecs v) as [data|] eqn:Henc; [|left; eauto].
  destruct (Encrypt age n data recipients) as [c|] eqn:Hseal; [|left; eauto].
  right. exists data, c, n. eexists. repeat split; eauto.
Qed.

(** What the walk of [Save] made of a tree, the walk of [Load] makes
    the tree again: where no string of the tree is ciphertext already
    and, at the nodes that the policy matches, decoding undoes
    encoding. *)
Lemma save_load_walk (fuel : nat) :
  forall path key v st v' st',
    walkValue fuel (save_visit age codecs opts recipients) path key v st
    = Some (v', st') ->
    wf v = true ->
    all_nodes plain v = true ->
    (forall pos x, subtree v pos = Some x ->
       shouldEncryptField opts (fst (address path key pos))
                          (snd (address path key pos)) x = true ->
       forall data, encode codecs x = Ok data -> decode codecs data = x) ->
    forall fuelL, height v < fuelL ->
    forall fs, exists fs',
      walkValue fuelL (load_visit age codecs identities) path key v' fs
      = Some (v, fs').
Proof.
  induction fuel as [|fuel IH];
    intros path key v st v' st' Hsave Hwf Hplain Hcodec fuelL HfuelL fs;
    [discriminate|].
  cbn [walkValue] in Hsave.
  destruct fuelL as [|fuelL]; [lia|].
  destruct (save_visit_cases path key v st (all_nodes_here _ _ Hplain))
    as [[st1 Hv] | [data [c [n [st1 [Hpol [Henc [Hseal Hv]]]]]]]];
    rewrite Hv in Hsave; cbn [negb] in Hsave.
  - (* the visitor of Save returned the node as it is *)
    cbn [walkValue].
    destruct v.
    1-6,9: injection Hsave as <- _;
      rewrite load_visit_plain by (exact (all_nodes_here _ _ Hplain));
      cbn [negb]; eauto.
    + destruct (wf_map _ Hwf) as [Hnd Hc].
      rewrite walkMap_eachMap in Hsave by exact Hnd.
      destruct (eachMap _ _ m st1) as [[r st2]|] eqn:E; [|discriminate].
      injection Hsave as <- _.
      rewrite load_visit_container by reflexivity. cbn [negb].
      rewrite walkMap_eachMap
        by (unfold keys in *; erewrite eachMap_keys; eauto).
      destruct (eachMap_inverse
                  (walkValue fuel (save_visit age codecs opts recipients))
                  (walkValue fuelL (load_visit age codecs identities))
                  (currentPath path key) m) with (st := st1) (r := r)
                  (st' := st2) (s2 := fs) as [fs' E'].
      * intros k c0 Hin st0 c' st0' Hcall s2.
        apply (IH _ _ _ _ _ _ Hcall).
        -- eapply Hc; eauto.
        -- eapply all_nodes_map; eauto.
        -- intros pos x Hsub. apply (Hcodec (Key k :: pos) x).
           cbn [subtree child]. now rewrite (In_map_get _ _ _ Hnd Hin).
        -- specialize (height_map_child _ _ _ Hin). lia.
      * exact E.
      * rewrite E'. eauto.
    + unfold walkSlice in Hsave.
      destruct (rangeSlice _ _ 0 s st1) as [[r st2]|] eqn:E; [|discriminate].
      injection Hsave as <- _.
      rewrite load_visit_container by reflexivity. cbn [negb].
      unfold walkSlice.
      destruct (rangeSlice_inverse
                  (walkValue fuel (save_visit age codecs opts recipients))
                  (walkValue fuelL (load_visit age codecs identities))
                  (currentPath path key) s 0) with (st := st1) (r := r)
                  (st' := st2) (s2 := fs) as [fs' E'].
      * intros j c0 Hj st0 c' st0' Hcall s2.
        apply (IH _ _ _ _ _ _ Hcall).
        -- eapply wf_slice; eauto. eapply nth_error_In; eauto.
        -- eapply all_nodes_slice; eauto. eapply nth_error_In; eauto.
        -- intros pos x Hsub. apply (Hcodec (Index j :: pos) x).
           cbn [subtree child]. now rewrite Hj.
        -- specialize (height_slice_child _ _ (nth_error_In _ _ Hj)). lia.
      * exact E.
      * rewrite E'. eauto.
  - (* the node was sealed: a string stands for it *)
    injection Hsave as <- _.
    cbn [walkValue]. unfold load_visit at 1.
    rewrite (seal_armored _ _ _ Hseal), (opens _ _ _ Hseal).
    rewrite (Hcodec [] v eq_refl Hpol data Henc). cbn [negb].
    destruct (walkValue_keeps_below (load_visit age codecs identities)
                eq plain fuelL path key v
                (fs ++ [mkFieldMeta (path ++ [key]) true c "" [] false]))
      as [fs' [E _]]; auto.
    + congruence.
    + intros x Hx p k st0. exists st0. now rewrite load_visit_plain.
    + lia.
    + eauto.
Qed.

End RoundTrip.

Section RoundTripClaim.

Import armor walk enc viola.

Variable age : Age.
Variable codecs : Codecs.

(** C1 (amended): for a tree of strings, maps and sequences in which
    no string is recognised as ciphertext already and, at the nodes
    that the policy matches, decoding undoes encoding (for a string:
    its text does not parse as JSON), with recipients whose sealed
    text is recognised as ciphertext and is opened by the identities,
    and where the document codec reads the tree that [Save] wrote
    back as it was written: [Save] returns, and [Load] of the bytes
    that [Save] returned gives the tree itself. *)
Theorem C1_load_after_save (fuel seed : nat) (T : gomap) (opts : Options)
  (recipients : list Recipient) (identities : list Identity) :
  LoadRecipients age (Keys opts) = Ok recipients ->
  recipients <> [] ->
  LoadIdentities age (Keys opts) = Ok identities ->
  (forall n data c, Encrypt age n data recipients = Ok c ->
                    isArmoredData c = true) ->
  (forall n data c, Encrypt age n data recipients = Ok c ->
                    Decrypt age c identities = Ok data) ->
  (forall encryptedTree st bytes,
     save_walk age codecs fuel seed (VMap T) (setDefaults opts) recipients
     = Some (encryptedTree, st) ->
     toml_Marshal codecs encryptedTree = Ok bytes ->
     exists m, encryptedTree = VMap m /\ toml_Unmarshal codecs bytes = Ok m) ->
  wf (VMap T) = true ->
  strings_only (VMap T) = true ->
  all_nodes plain (VMap T) = true ->
  (forall pos x, subtree (VMap T) pos = Some x ->
     shouldEncryptField (setDefaults opts) (fst (address [] "" pos))
                        (snd (address [] "" pos)) x = true ->
     forall data, encode codecs x = Ok data -> decode codecs data = x) ->
  height (VMap T) < fuel ->
  (exists r, Save age codecs fuel seed (VMap T) opts = Some r) /\
  forall bytes fields,
    Save age codecs fuel seed (VMap T) opts = Some (Ok (bytes, fields)) ->
    exists fields',
      Load age codecs fuel bytes opts = Some (Ok (mkResult T fields')).
Proof.
  intros HR Hne HI Harm Hopen Htoml Hwf _ Hplain Hcodec Hfuel.
  rewrite (Save_unfold age codecs _ _ _ _ _ HR Hne).
  destruct (save_walk_returns age codecs fuel seed (VMap T) (setDefaults opts)
              recipients Hfuel) as [enc [fs [n Hwalk]]].
  rewrite Hwalk. split.
  { destruct (toml_Marshal codecs enc); eauto. }
  intros bytes fields Hsave.
  destruct (toml_Marshal codecs enc) as [b|] eqn:Hm; [|discriminate].
  injection Hsave as -> ->.
  destruct (Htoml _ _ _ Hwalk Hm) as [m [-> Hparse]].
  destruct (save_load_walk age codecs (setDefaults opts) recipients identities
              Harm Hopen fuel [] "" (VMap T) _ _ _ Hwalk Hwf Hplain Hcodec
              fuel Hfuel []) as [fields' Hload].
  exists fields'. unfold Load. rewrite Hparse, setDefaults_Keys, HI.
  unfold Walk. now rewrite Hload.
Qed.

End RoundTripClaim.

Section RoundTripWitnesses.

Import armor walk enc viola.

(** C1, as the specification words it, fails: a string of the tree
    that is itself an armored block which the identities open comes
    back opened. *)
Lemma C1_armored_string_comes_back_opened :
  strings_only (VMap fake.with_armored_note) = true /\
  Save fake.age (fake.codecs fake.with_armored_note) 2 0
       (VMap fake.with_armored_note) (fake.options fake.keys)
  = Some (Ok ("doc", [])) /\
  Load fake.age (fake.codecs fake.with_armored_note) 2 "doc"
       (fake.options fake.keys)
  = Some (Ok (mkResult [("note", VString "hello")]
                [load_record [] "note" (fake.sealed "hello")])) /\
  [("note", VString "hello")] <> fake.with_armored_note.
Proof. repeat split. discriminate. Qed.

(** A secret string whose text is a JSON literal comes back as the
    value of the literal: [Load] decodes what [Save] sealed as it
    was. *)
Lemma json_like_secret_changes_type :
  exists sealed fields,
    save_walk fake.age (fake.codecs []) 2 0 (VMap fake.with_json_like_secret)
              (setDefaults (fake.options fake.keys)) [X25519Recipient "age1"]
    = Some (VMap sealed, fields) /\
    Load fake.age (fake.codecs sealed) 2 "doc" (fake.options fake.keys)
    = Some (Ok (mkResult [("private_flag", VBool true)]
                  [load_record [] "private_flag" (fake.sealed "true")])).
Proof. do 2 eexists. split; reflexivity. Qed.

Lemma C1_load_after_save_witness :
  (exists r,
     Save fake.age (fake.codecs fake.scenario_saved) 3 0
          (VMap fake.scenario_map) (fake.options fake.keys) = Some r) /\
  forall bytes fields,
    Save fake.age (fake.codecs fake.scenario_saved) 3 0
         (VMap fake.scenario_map) (fake.options fake.keys)
    = Some (Ok (bytes, fields)) ->
    exists fields',
      Load fake.age (fake.codecs fake.scenario_saved) 3 bytes
           (fake.options fake.keys)
      = Some (Ok (mkResult fake.scenario_map fields')).
Proof.
  apply (C1_load_after_save fake.age (fake.codecs fake.scenario_saved) 3 0
           fake.scenario_map (fake.options fake.keys)
           [X25519Recipient "age1"] [X25519Identity "AGE-SECRET-KEY-1"]).
  - reflexivity.
  - discriminate.
  - reflexivity.
  - intros n data c. apply fake_seal_armored.
  - intros n data c. apply fake_opens. discriminate.
  - intros encryptedTree st bytes _. apply fake_toml_roundtrip.
  - reflexivity.
  - reflexivity.
  - reflexivity.
  - intros pos x Hsub Hpol data Henc.
    pose proof (nodes_at_subtree
                  (fun p k v =>
                     negb (shouldEncryptField
                             (setDefaults (fake.options fake.keys)) p k v) ||
                     match encode (fake.codecs fake.scenario_saved) v with
                     | Ok d =>
                         fake.any_eqb
                           (decode (fake.codecs fake.scenario_saved) d) v
                     | Err _ => true
                     end)
                  pos [] "" (VMap fake.scenario_map) x eq_refl Hsub) as H.
    cbv beta in H. rewrite Hpol, Henc in H. cbn [negb orb] in H.
    now apply any_eqb_eq.
  - simpl. lia.
Defined.

End RoundTripWitnesses.

(* ================================================================= *)
(** ** More of package [walk]: visitors that return what they are given,
    [FindFields], [GetValue] and [SetValue] *)

Section WalkMore.

Import walk.

(** X1: a visitor that returns every value as it is, whatever it does to
    its own variables and wherever it stops, leaves the tree as it
    is. *)
Theorem Walk_returns_the_tree {St : Type}
  (cont : list string -> string -> any -> St -> bool)
  (update : list string -> string -> any -> St -> St)
  (fuel : nat) (data : any) (st : St) :
  wf data = true -> height data < fuel ->
  exists st',
    Walk fuel data
         (fun path key value st =>
            ((value, cont path key value st), update path key value st)) st
    = Some (data, st').
Proof.
  unfold Walk. generalize (@nil string) "". revert data st.
  induction fuel as [|fuel IH]; intros data st path key Hwf Hh; [lia|].
  cbn [walkValue]. destruct (negb (cont path key data st)); [eauto|].
  destruct data; eauto.
  - destruct (wf_map _ Hwf) as [Hnd Hc].
    rewrite walkMap_eachMap by exact Hnd.
    edestruct (eachMap_Forall2
                 (walkValue fuel (fun path key value st =>
                    ((value, cont path key value st),
                     update path key value st)))
                 (currentPath path key) eq (fun _ _ => True) m
                 (fun _ => I) (fun _ _ _ _ _ => I)) as [r [st2 [E2 [HF _]]]].
    + intros k c Hin st0.
      destruct (IH c st0 (currentPath path key) k) as [st' E'].
      * eapply Hc; eauto.
      * specialize (height_map_child _ _ _ Hin). lia.
      * exists c, st'. repeat split. exact E'.
    + rewrite E2. apply Forall2_eq_map in HF. subst r. eauto.
  - unfold walkSlice.
    edestruct (rangeSlice_Forall2
                 (walkValue fuel (fun path key value st =>
                    ((value, cont path key value st),
                     update path key value st)))
                 (currentPath path key) eq (fun _ _ => True) s
                 (fun _ => I) (fun _ _ _ _ _ => I) 0) as [r [st2 [E2 [HF _]]]].
    + intros j c Hj st0.
      destruct (IH c st0 (currentPath path key) (fmt.Sprintf_index (0 + j)))
        as [st' E'].
      * eapply wf_slice; eauto. eapply nth_error_In; eauto.
      * specialize (height_slice_child _ _ (nth_error_In _ _ Hj)). lia.
      * exists c, st'. repeat split. exact E'.
    + rewrite E2. apply Forall2_eq_list in HF. subst r. eauto.
Qed.

Lemma Walk_returns_the_tree_witness :
  exists st',
    Walk 3 fake.scenario
         (fun path key value (st : nat) =>
            ((value, negb (String.eqb key "database")), S st)) 0
    = Some (fake.scenario, st').
Proof.
  apply (Walk_returns_the_tree
           (fun _ key _ _ => negb (String.eqb key "database"))
           (fun _ _ _ st => S st) 3 fake.scenario 0).
  - reflexivity.
  - simpl. lia.
Defined.

(** What the visitor of [FindFields] adds during one walk: entries for
    nodes of the tree that the predicate holds of. *)
Lemma FindFields_walk_sound
  (predicate : list string -> string -> any -> bool) (fuel : nat) :
  forall path key v st v' st',
    walkValue fuel
      (fun path key value results =>
         ((value, true),
          if predicate path key value
          then results ++ [mkFieldInfo (path ++ [key]) key value]
          else results)) path key v st = Some (v', st') ->
    wf v = true ->
    exists new,
      st' = st ++ new /\
      forall fi, In fi new ->
        exists pos x,
          subtree v pos = Some x /\
          predicate (fst (address path key pos)) (snd (address path key pos)) x
          = true /\
          FKey fi = snd (address path key pos) /\ Value fi = x.
Proof.
  set (visit := fun path key value results =>
                  ((value, true),
                   if predicate path key value
                   then results ++ [mkFieldInfo (path ++ [key]) key value]
                   else results)).
  induction fuel as [|fuel IH]; intros path key v st v' st' Hw Hwf;
    [discriminate|].
  cbn [walkValue] in Hw. unfold visit in Hw at 1. cbn [negb] in Hw.
  set (Good := fun fi : FieldInfo =>
                 exists pos x,
                   subtree v pos = Some x /\
                   predicate (fst (address path key pos))
                             (snd (address path key pos)) x = true /\
                   FKey fi = snd (address path key pos) /\ Value fi = x).
  set (R := fun a b : list FieldInfo =>
              exists new, b = a ++ new /\ forall fi, In fi new -> Good fi).
  assert (forall a, R a a) as Rrefl.
  { intros a. exists []. split; [now rewrite app_nil_r | contradiction]. }
  assert (forall a b c, R a b -> R b c -> R a c) as Rtrans.
  { intros a b c [n1 [-> H1]] [n2 [-> H2]]. exists (n1 ++ n2).
    split; [now rewrite app_assoc|].
    intros fi Hin. apply in_app_or in Hin as [Hin|Hin]; auto. }
  assert (R st (if predicate path key v
                then st ++ [mkFieldInfo (path ++ [key]) key v] else st)) as Hhere.
  { destruct (predicate path key v) eqn:Hp; [|apply Rrefl].
    exists [mkFieldInfo (path ++ [key]) key v]. split; [reflexivity|].
    intros fi [<-|[]]. exists [], v. repeat split. exact Hp. }
  enough (R (if predicate path key v
             then st ++ [mkFieldInfo (path ++ [key]) key v] else st) st')
    as Hrest by exact (Rtrans _ _ _ Hhere Hrest).
  clear Hhere.
  generalize dependent (if predicate path key v
                        then st ++ [mkFieldInfo (path ++ [key]) key v] else st).
  intros st1 Hw.
  destruct v; try (injection Hw as _ <-; apply Rrefl).
  - destruct (wf_map _ Hwf) as [Hnd Hc].
    rewrite walkMap_eachMap in Hw by exact Hnd.
    destruct (eachMap _ _ m st1) as [[r st2]|] eqn:E; [|discriminate].
    injection Hw as _ <-.
    clear Rrefl. revert st1 r st2 E.
    assert (forall k c, In (k, c) m -> map_get m k = Some c) as Hget
      by (intros; now apply In_map_get).
    revert Hget Hc. generalize m at 1 3 4 as m0.
    induction m0 as [|[k c] m0 IHm]; intros Hget Hc st1 r st2 E.
    + cbn [eachMap] in E. injection E as _ <-.
      exists []. split; [now rewrite app_nil_r | contradiction].
    + cbn [eachMap] in E.
      destruct (walkValue fuel visit (currentPath path key) k c st1)
        as [[c' sta]|] eqn:Ec; [|discriminate].
      destruct (eachMap _ _ m0 sta) as [[r0 stb]|] eqn:E0; [|discriminate].
      injection E as _ <-.
      apply (Rtrans _ sta).
      * destruct (IH _ _ _ _ _ _ Ec (Hc k c (or_introl eq_refl)))
          as [new [-> Hnew]].
        exists new. split; [reflexivity|]. intros fi Hin.
        destruct (Hnew fi Hin) as [pos [x [Hs [Hp [Hk Hv]]]]].
        exists (Key k :: pos), x. cbn [subtree child address step_key].
        rewrite (Hget k c (or_introl eq_refl)). now repeat split.
      * eapply IHm; eauto.
        -- intros k0 c0 Hin. apply Hget. now right.
        -- intros k0 c0 Hin. apply (Hc k0 c0). now right.
  - unfold walkSlice in Hw.
    destruct (rangeSlice _ _ 0 s st1) as [[r st2]|] eqn:E; [|discriminate].
    injection Hw as _ <-.
    clear Rrefl. revert st1 r st2 E.
    assert (forall j c, nth_error s j = Some c -> nth_error s (0 + j) = Some c)
      as Hnth by (intros; assumption).
    pose proof (wf_slice _ Hwf) as Hc.
    revert Hnth Hc. generalize 0 as i. generalize s at 1 3 4 as s0.
    induction s0 as [|c s0 IHs]; intros i Hnth Hc st1 r st2 E.
    + cbn [rangeSlice] in E. injection E as _ <-.
      exists []. split; [now rewrite app_nil_r | contradiction].
    + cbn [rangeSlice] in E.
      destruct (walkValue fuel visit (currentPath path key)
                          (fmt.Sprintf_index i) c st1)
        as [[c' sta]|] eqn:Ec; [|discriminate].
      destruct (rangeSlice _ _ (S i) s0 sta) as [[r0 stb]|] eqn:E0; [|discriminate].
      injection E as _ <-.
      apply (Rtrans _ sta).
      * destruct (IH _ _ _ _ _ _ Ec (Hc c (or_introl eq_refl)))
          as [new [-> Hnew]].
        exists new. split; [reflexivity|]. intros fi Hin.
        destruct (Hnew fi Hin) as [pos [x [Hs [Hp [Hk Hv]]]]].
        exists (Index i :: pos), x. cbn [subtree child address step_key].
        specialize (Hnth 0 c eq_refl). rewrite Nat.add_0_r in Hnth.
        rewrite Hnth. now repeat split.
      * eapply (IHs (S i)); eauto.
        -- intros j c0 Hj. specialize (Hnth (S j) c0 Hj).
           now rewrite Nat.add_succ_r in Hnth.
        -- intros c0 Hin. apply Hc. now right.
Qed.

(** X2: [FindFields] reports the nodes that the predicate holds of, all of
    them and nothing else; each under its key and with its value. *)
Theorem FindFields_reports_the_matches (fuel : nat) (data : any)
  (predicate : list string -> string -> any -> bool) :
  wf data = true -> height data < fuel ->
  exists results,
    FindFields fuel data predicate = Some results /\
    (forall pos x,
       subtree data pos = Some x ->
       predicate (fst (address [] "" pos)) (snd (address [] "" pos)) x = true ->
       exists fi,
         In fi results /\ FKey fi = snd (address [] "" pos) /\ Value fi = x) /\
    (forall fi, In fi results ->
       exists pos x,
         subtree data pos = Some x /\
         predicate (fst (address [] "" pos)) (snd (address [] "" pos)) x = true /\
         FKey fi = snd (address [] "" pos) /\ Value fi = x).
Proof.
  intros Hwf Hh.
  destruct (FindFields_returns fuel data predicate Hwf Hh) as [results HF].
  exists results. split; [exact HF|]. split.
  - intros pos x Hsub Hp. eapply FindFields_complete; eauto.
  - unfold FindFields, Walk in HF.
    destruct (walkValue fuel _ [] "" data []) as [[v' st']|] eqn:E;
      [|discriminate].
    injection HF as <-.
    destruct (FindFields_walk_sound predicate fuel _ _ _ _ _ _ E Hwf)
      as [new [-> Hnew]].
    exact Hnew.
Qed.

Lemma FindFields_reports_the_matches_witness :
  exists results,
    FindFields 3 fake.scenario
               (fun _ key _ => strings.HasPrefix key "private_") = Some results /\
    (forall pos x,
       subtree fake.scenario pos = Some x ->
       (fun _ key (_ : any) => strings.HasPrefix key "private_")
         (fst (address [] "" pos)) (snd (address [] "" pos)) x = true ->
       exists fi,
         In fi results /\ FKey fi = snd (address [] "" pos) /\ Value fi = x) /\
    (forall fi, In fi results ->
       exists pos x,
         subtree fake.scenario pos = Some x /\
         (fun _ key (_ : any) => strings.HasPrefix key "private_")
           (fst (address [] "" pos)) (snd (address [] "" pos)) x = true /\
         FKey fi = snd (address [] "" pos) /\ Value fi = x).
Proof.
  apply (FindFields_reports_the_matches 3 fake.scenario
           (fun _ key _ => strings.HasPrefix key "private_")).
  - reflexivity.
  - simpl. lia.
Defined.

End WalkMore.

(* ================================================================= *)
(** ** More of the paths: [GetValue] and [SetValue] *)

Section PathAccess.

Import walk.

Lemma GetValue_loop_slice (v : list any) (key : string) (rest : list string) :
  GetValue_loop (VSlice v) (key :: rest) =
  match parse_index key (List.length v) with
  | Some index =>
      match nth_error v index with
      | Some val => GetValue_loop val rest
      | None => None
      end
  | None => None
  end.
Proof.
  cbn [GetValue_loop]. unfold parse_index. cbv zeta.
  destruct (_ || _ || _); [reflexivity|].
  destruct (fmt.Sscanf_d _) as [index|]; [|reflexivity].
  now destruct (_ || _).
Qed.

Lemma GetValue_loop_app (p q : list string) :
  forall data,
    GetValue_loop data (p ++ q) =
    match GetValue_loop data p with
    | Some v => GetValue_loop v q
    | None => None
    end.
Proof.
  induction p as [|key p IH]; intros data; [reflexivity|].
  rewrite <- app_comm_cons.
  destruct data; try reflexivity.
  - cbn [GetValue_loop]. destruct (map_get m key); [apply IH | reflexivity].
  - rewrite !GetValue_loop_slice.
    destruct (parse_index key (List.length s)); [|reflexivity].
    destruct (nth_error s n); [apply IH | reflexivity].
Qed.

Lemma parse_index_lt (key : string) (len index : nat) :
  parse_index key len = Some index -> index < len.
Proof.
  unfold parse_index. cbv zeta.
  destruct (_ || _ || _); [discriminate|].
  destruct (fmt.Sscanf_d _) as [z|]; [|discriminate].
  destruct (z <? 0)%Z eqn:H0; [discriminate|].
  destruct (z >=? Z.of_nat len)%Z eqn:H1; [discriminate|].
  cbn [orb]. intros [= <-].
  apply Z.ltb_ge in H0. rewrite Z.geb_leb in H1. apply Z.leb_gt in H1. lia.
Qed.

Lemma parse_index_Sprintf (i len : nat) :
  (Z.of_nat i <= fmt.max_int)%Z ->
  parse_index (fmt.Sprintf_index i) len = if i <? len then Some i else None.
Proof.
  intros Hfit. unfold parse_index.
  destruct (Sprintf_index_form i) as [H3 [Hb [He Hmid]]].
  cbv zeta in H3, Hb, He, Hmid |- *. rewrite H3, Hb, He, Hmid.
  cbn [orb negb]. rewrite Ascii.eqb_refl. cbn [orb negb].
  rewrite (Sscanf_itoa i Hfit).
  replace (Z.of_nat i <? 0)%Z with false by (symmetry; apply Z.ltb_ge; lia).
  cbn [orb]. rewrite Z.geb_leb.
  destruct (Nat.ltb_spec i len) as [Hlt|Hge].
  - replace (Z.of_nat len <=? Z.of_nat i)%Z with false
      by (symmetry; apply Z.leb_gt; lia).
    now rewrite Nat2Z.id.
  - replace (Z.of_nat len <=? Z.of_nat i)%Z with true
      by (symmetry; apply Z.leb_le; lia).
    reflexivity.
Qed.

Lemma map_get_set_same (m : gomap) (k : string) (x : any) :
  map_get (map_set m k x) k = Some x.
Proof.
  induction m as [|[k' v'] m IH]; cbn [map_set map_get].
  - now rewrite String.eqb_refl.
  - destruct (String.eqb k' k) eqn:E; cbn [map_get].
    + now rewrite String.eqb_refl.
    + now rewrite E.
Qed.

Lemma map_get_set_other (m : gomap) (k k' : string) (x : any) :
  k <> k' -> map_get (map_set m k x) k' = map_get m k'.
Proof.
  intros Hne. induction m as [|[k0 v0] m IH]; cbn [map_set map_get].
  - destruct (String.eqb_spec k k'); [contradiction | reflexivity].
  - destruct (String.eqb_spec k0 k) as [->|Hk0]; cbn [map_get].
    + destruct (String.eqb_spec k k'); [contradiction | reflexivity].
    + now rewrite IH.
Qed.

Lemma set_nth_length (p : list any) (index : nat) (x : any) :
  List.length (set_nth p index x) = List.length p.
Proof.
  revert index. induction p as [|y p IH]; intros [|i]; cbn [set_nth List.length];
    try reflexivity.
  now rewrite IH.
Qed.

Lemma nth_error_set_nth (p : list any) (index : nat) (x : any) :
  index < List.length p -> nth_error (set_nth p index x) index = Some x.
Proof.
  revert index. induction p as [|y p IH]; intros [|i]; cbn [set_nth List.length];
    intros Hlt; try lia; [reflexivity|].
  cbn [nth_error]. apply IH. lia.
Qed.

Lemma nth_error_set_nth_other (p : list any) (index j : nat) (x : any) :
  index <> j -> nth_error (set_nth p index x) j = nth_error p j.
Proof.
  revert index j. induction p as [|y p IH]; intros [|i] [|j] Hne;
    cbn [set_nth nth_error]; try reflexivity; try contradiction.
  apply IH. congruence.
Qed.

(** Reading through the replacement that [store] made leads to the
    object stored. *)
Lemma GetValue_loop_store (prefix : list string) :
  forall data parent object rest,
    GetValue_loop data prefix = Some parent ->
    GetValue_loop (store data prefix object) (prefix ++ rest)
    = GetValue_loop object rest.
Proof.
  induction prefix as [|key prefix IH]; intros data parent object rest Hget;
    [reflexivity|].
  rewrite <- app_comm_cons. destruct data; try discriminate.
  - cbn [GetValue_loop] in Hget. cbn [store].
    destruct (map_get m key) as [val|] eqn:Hk; [|discriminate].
    cbn [GetValue_loop]. rewrite map_get_set_same. eapply IH; eauto.
  - rewrite GetValue_loop_slice in Hget. cbn [store].
    destruct (parse_index key (List.length s)) as [index|] eqn:Hi; [|discriminate].
    destruct (nth_error s index) as [val|] eqn:Hn; [|discriminate].
    rewrite GetValue_loop_slice, set_nth_length, Hi.
    rewrite nth_error_set_nth by (eapply parse_index_lt; eauto).
    eapply IH; eauto.
Qed.

Lemma GetValue_found (data : any) (path : list string) (x : any) :
  path <> [] ->
  GetValue data path = (x, true) -> GetValue_loop data path = Some x.
Proof.
  intros Hne. unfold GetValue. destruct path; [contradiction|].
  destruct (GetValue_loop data (s :: path)); now intros [= ->].
Qed.

Lemma GetValue_of_loop (data : any) (path : list string) :
  path <> [] ->
  GetValue data path =
  match GetValue_loop data path with
  | Some current => (current, true)
  | None => (VNil, false)
  end.
Proof. intros Hne. destruct path; [contradiction | reflexivity]. Qed.

(** What [SetValue] does on a path of two segments or more. *)
Lemma SetValue_long (data : any) (prefix : list string) (finalKey : string)
  (newValue : any) :
  prefix <> [] ->
  SetValue data (prefix ++ [finalKey]) newValue =
  match GetValue_loop data prefix with
  | Some (VMap p) =>
      (store data prefix (VMap (map_set p finalKey newValue)), true)
  | Some (VSlice p) =>
      match parse_index finalKey (List.length p) with
      | None => (data, false)
      | Some index =>
          (store data prefix (VSlice (set_nth p index newValue)), true)
      end
  | _ => (data, false)
  end.
Proof.
  intros Hne. unfold SetValue.
  destruct prefix as [|a prefix]; [contradiction|].
  assert (exists b rest, (a :: prefix) ++ [finalKey] = a :: b :: rest)
    as [b [rest E]].
  { destruct prefix; cbn; eauto. }
  rewrite E. rewrite <- E.
  rewrite removelast_last, last_last.
  rewrite GetValue_of_loop by discriminate.
  destruct (GetValue_loop data (a :: prefix)) as [[]|]; reflexivity.
Qed.

(** X4: an index key resolves in a sequence exactly when the index is
    within bounds; beyond the last element nothing is found. *)
Theorem GetValue_index (l : list any) (i : nat) :
  (Z.of_nat i <= fmt.max_int)%Z ->
  GetValue (VSlice l) [fmt.Sprintf_index i] =
  match nth_error l i with
  | Some c => (c, true)
  | None => (VNil, false)
  end.
Proof.
  intros Hfit. rewrite GetValue_of_loop by discriminate.
  rewrite GetValue_loop_slice, (parse_index_Sprintf i _ Hfit).
  destruct (Nat.ltb_spec i (List.length l)) as [Hlt|Hge].
  - destruct (nth_error l i) eqn:E; [reflexivity|].
    apply nth_error_None in E. lia.
  - apply nth_error_None in Hge. now rewrite Hge.
Qed.

Lemma GetValue_index_witness :
  GetValue (VSlice [VInt 7; VInt 8]) [fmt.Sprintf_index 2] =
  match nth_error [VInt 7; VInt 8] 2 with
  | Some c => (c, true)
  | None => (VNil, false)
  end.
Proof.
  apply (GetValue_index [VInt 7; VInt 8] 2). vm_compute. discriminate.
Defined.



(** X7: [SetValue] adds an entry to a table at a key that is new, but it
    never adds an element to a sequence: where it sets an element the
    sequence keeps its length, and the index after the last element is
    refused with the data left as it was. *)
Theorem SetValue_never_extends_a_sequence (data : any)
  (prefix : list string) (p : list any) (finalKey : string) (newValue : any) :
  prefix <> [] ->
  GetValue data prefix = (VSlice p, true) ->
  (Z.of_nat (List.length p) <= fmt.max_int)%Z ->
  (forall data',
     SetValue data (prefix ++ [finalKey]) newValue = (data', true) ->
     exists p',
       GetValue data' prefix = (VSlice p', true) /\
       List.length p' = List.length p) /\
  SetValue data (prefix ++ [fmt.Sprintf_index (List.length p)]) newValue
  = (data, false).
Proof.
  intros Hne Hget Hfit. apply GetValue_found in Hget; [|exact Hne].
  rewrite !SetValue_long by exact Hne. rewrite Hget. split.
  - intros data' Hset.
    destruct (parse_index finalKey (List.length p)) as [index|];
      [|discriminate].
    injection Hset as <-. exists (set_nth p index newValue).
    split; [|apply set_nth_length].
    rewrite GetValue_of_loop by exact Hne.
    rewrite <- (app_nil_r prefix) at 2.
    now erewrite GetValue_loop_store by eauto.
  - destruct (parse_index _ _) as [index|] eqn:Hi; [|reflexivity].
    exfalso.
    assert (index < List.length p) as Hlt by (eapply parse_index_lt; eauto).
    rewrite (parse_index_Sprintf _ _ Hfit), Nat.ltb_irrefl in Hi.
    discriminate.
Qed.

Lemma SetValue_never_extends_a_sequence_witness :
  (forall data',
     SetValue fake.inventory (["ports"] ++ ["[+1]"]) (VInt 8080) = (data', true) ->
     exists p',
       GetValue data' ["ports"] = (VSlice p', true) /\
       List.length p' = List.length [VInt 80; VInt 443]) /\
  SetValue fake.inventory
           (["ports"] ++ [fmt.Sprintf_index (List.length [VInt 80; VInt 443])])
           (VInt 8080)
  = (fake.inventory, false).
Proof.
  apply (SetValue_never_extends_a_sequence fake.inventory ["ports"]
           [VInt 80; VInt 443] "[+1]" (VInt 8080)).
  - discriminate.
  - reflexivity.
  - vm_compute. discriminate.
Defined.


Lemma GetValue_walk_path_witness :
  GetValue fake.inventory
    (fst (address [] "" [Key "servers"; Index 0; Key "private_token"])
     ++ [snd (address [] "" [Key "servers"; Index 0; Key "private_token"])])
  = (VString "t1", true).
Proof.
  apply (GetValue_walk_path fake.inventory
           [Key "servers"; Index 0; Key "private_token"] (VString "t1")).
  - discriminate.
  - intros s [<-|[<-|[]]]; discriminate.
  - repeat constructor. vm_compute. discriminate.
  - reflexivity.
Defined.

(** X8: the elements of a sequence at the root can be read by their index
    keys but not set: [SetValue] takes a path of one segment for a
    key of a table. *)
Theorem SetValue_root_sequence (l : list any) (i : nat) (c newValue : any) :
  (Z.of_nat i <= fmt.max_int)%Z ->
  nth_error l i = Some c ->
  GetValue (VSlice l) [fmt.Sprintf_index i] = (c, true) /\
  SetValue (VSlice l) [fmt.Sprintf_index i] newValue = (VSlice l, false).
Proof.
  intros Hfit Hnth. split; [|reflexivity].
  rewrite GetValue_of_loop by discriminate.
  rewrite GetValue_loop_slice, (parse_index_Sprintf i _ Hfit).
  assert (i < List.length l) as Hlt by (apply nth_error_Some; congruence).
  apply Nat.ltb_lt in Hlt. now rewrite Hlt, Hnth.
Qed.

Lemma SetValue_root_sequence_witness :
  GetValue (VSlice [VInt 7; VInt 8]) [fmt.Sprintf_index 1] = (VInt 8, true) /\
  SetValue (VSlice [VInt 7; VInt 8]) [fmt.Sprintf_index 1] (VInt 9)
  = (VSlice [VInt 7; VInt 8], false).
Proof.
  apply (SetValue_root_sequence [VInt 7; VInt 8] 1 (VInt 8) (VInt 9)).
  - vm_compute. discriminate.
  - reflexivity.
Defined.

End PathAccess.

(* ================================================================= *)
(** ** [SetValue] over shared maps and slices *)

Section SharedAccess.

Import heap.

Lemma get_set_same (m : list (string * value)) (k : string) (x : value) :
  get (set m k x) k = Some x.
Proof.
  induction m as [|[k' v'] m IH]; cbn [set get].
  - now rewrite String.eqb_refl.
  - destruct (String.eqb k' k) eqn:E; cbn [get].
    + now rewrite String.eqb_refl.
    + now rewrite E.
Qed.













(** The table that stands under two keys changes under both, and the
    table beside it does not change. *)
Lemma shared_table_changes_under_both_keys :
  GetValue fake.shared_heap (MapRef 0) ["b"; "x"]
  = (Scalar (VString "old"), true) /\
  GetValue (fst (SetValue fake.shared_heap (MapRef 0) ["a"; "x"]
                          (Scalar (VString "new"))))
           (MapRef 0) ["b"; "x"]
  = (Scalar (VString "new"), true) /\
  GetValue (fst (SetValue fake.shared_heap (MapRef 0) ["a"; "x"]
                          (Scalar (VString "new"))))
           (MapRef 0) ["c"; "x"]
  = (Scalar (VString "other"), true).
Proof. repeat split. Qed.

End SharedAccess.

(* ================================================================= *)
(** ** More of [Load]: trees without ciphertext, records, errors *)

Section LoadMore.

Import armor walk enc viola.

Variable age : Age.
Variable codecs : Codecs.

(** X9: a document in which no string is recognised as ciphertext is
    loaded as it was parsed, with no record, whatever the
    identities. *)
Theorem Load_without_ciphertext (fuel : nat) (data : string) (opts : Options)
  (tree : gomap) (identities : list Identity) :
  toml_Unmarshal codecs data = Ok tree ->
  LoadIdentities age (Keys opts) = Ok identities ->
  wf (VMap tree) = true ->
  all_nodes plain (VMap tree) = true ->
  height (VMap tree) < fuel ->
  Load age codecs fuel data opts = Some (Ok (mkResult tree [])).
Proof.
  intros Hparse HI Hwf Hplain Hfuel.
  unfold Load. rewrite Hparse, setDefaults_Keys, HI. unfold Walk.
  destruct (walkValue_keeps (load_visit age codecs identities) eq
              (fun st => eq_refl) (fun a b c H1 H2 => eq_trans H1 H2) plain)
    with (fuel := fuel) (path := @nil string) (key := "") (v := VMap tree)
         (st := @nil FieldMeta) as [st' [E <-]]; auto.
  - intros x Hx path key st. exists st. now rewrite load_visit_plain.
  - now rewrite E.
Qed.

(** X10: every record of [Load] is for a string that was recognised as
    ciphertext; the picture and the recipients are never filled in. *)
Theorem Load_records (fuel : nat) (data : string) (opts : Options)
  (r : Result) (f : FieldMeta) :
  Load age codecs fuel data opts = Some (Ok r) ->
  In f (Fields r) ->
  WasEncrypted f = true /\ isArmoredData (Armored f) = true /\
  ASCIIQR f = "" /\ UsedRecipients f = [] /\ UsedPassphrase f = false.
Proof.
  unfold Load.
  destruct (toml_Unmarshal codecs data) as [tree|]; [|discriminate].
  destruct (LoadIdentities age (Keys (setDefaults opts))) as [identities|];
    [|discriminate].
  unfold Walk.
  destruct (walkValue fuel _ [] "" (VMap tree) []) as [[v' fields]|] eqn:E;
    [|discriminate].
  set (good := fun f : FieldMeta =>
                 WasEncrypted f = true /\ isArmoredData (Armored f) = true /\
                 ASCIIQR f = "" /\ UsedRecipients f = [] /\
                 UsedPassphrase f = false).
  assert (Forall good fields) as Hall.
  { assert (forall path key v st,
              Forall good st ->
              Forall good (snd (load_visit age codecs identities path key v st)))
      as Hvisit.
    { intros path key v st Hst. unfold load_visit.
      destruct v; try exact Hst.
      destruct (isArmoredData s) eqn:Ha; [|exact Hst].
      destruct (Decrypt age s identities); cbn [snd];
        (apply Forall_app; split; [exact Hst|]);
        repeat constructor; exact Ha. }
    apply (walkValue_le (load_visit age codecs identities)
             (fun st st' => Forall good st -> Forall good st')
             (fun st H => H) (fun a b c H1 H2 H => H2 (H1 H)) Hvisit
             _ _ _ _ _ _ _ E).
    constructor. }
  destruct v'; try discriminate. intros [= <-]. cbn [Fields].
  intros Hin. exact (proj1 (Forall_forall good fields) Hall f Hin).
Qed.

(** X11: the errors of [Load] are those of the parser and of the loading
    of the identities: a field that cannot be opened is no error, and
    the conversion of the walked tree to a table cannot fail. *)
Theorem Load_errors (fuel : nat) (data : string) (opts : Options)
  (e : string) :
  Load age codecs fuel data opts = Some (Err e) ->
  (exists e', toml_Unmarshal codecs data = Err e' /\
              e = ("failed to parse TOML: " ++ e')%string) \/
  (exists e', LoadIdentities age (Keys opts) = Err e' /\
              e = ("failed to load identities: " ++ e')%string).
Proof.
  unfold Load. rewrite setDefaults_Keys.
  destruct (toml_Unmarshal codecs data) as [tree|e1].
  2:{ intros [= <-]. left. now exists e1. }
  destruct (LoadIdentities age (Keys opts)) as [identities|e2].
  2:{ intros [= <-]. right. now exists e2. }
  unfold Walk.
  destruct (walkValue fuel _ [] "" (VMap tree) []) as [[v' fields]|] eqn:E;
    [|discriminate].
  destruct (load_walk_map age codecs _ _ _ _ _ _ _ _ E) as [m ->].
  discriminate.
Qed.

End LoadMore.

Section LoadMoreWitnesses.

Import armor walk enc viola.

Lemma Load_without_ciphertext_witness :
  Load fake.age (fake.codecs fake.scenario_map) 3 "doc"
       (fake.options fake.no_keys)
  = Some (Ok (mkResult fake.scenario_map [])).
Proof.
  apply (Load_without_ciphertext fake.age (fake.codecs fake.scenario_map)
           3 "doc" (fake.options fake.no_keys) fake.scenario_map []).
  - reflexivity.
  - reflexivity.
  - reflexivity.
  - reflexivity.
  - simpl. lia.
Defined.

Lemma Load_records_witness :
  WasEncrypted (mkFieldMeta ["note"] true (fake.sealed "hello") "" [] false)
  = true /\
  isArmoredData
    (Armored (mkFieldMeta ["note"] true (fake.sealed "hello") "" [] false))
  = true /\
  ASCIIQR (mkFieldMeta ["note"] true (fake.sealed "hello") "" [] false) = "" /\
  UsedRecipients (mkFieldMeta ["note"] true (fake.sealed "hello") "" [] false)
  = [] /\
  UsedPassphrase (mkFieldMeta ["note"] true (fake.sealed "hello") "" [] false)
  = false.
Proof.
  apply (Load_records fake.age (fake.codecs fake.with_armored_note) 2 "doc"
           (fake.options fake.keys)
           (mkResult [("note", VString "hello")]
                     [mkFieldMeta ["note"] true (fake.sealed "hello") "" []
                                  false])).
  - reflexivity.
  - left. reflexivity.
Defined.

Lemma Load_errors_witness :
  (exists e', toml_Unmarshal (fake.codecs []) "x = " = Err e' /\
              ("failed to parse TOML: " ++ "toml: expected key")%string
              = ("failed to parse TOML: " ++ e')%string) \/
  (exists e', LoadIdentities fake.age (Keys (fake.options fake.keys)) = Err e' /\
              ("failed to parse TOML: " ++ "toml: expected key")%string
              = ("failed to load identities: " ++ e')%string).
Proof.
  apply (Load_errors fake.age (fake.codecs []) 2 "x = "
           (fake.options fake.keys)).
  reflexivity.
Defined.

End LoadMoreWitnesses.

(* ================================================================= *)
(** ** More of the walker: visitors that depend on the address, and a
    second walk over the result of a first one *)

Section WalkerAgain.

Import walk.

Context {St : Type}.
Variable visit : VisitFunc (St := St).

(** A visitor that returns the nodes of a tree as they are, and its
    variables with them, at the addresses under which the walker
    visits them: the walk returns the tree and the variables. *)
Lemma walkValue_keeps_at (P : list string -> string -> any -> bool) :
  (forall path key x st,
     P path key x = true -> visit path key x st = ((x, true), st)) ->
  forall fuel path key v st,
    height v < fuel -> wf v = true -> nodes_at P path key v = true ->
    walkValue fuel visit path key v st = Some (v, st).
Proof.
  intros Hvisit.
  induction fuel as [|fuel IH]; intros path key v st Hh Hwf Hall; [lia|].
  cbn [walkValue].
  assert (P path key v = true) as Hp.
  { destruct v; cbn [nodes_at] in Hall;
      now apply andb_true_iff in Hall as [Hall _]. }
  rewrite (Hvisit _ _ _ st Hp). cbn [negb].
  destruct v; try reflexivity.
  - destruct (wf_map _ Hwf) as [Hnd Hc].
    rewrite walkMap_eachMap by exact Hnd.
    cbn [nodes_at] in Hall. apply andb_true_iff in Hall as [_ Hall].
    assert (forall k c, In (k, c) m -> height c < fuel) as Hhc.
    { intros k c Hin. specialize (height_map_child _ _ _ Hin). lia. }
    clear Hnd Hh Hwf Hp.
    enough (eachMap (walkValue fuel visit) (currentPath path key) m st
            = Some (m, st)) as -> by reflexivity.
    induction m as [|[k c] m IHm]; [reflexivity|].
    cbn [eachMap forallb fst snd] in *.
    apply andb_true_iff in Hall as [Hc0 Hrest].
    rewrite (IH _ _ _ _ (Hhc k c (or_introl eq_refl))
               (Hc k c (or_introl eq_refl)) Hc0).
    rewrite IHm; auto.
    + intros k0 c0 Hin. apply (Hc k0 c0). now right.
    + intros k0 c0 Hin. apply (Hhc k0 c0). now right.
  - pose proof (wf_slice _ Hwf) as Hc.
    cbn [nodes_at] in Hall. apply andb_true_iff in Hall as [_ Hall].
    assert (forall c, In c s -> height c < fuel) as Hhc.
    { intros c Hin. specialize (height_slice_child _ _ Hin). lia. }
    clear Hh Hwf Hp. unfold walkSlice.
    enough (rangeSlice (walkValue fuel visit) (currentPath path key) 0 s st
            = Some (s, st)) as -> by reflexivity.
    revert Hall. generalize 0 as i.
    induction s as [|c s IHs]; intros i Hall; [reflexivity|].
    cbn [rangeSlice].
    apply andb_true_iff in Hall as [Hc0 Hrest].
    rewrite (IH _ _ _ _ (Hhc c (or_introl eq_refl))
               (Hc c (or_introl eq_refl)) Hc0).
    rewrite (IHs (fun c0 Hin => Hc c0 (or_intror Hin))
                 (fun c0 Hin => Hhc c0 (or_intror Hin)) (S i) Hrest).
    reflexivity.
Qed.

End WalkerAgain.

Section WalkerTwice.

Import walk.

Context {St St2 : Type}.
Variable w1 : walker (St := St).
Variable w2 : walker (St := St2).
Variable R : St2 -> St2 -> Prop.
Hypothesis R_refl : forall st, R st st.
Hypothesis R_trans : forall a b c, R a b -> R b c -> R a c.

(** Where a second walker returns each result of a first one as it
    is, the loops of the second return the results of the loops of the
    first. *)
Lemma eachMap_again (cur : list string) (m : gomap) :
  (forall k c, In (k, c) m ->
     forall st c' st', w1 cur k c st = Some (c', st') ->
     forall s2, exists s2', w2 cur k c' s2 = Some (c', s2') /\ R s2 s2') ->
  forall st r st', eachMap w1 cur m st = Some (r, st') ->
  forall s2, exists s2', eachMap w2 cur r s2 = Some (r, s2') /\ R s2 s2'.
Proof.
  induction m as [|[k c] m IH]; intros Hw st r st' E s2; cbn [eachMap] in E.
  - injection E as <- _. exists s2. split; [reflexivity | apply R_refl].
  - destruct (w1 cur k c st) as [[c' sta]|] eqn:Ec; [|discriminate].
    destruct (eachMap w1 cur m sta) as [[r0 stb]|] eqn:E0; [|discriminate].
    injection E as <- _.
    destruct (Hw k c (or_introl eq_refl) _ _ _ Ec s2) as [s2a [E2 R2]].
    destruct (IH (fun k0 c0 Hin => Hw k0 c0 (or_intror Hin)) _ _ _ E0 s2a)
      as [s2b [E3 R3]].
    exists s2b. cbn [eachMap]. rewrite E2, E3.
    split; [reflexivity | eapply R_trans; eauto].
Qed.

Lemma rangeSlice_again (cur : list string) (s : list any) :
  forall i,
    (forall j c, nth_error s j = Some c ->
       forall st c' st',
         w1 cur (fmt.Sprintf_index (i + j)) c st = Some (c', st') ->
         forall s2, exists s2',
           w2 cur (fmt.Sprintf_index (i + j)) c' s2 = Some (c', s2') /\
           R s2 s2') ->
    forall st r st', rangeSlice w1 cur i s st = Some (r, st') ->
    forall s2, exists s2', rangeSlice w2 cur i r s2 = Some (r, s2') /\ R s2 s2'.
Proof.
  induction s as [|c s IH]; intros i Hw st r st' E s2; cbn [rangeSlice] in E.
  - injection E as <- _. exists s2. split; [reflexivity | apply R_refl].
  - destruct (w1 cur (fmt.Sprintf_index i) c st) as [[c' sta]|] eqn:Ec;
      [|discriminate].
    destruct (rangeSlice w1 cur (S i) s sta) as [[r0 stb]|] eqn:E0;
      [|discriminate].
    injection E as <- _.
    pose proof (Hw 0 c eq_refl st c' sta) as H0.
    rewrite Nat.add_0_r in H0.
    destruct (H0 Ec s2) as [s2a [E2 R2]].
    destruct (IH (S i)) with (st := sta) (r := r0) (st' := stb) (s2 := s2a)
      as [s2b [E3 R3]].
    + intros j c0 Hj. specialize (Hw (S j) c0 Hj).
      now rewrite Nat.add_succ_r in Hw.
    + exact E0.
    + exists s2b. cbn [rangeSlice]. rewrite E2, E3.
      split; [reflexivity | eapply R_trans; eauto].
Qed.

End WalkerTwice.

(* ================================================================= *)
(** ** More of [Save]: records, errors, what is sealed and what is
    not, saving twice *)

Section SaveMore.

Import armor walk enc viola.

Variable age : Age.
Variable codecs : Codecs.

(** X12: every record of [Save] names the recipients of the call; the
    picture is never filled in, whatever the options say; and the
    ciphertext is armored when the library seals to armor. *)
Theorem Save_records (fuel seed : nat) (tree : any) (opts : Options)
  (recipients : list Recipient) (bytes : string) (fields : list FieldMeta)
  (f : FieldMeta) :
  LoadRecipients age (Keys opts) = Ok recipients ->
  Save age codecs fuel seed tree opts = Some (Ok (bytes, fields)) ->
  In f fields ->
  WasEncrypted f = true /\ ASCIIQR f = "" /\
  UsedRecipients f = GetRecipientStrings recipients /\
  UsedPassphrase f = HasPassphraseRecipient recipients /\
  ((forall n data c, Encrypt age n data recipients = Ok c ->
                     isArmoredData c = true) ->
   isArmoredData (Armored f) = true).
Proof.
  intros HR. unfold Save. rewrite setDefaults_Keys, HR.
  destruct (List.length recipients =? 0); [discriminate|].
  unfold save_walk, Walk.
  destruct (walkValue fuel _ [] "" tree ([], seed))
    as [[encryptedTree [fields0 n]]|] eqn:E; [|discriminate].
  destruct (toml_Marshal codecs encryptedTree); [|discriminate].
  intros [= _ <-].
  set (good := fun f : FieldMeta =>
                 WasEncrypted f = true /\ ASCIIQR f = "" /\
                 UsedRecipients f = GetRecipientStrings recipients /\
                 UsedPassphrase f = HasPassphraseRecipient recipients /\
                 ((forall n data c, Encrypt age n data recipients = Ok c ->
                                    isArmoredData c = true) ->
                  isArmoredData (Armored f) = true)).
  assert (forall path key v st,
            Forall good (fst st) ->
            Forall good
              (fst (snd (save_visit age codecs (setDefaults opts) recipients
                                    path key v st)))) as Hvisit.
  { intros path key v [fs n0] Hst. unfold save_visit.
    destruct (shouldEncryptField _ path key v); [|exact Hst].
    destruct (match v with
              | VString strValue =>
                  if isArmoredData strValue then Some strValue else None
              | _ => None
              end) as [strValue|] eqn:Hs.
    - cbn [snd fst]. apply Forall_app. split; [exact Hst|].
      repeat constructor. intros _.
      destruct v; try discriminate.
      destruct (isArmoredData s) eqn:Ha; [|discriminate].
      injection Hs as <-. exact Ha.
    - destruct (encode codecs v) as [data|]; [|exact Hst].
      destruct (Encrypt age n0 data recipients) as [c|] eqn:Hc; [|exact Hst].
      cbn [snd fst]. apply Forall_app. split; [exact Hst|].
      repeat constructor. intros Harm. exact (Harm _ _ _ Hc). }
  pose proof (walkValue_le (save_visit age codecs (setDefaults opts) recipients)
                (fun st st' => Forall good (fst st) -> Forall good (fst st'))
                (fun st H => H) (fun a b c H1 H2 H => H2 (H1 H)) Hvisit
                _ _ _ _ _ _ _ E (Forall_nil good)) as Hall.
  intros Hin. exact (proj1 (Forall_forall good fields0) Hall f Hin).
Qed.

(** X13: [Save] returns for every tree, and its errors are those of the
    loading of the recipients, the absence of recipients, and the
    serialisation of the walked tree: a field that could not be
    encoded or sealed is no error. *)
Theorem Save_returns (fuel seed : nat) (tree : any) (opts : Options) :
  height tree < fuel ->
  exists r,
    Save age codecs fuel seed tree opts = Some r /\
    forall e, r = Err e ->
      (exists e', LoadRecipients age (Keys opts) = Err e' /\
                  e = ("failed to load recipients: " ++ e')%string) \/
      (LoadRecipients age (Keys opts) = Ok [] /\
       e = "no recipients available for encryption") \/
      (exists recipients encryptedTree st e',
         LoadRecipients age (Keys opts) = Ok recipients /\
         save_walk age codecs fuel seed tree (setDefaults opts) recipients
         = Some (encryptedTree, st) /\
         toml_Marshal codecs encryptedTree = Err e' /\
         e = ("failed to marshal TOML: " ++ e')%string).
Proof.
  intros Hfuel. unfold Save. rewrite setDefaults_Keys.
  destruct (LoadRecipients age (Keys opts)) as [recipients|e1].
  2:{ eexists. split; [reflexivity|]. intros e [= <-]. left. now exists e1. }
  destruct recipients as [|r0 recipients]; cbn [List.length Nat.eqb].
  { eexists. split; [reflexivity|]. intros e [= <-]. right. left. now split. }
  destruct (save_walk_returns age codecs fuel seed tree (setDefaults opts)
              (r0 :: recipients) Hfuel) as [enc [fields [n Hwalk]]].
  rewrite Hwalk.
  destruct (toml_Marshal codecs enc) as [b|e3] eqn:Hm.
  - eexists. split; [reflexivity|]. discriminate.
  - eexists. split; [reflexivity|]. intros e [= <-]. right. right.
    exists (r0 :: recipients), enc, (fields, n), e3. now repeat split.
Qed.



(** X16: over a tree in which the policy matches no node, the walk of
    [Save] returns the tree itself, makes no record and seals
    nothing. *)
Theorem Save_without_match (fuel seed : nat) (tree : any) (opts : Options)
  (recipients : list Recipient) :
  wf tree = true ->
  height tree < fuel ->
  nodes_at (fun path key v => negb (shouldEncryptField opts path key v))
           [] "" tree = true ->
  save_walk age codecs fuel seed tree opts recipients
  = Some (tree, ([], seed)).
Proof.
  intros Hwf Hfuel Hall. unfold save_walk, Walk.
  apply (walkValue_keeps_at (save_visit age codecs opts recipients)
           (fun path key v => negb (shouldEncryptField opts path key v)));
    auto.
  intros path key x st Hp. apply save_visit_unmatched.
  now apply negb_true_iff.
Qed.




End SaveMore.

Section SaveTwice.

Import armor walk enc viola.

Variable age : Age.
Variable codecs : Codecs.
Variable opts : Options.
Variable recipients : list Recipient.

(** The policy looks at the path and the key only, as the prefix
    policy does; sealed text is recognised as ciphertext; and sealing
    does not fail. *)
Hypothesis policy_of_address :
  forall path key v v',
    shouldEncryptField opts path key v = shouldEncryptField opts path key v'.
Hypothesis seal_armored :
  forall n data c, Encrypt age n data recipients = Ok c ->
                   isArmoredData c = true.
Hypothesis seal_total :
  forall n data, exists c, Encrypt age n data recipients = Ok c.

(** A second walk of [Save] over the result of a first one returns
    it as it is, and seals nothing. *)
Lemma save_walk_again (fuel : nat) :
  forall path key v st v' st',
    walkValue fuel (save_visit age codecs opts recipients) path key v st
    = Some (v', st') ->
    wf v = true ->
    (forall pos x, subtree v pos = Some x -> is_container x = true ->
       shouldEncryptField opts (fst (address path key pos))
                          (snd (address path key pos)) x = true ->
       exists data, encode codecs x = Ok data) ->
    forall s2, exists s2',
      walkValue fuel (save_visit age codecs opts recipients) path key v' s2
      = Some (v', s2') /\ snd s2 = snd s2'.
Proof.
  induction fuel as [|fuel IH];
    intros path key v [fs n] v' st' Hsave Hwf Hcont [fs2 n2]; [discriminate|].
  cbn [walkValue] in Hsave |- *.
  assert (forall m r st0 st1,
            VMap m = v -> NoDup (keys m) ->
            eachMap (walkValue fuel (save_visit age codecs opts recipients))
                    (currentPath path key) m st0 = Some (r, st1) ->
            forall s2, exists s2',
              walkMap (walkValue fuel (save_visit age codecs opts recipients))
                      path key r s2 = Some (r, s2') /\ snd s2 = snd s2')
    as Hmap.
  { intros m r st0 st1 <- Hnd E s2.
    destruct (wf_map _ Hwf) as [_ Hc].
    rewrite walkMap_eachMap
      by (unfold keys in *; erewrite eachMap_keys; eauto).
    apply (eachMap_again
             (walkValue fuel (save_visit age codecs opts recipients))
             (walkValue fuel (save_visit age codecs opts recipients))
             (fun a b => snd a = snd b) (fun _ => eq_refl)
             (fun a b c H1 H2 => eq_trans H1 H2)
             (currentPath path key) m) with (st := st0) (st' := st1);
      [|exact E].
    intros k c Hin sta c' stb Hcall s3.
    apply (IH _ _ _ _ _ _ Hcall).
    - eapply Hc; eauto.
    - intros pos x Hsub. apply (Hcont (Key k :: pos) x).
      cbn [subtree child]. now rewrite (In_map_get _ _ _ Hnd Hin). }
  assert (forall s r st0 st1,
            VSlice s = v ->
            rangeSlice (walkValue fuel (save_visit age codecs opts recipients))
                       (currentPath path key) 0 s st0 = Some (r, st1) ->
            forall s2, exists s2',
              rangeSlice (walkValue fuel (save_visit age codecs opts recipients))
                         (currentPath path key) 0 r s2 = Some (r, s2') /\
              snd s2 = snd s2')
    as Hslice.
  { intros s r st0 st1 <- E s2.
    apply (rangeSlice_again
             (walkValue fuel (save_visit age codecs opts recipients))
             (walkValue fuel (save_visit age codecs opts recipients))
             (fun a b => snd a = snd b) (fun _ => eq_refl)
             (fun a b c H1 H2 => eq_trans H1 H2)
             (currentPath path key) s 0) with (st := st0) (st' := st1);
      [|exact E].
    intros j c Hj sta c' stb Hcall s3.
    apply (IH _ _ _ _ _ _ Hcall).
    - eapply wf_slice; eauto. eapply nth_error_In; eauto.
    - intros pos x Hsub. apply (Hcont (Index j :: pos) x).
      cbn [subtree child]. now rewrite Hj. }
  unfold save_visit in Hsave at 1. unfold save_visit at 1.
  rewrite (policy_of_address path key v' v).
  destruct (shouldEncryptField opts path key v) eqn:Hpol.
  - (* the policy matches *)
    destruct v.
    5:{ (* a string *)
      destruct (isArmoredData s) eqn:Ha.
      - cbn [negb] in Hsave. injection Hsave as <- _.
        rewrite Ha. cbn [negb]. eauto.
      - cbn [encode] in Hsave. destruct (seal_total n s) as [c Hc].
        rewrite Hc in Hsave. cbn [negb] in Hsave. injection Hsave as <- _.
        rewrite (seal_armored _ _ _ Hc). cbn [negb]. eauto. }
    1-5,8:
      match type of Hsave with
      | context [encode codecs ?x] =>
          destruct (encode codecs x) as [data|] eqn:Henc
      end;
      [ destruct (seal_total n data) as [c Hc];
        rewrite Hc in Hsave; cbn [negb] in Hsave; injection Hsave as <- _;
        rewrite (seal_armored _ _ _ Hc); cbn [negb]; eauto
      | cbn [negb] in Hsave; injection Hsave as <- _;
        rewrite Henc; cbn [negb]; eauto ].
    + (* a table: its encoding succeeds, it is sealed *)
      destruct (Hcont [] (VMap m) eq_refl eq_refl Hpol) as [data Henc].
      rewrite Henc in Hsave. destruct (seal_total n data) as [c Hc].
      rewrite Hc in Hsave. cbn [negb] in Hsave. injection Hsave as <- _.
      rewrite (seal_armored _ _ _ Hc). cbn [negb]. eauto.
    + destruct (Hcont [] (VSlice s) eq_refl eq_refl Hpol) as [data Henc].
      rewrite Henc in Hsave. destruct (seal_total n data) as [c Hc].
      rewrite Hc in Hsave. cbn [negb] in Hsave. injection Hsave as <- _.
      rewrite (seal_armored _ _ _ Hc). cbn [negb]. eauto.
  - (* the policy does not match *)
    cbn [negb] in Hsave |- *.
    destruct v; try (injection Hsave as <- _; eauto).
    + destruct (wf_map _ Hwf) as [Hnd _].
      rewrite walkMap_eachMap in Hsave by exact Hnd.
      destruct (eachMap _ _ m (fs, n)) as [[r st2]|] eqn:E; [|discriminate].
      injection Hsave as <- _.
      destruct (Hmap m r _ _ eq_refl Hnd E (fs2, n2)) as [s2' [E2 Hn]].
      rewrite E2. eauto.
    + unfold walkSlice in Hsave |- *.
      destruct (rangeSlice _ _ 0 s (fs, n)) as [[r st2]|] eqn:E; [|discriminate].
      injection Hsave as <- _.
      destruct (Hslice s r _ _ eq_refl E (fs2, n2)) as [s2' [E2 Hn]].
      rewrite E2. eauto.
Qed.

End SaveTwice.

Section SaveAgain.

Import armor walk enc viola.

Variable age : Age.
Variable codecs : Codecs.

(** X18: saving twice: where the policy looks at the path and the key only,
    sealing gives armored text and does not fail, and the tables and
    sequences that the policy matches can be encoded, the walk of
    [Save] over the tree that a first walk returned returns that tree
    as it is and seals nothing. *)
Theorem Save_again (fuel seed seed2 : nat) (tree : any) (opts : Options)
  (recipients : list Recipient) (encryptedTree : any)
  (st' : list FieldMeta * nat) :
  (forall path key v v',
     shouldEncryptField opts path key v = shouldEncryptField opts path key v') ->
  (forall n data c, Encrypt age n data recipients = Ok c ->
                    isArmoredData c = true) ->
  (forall n data, exists c, Encrypt age n data recipients = Ok c) ->
  wf tree = true ->
  (forall pos x, subtree tree pos = Some x -> is_container x = true ->
     shouldEncryptField opts (fst (address [] "" pos))
                        (snd (address [] "" pos)) x = true ->
     exists data, encode codecs x = Ok data) ->
  save_walk age codecs fuel seed tree opts recipients
  = Some (encryptedTree, st') ->
  exists fields2,
    save_walk age codecs fuel seed2 encryptedTree opts recipients
    = Some (encryptedTree, (fields2, seed2)).
Proof.
  intros Hpol Harm Htotal Hwf Hcont Hwalk.
  destruct (save_walk_again age codecs opts recipients Hpol Harm Htotal
              fuel [] "" tree _ _ _ Hwalk Hwf Hcont ([], seed2))
    as [[fields2 n2] [E Hn]].
  cbn [snd] in Hn. subst n2. exists fields2. exact E.
Qed.

End SaveAgain.

Section SaveMoreWitnesses.

Import armor walk enc viola.

Lemma fake_seal_total (n : nat) (data : string) :
  exists c, Encrypt fake.age n data [X25519Recipient "age1"] = Ok c.
Proof. eexists. reflexivity. Qed.

Lemma prefix_policy_of_address (opts : Options) :
  ShouldEncrypt opts = None ->
  forall path key v v',
    shouldEncryptField opts path key v = shouldEncryptField opts path key v'.
Proof. intros H path key v v'. unfold shouldEncryptField. now rewrite H. Qed.

Lemma Save_records_witness :
  WasEncrypted (mkFieldMeta ["private_flag"] true (fake.sealed "true") ""
                            ["age1"] false) = true /\
  ASCIIQR (mkFieldMeta ["private_flag"] true (fake.sealed "true") ""
                       ["age1"] false) = "" /\
  UsedRecipients (mkFieldMeta ["private_flag"] true (fake.sealed "true") ""
                              ["age1"] false)
  = GetRecipientStrings [X25519Recipient "age1"] /\
  UsedPassphrase (mkFieldMeta ["private_flag"] true (fake.sealed "true") ""
                              ["age1"] false)
  = HasPassphraseRecipient [X25519Recipient "age1"] /\
  ((forall n data c,
      Encrypt fake.age n data [X25519Recipient "age1"] = Ok c ->
      isArmoredData c = true) ->
   isArmoredData
     (Armored (mkFieldMeta ["private_flag"] true (fake.sealed "true") ""
                           ["age1"] false)) = true).
Proof.
  apply (Save_records fake.age
           (fake.codecs [("private_flag", VString (fake.sealed "true"))])
           2 0 (VMap fake.with_json_like_secret) (fake.options fake.keys)
           [X25519Recipient "age1"] "doc"
           [mkFieldMeta ["private_flag"] true (fake.sealed "true") ""
                        ["age1"] false]).
  - reflexivity.
  - reflexivity.
  - left. reflexivity.
Defined.

Lemma Save_returns_witness :
  exists r,
    Save fake.age (fake.codecs []) 3 0 fake.scenario (fake.options fake.keys)
    = Some r /\
    forall e, r = Err e ->
      (exists e',
         LoadRecipients fake.age (Keys (fake.options fake.keys)) = Err e' /\
         e = ("failed to load recipients: " ++ e')%string) \/
      (LoadRecipients fake.age (Keys (fake.options fake.keys)) = Ok [] /\
       e = "no recipients available for encryption") \/
      (exists recipients encryptedTree st e',
         LoadRecipients fake.age (Keys (fake.options fake.keys))
         = Ok recipients /\
         save_walk fake.age (fake.codecs []) 3 0 fake.scenario
                   (setDefaults (fake.options fake.keys)) recipients
         = Some (encryptedTree, st) /\
         toml_Marshal (fake.codecs []) encryptedTree = Err e' /\
         e = ("failed to marshal TOML: " ++ e')%string).
Proof.
  apply (Save_returns fake.age (fake.codecs []) 3 0 fake.scenario
           (fake.options fake.keys)).
  simpl. lia.
Defined.



Lemma Save_without_match_witness :
  save_walk fake.age (fake.codecs []) 3 7
            (VMap [("name", VString "app");
                   ("ports", VSlice [VInt 80; VInt 443])])
            (setDefaults (fake.options fake.keys)) [X25519Recipient "age1"]
  = Some (VMap [("name", VString "app");
                ("ports", VSlice [VInt 80; VInt 443])], ([], 7)).
Proof.
  apply (Save_without_match fake.age (fake.codecs []) 3 7
           (VMap [("name", VString "app");
                  ("ports", VSlice [VInt 80; VInt 443])])
           (setDefaults (fake.options fake.keys)) [X25519Recipient "age1"]).
  - reflexivity.
  - simpl. lia.
  - reflexivity.
Defined.


Lemma Save_again_witness :
  exists fields2,
    save_walk fake.age (fake.codecs []) 3 9 (VMap fake.scenario_saved)
              (setDefaults (fake.options fake.keys)) [X25519Recipient "age1"]
    = Some (VMap fake.scenario_saved, (fields2, 9)).
Proof.
  apply (Save_again fake.age (fake.codecs []) 3 0 9 fake.scenario
           (setDefaults (fake.options fake.keys)) [X25519Recipient "age1"]
           (VMap fake.scenario_saved)
           ([mkFieldMeta ["private_password"] true (fake.sealed "secret123") ""
                         ["age1"] false;
             mkFieldMeta ["database"; "private_connection_string"] true
                         (fake.sealed "postgresql://x") "" ["age1"] false],
            2)).
  - apply prefix_policy_of_address. reflexivity.
  - intros n data c. apply fake_seal_armored.
  - apply fake_seal_total.
  - reflexivity.
  - intros pos x _ _ _. destruct x; eexists; reflexivity.
  - reflexivity.
Defined.

End SaveMoreWitnesses.

(* ================================================================= *)
(** ** [Transform]: loading what it wrote gives the transformed tree *)

Section TransformFacts.

Import armor walk enc viola.

Variable age : Age.
Variable codecs : Codecs.

(** X19: [Transform] composes [Load], the transformation and [Save]: for a
    transformation that succeeds and leaves a tree that [Save] and
    [Load] carry over (no string recognised as ciphertext, decoding
    undoes encoding at the nodes that the policy matches, sealed text
    recognised and opened, a document codec that reads the tree that
    [Save] wrote back as it was written), [Transform] returns, and
    [Load] of its bytes gives the tree that the transformation
    left. *)
Theorem Load_after_Transform (fuel seed : nat) (data : string)
  (opts : Options) (transform : gomap -> result gomap)
  (recipients : list Recipient) (identities : list Identity)
  (r : Result) (T : gomap) :
  LoadRecipients age (Keys opts) = Ok recipients ->
  recipients <> [] ->
  LoadIdentities age (Keys opts) = Ok identities ->
  (forall n data c, Encrypt age n data recipients = Ok c ->
                    isArmoredData c = true) ->
  (forall n data c, Encrypt age n data recipients = Ok c ->
                    Decrypt age c identities = Ok data) ->
  (forall encryptedTree st bytes,
     save_walk age codecs fuel seed (VMap T) (setDefaults opts) recipients
     = Some (encryptedTree, st) ->
     toml_Marshal codecs encryptedTree = Ok bytes ->
     exists m, encryptedTree = VMap m /\ toml_Unmarshal codecs bytes = Ok m) ->
  Load age codecs fuel data opts = Some (Ok r) ->
  transform (Tree r) = Ok T ->
  wf (VMap T) = true ->
  all_nodes plain (VMap T) = true ->
  (forall pos x, subtree (VMap T) pos = Some x ->
     shouldEncryptField (setDefaults opts) (fst (address [] "" pos))
                        (snd (address [] "" pos)) x = true ->
     forall data, encode codecs x = Ok data -> decode codecs data = x) ->
  height (VMap T) < fuel ->
  (exists out, Transform age codecs fuel seed data opts transform = Some out) /\
  forall bytes fields,
    Transform age codecs fuel seed data opts transform
    = Some (Ok (bytes, fields)) ->
    exists fields',
      Load age codecs fuel bytes opts = Some (Ok (mkResult T fields')).
Proof.
  intros HR Hne HI Harm Hopen Htoml HL HT Hwf Hplain Hcodec Hfuel.
  unfold Transform. rewrite HL, HT.
  rewrite (Save_unfold age codecs _ _ _ _ _ HR Hne).
  destruct (save_walk_returns age codecs fuel seed (VMap T) (setDefaults opts)
              recipients Hfuel) as [enc [fs [n Hwalk]]].
  rewrite Hwalk. split.
  { destruct (toml_Marshal codecs enc); eauto. }
  intros bytes fields Hsave.
  destruct (toml_Marshal codecs enc) as [b|] eqn:Hm; [|discriminate].
  injection Hsave as -> ->.
  destruct (Htoml _ _ _ Hwalk Hm) as [m [-> Hparse]].
  destruct (save_load_walk age codecs (setDefaults opts) recipients identities
              Harm Hopen fuel [] "" (VMap T) _ _ _ Hwalk Hwf Hplain Hcodec
              fuel Hfuel []) as [fields' Hload].
  exists fields'. unfold Load. rewrite Hparse, setDefaults_Keys, HI.
  unfold Walk. now rewrite Hload.
Qed.

End TransformFacts.

Section TransformWitnesses.

Import armor walk enc viola.

Lemma Load_after_Transform_witness :
  (exists out,
     Transform fake.age (fake.codecs fake.scenario_saved) 3 0 "doc"
               (fake.options fake.keys) (fun tree => Ok tree) = Some out) /\
  forall bytes fields,
    Transform fake.age (fake.codecs fake.scenario_saved) 3 0 "doc"
              (fake.options fake.keys) (fun tree => Ok tree)
    = Some (Ok (bytes, fields)) ->
    exists fields',
      Load fake.age (fake.codecs fake.scenario_saved) 3 bytes
           (fake.options fake.keys)
      = Some (Ok (mkResult fake.scenario_map fields')).
Proof.
  apply (Load_after_Transform fake.age (fake.codecs fake.scenario_saved) 3 0
           "doc" (fake.options fake.keys) (fun tree => Ok tree)
           [X25519Recipient "age1"] [X25519Identity "AGE-SECRET-KEY-1"]
           (mkResult fake.scenario_map
              [mkFieldMeta ["private_password"] true (fake.sealed "secret123")
                           "" [] false;
               mkFieldMeta ["database"; "private_connection_string"] true
                           (fake.sealed "postgresql://x") "" [] false])
           fake.scenario_map).
  - reflexivity.
  - discriminate.
  - reflexivity.
  - intros n data c. apply fake_seal_armored.
  - intros n data c. apply fake_opens. discriminate.
  - intros encryptedTree st bytes _. apply fake_toml_roundtrip.
  - reflexivity.
  - reflexivity.
  - reflexivity.
  - reflexivity.
  - intros pos x Hsub Hpol data Henc.
    pose proof (nodes_at_subtree
                  (fun p k v =>
                     negb (shouldEncryptField
                             (setDefaults (fake.options fake.keys)) p k v) ||
                     match encode (fake.codecs fake.scenario_saved) v with
                     | Ok d =>
                         fake.any_eqb
                           (decode (fake.codecs fake.scenario_saved) d) v
                     | Err _ => true
                     end)
                  pos [] "" (VMap fake.scenario_map) x eq_refl Hsub) as H.
    cbv beta in H. rewrite Hpol, Henc in H. cbn [negb orb] in H.
    now apply any_eqb_eq.
  - simpl. lia.
Defined.

End TransformWitnesses.

(* ================================================================= *)
(** ** More of package [enc]: the loaders and the record fields *)

Section LoaderFacts.

Import enc.

Variable age : Age.

(** The loop over the inline keys: on success, one parsed key for
    each string, in their order, after what was there. *)
Lemma parse_each_Ok {A : Type} (parse : string -> result A)
  (context : string) (data : list string) :
  forall acc rs,
    parse_each parse context data acc = Ok rs ->
    exists parsed,
      rs = acc ++ parsed /\ Forall2 (fun s x => parse s = Ok x) data parsed.
Proof.
  induction data as [|s data IH]; intros acc rs; cbn [parse_each].
  - intros [= <-]. exists []. split; [now rewrite app_nil_r | constructor].
  - destruct (parse s) as [x|e] eqn:Hs; cbn [wrap bind]; [|discriminate].
    intros H. destruct (IH _ _ H) as [parsed [-> HF]].
    exists (x :: parsed). split; [now rewrite <- app_assoc|].
    now constructor.
Qed.

Lemma parse_each_Err {A : Type} (parse : string -> result A)
  (context : string) (data : list string) (s e : string) :
  In s data -> parse s = Err e ->
  forall acc, exists e', parse_each parse context data acc = Err e'.
Proof.
  intros Hin Hs. induction data as [|s0 data IH]; [contradiction|].
  intros acc. cbn [parse_each].
  destruct (parse s0) as [x|e0] eqn:H0; cbn [wrap bind]; [|eauto].
  destruct Hin as [->|Hin]; [congruence|]. now apply IH.
Qed.

(** X20: when [LoadRecipients] succeeds, the recipients are those of the
    file, then one for each inline string, in their order, then the
    one of the passphrase: every source was read, and all of it. *)
Theorem LoadRecipients_Ok (ks : KeySources) (rs : list Recipient) :
  LoadRecipients age ks = Ok rs ->
  exists fromFile parsed fromPassphrase,
    rs = fromFile ++ parsed ++ fromPassphrase /\
    (if String.eqb (RecipientsFile ks) "" then fromFile = []
     else loadRecipientsFromFile age (RecipientsFile ks) = Ok fromFile) /\
    Forall2 (fun s r => ParseX25519Recipient age s = Ok r)
            (Recipients ks) parsed /\
    match PassphraseProvider ks with
    | None => fromPassphrase = []
    | Some provider =>
        exists passphrase r,
          provider = Ok passphrase /\
          NewScryptRecipient age passphrase = Ok r /\ fromPassphrase = [r]
    end.
Proof.
  unfold LoadRecipients.
  destruct (String.eqb (RecipientsFile ks) "") eqn:Hf; cbn [negb].
  - cbn [bind].
    destruct (parse_each _ _ (Recipients ks) []) as [rs1|] eqn:Hp;
      cbn [bind]; [|discriminate].
    destruct (parse_each_Ok _ _ _ _ _ Hp) as [parsed [-> HF]].
    destruct (PassphraseProvider ks) as [[passphrase|]|]; cbn [wrap bind];
      try discriminate.
    + destruct (NewScryptRecipient age passphrase) as [r|] eqn:Hs;
        cbn [wrap bind]; [|discriminate].
      intros [= <-]. exists [], parsed, [r]. repeat split; eauto.
    + intros [= <-]. exists [], parsed, [].
      repeat split; auto. now rewrite app_nil_r.
  - destruct (loadRecipientsFromFile age (RecipientsFile ks)) as [file|] eqn:Hl;
      cbn [wrap bind]; [|discriminate].
    destruct (parse_each _ _ (Recipients ks) ([] ++ file)) as [rs1|] eqn:Hp;
      cbn [bind]; [|discriminate].
    destruct (parse_each_Ok _ _ _ _ _ Hp) as [parsed [-> HF]].
    destruct (PassphraseProvider ks) as [[passphrase|]|]; cbn [wrap bind];
      try discriminate.
    + destruct (NewScryptRecipient age passphrase) as [r|] eqn:Hs;
        cbn [wrap bind]; [|discriminate].
      intros [= <-]. exists file, parsed, [r].
      repeat split; eauto. cbn [app]. now rewrite <- app_assoc.
    + intros [= <-]. exists file, parsed, [].
      repeat split; auto. cbn [app]. now rewrite app_nil_r.
Qed.

(** X21: when [LoadIdentities] succeeds, the identities are those of
    the file, then one for each inline string, in their order, then
    the one of the passphrase. *)
Theorem LoadIdentities_Ok (ks : KeySources) (ids : list Identity) :
  LoadIdentities age ks = Ok ids ->
  exists fromFile parsed fromPassphrase,
    ids = fromFile ++ parsed ++ fromPassphrase /\
    (if String.eqb (IdentitiesFile ks) "" then fromFile = []
     else loadIdentitiesFromFile age (IdentitiesFile ks) = Ok fromFile) /\
    Forall2 (fun s i => ParseX25519Identity age s = Ok i)
            (IdentitiesData ks) parsed /\
    match PassphraseProvider ks with
    | None => fromPassphrase = []
    | Some provider =>
        exists passphrase i,
          provider = Ok passphrase /\
          NewScryptIdentity age passphrase = Ok i /\ fromPassphrase = [i]
    end.
Proof.
  unfold LoadIdentities.
  destruct (String.eqb (IdentitiesFile ks) "") eqn:Hf; cbn [negb].
  - cbn [bind].
    destruct (parse_each _ _ (IdentitiesData ks) []) as [rs1|] eqn:Hp;
      cbn [bind]; [|discriminate].
    destruct (parse_each_Ok _ _ _ _ _ Hp) as [parsed [-> HF]].
    destruct (PassphraseProvider ks) as [[passphrase|]|]; cbn [wrap bind];
      try discriminate.
    + destruct (NewScryptIdentity age passphrase) as [r|] eqn:Hs;
        cbn [wrap bind]; [|discriminate].
      intros [= <-]. exists [], parsed, [r]. repeat split; eauto.
    + intros [= <-]. exists [], parsed, [].
      repeat split; auto. now rewrite app_nil_r.
  - destruct (loadIdentitiesFromFile age (IdentitiesFile ks)) as [file|] eqn:Hl;
      cbn [wrap bind]; [|discriminate].
    destruct (parse_each _ _ (IdentitiesData ks) ([] ++ file)) as [rs1|] eqn:Hp;
      cbn [bind]; [|discriminate].
    destruct (parse_each_Ok _ _ _ _ _ Hp) as [parsed [-> HF]].
    destruct (PassphraseProvider ks) as [[passphrase|]|]; cbn [wrap bind];
      try discriminate.
    + destruct (NewScryptIdentity age passphrase) as [r|] eqn:Hs;
        cbn [wrap bind]; [|discriminate].
      intros [= <-]. exists file, parsed, [r].
      repeat split; eauto. cbn [app]. now rewrite <- app_assoc.
    + intros [= <-]. exists file, parsed, [].
      repeat split; auto. cbn [app]. now rewrite app_nil_r.
Qed.

(** X22: one inline recipient that does not parse fails the loading of all
    the recipients, whatever the other sources hold. *)
Theorem LoadRecipients_bad_key (ks : KeySources) (s e : string) :
  In s (Recipients ks) ->
  ParseX25519Recipient age s = Err e ->
  exists e', LoadRecipients age ks = Err e'.
Proof.
  intros Hin Hs. unfold LoadRecipients.
  destruct (negb (String.eqb (RecipientsFile ks) "")).
  - destruct (loadRecipientsFromFile age (RecipientsFile ks)) as [file|];
      cbn [wrap bind]; [|eauto].
    destruct (parse_each_Err (ParseX25519Recipient age)
                "failed to parse recipient" _ _ _ Hin Hs ([] ++ file))
      as [e' ->].
    cbn [bind]. eauto.
  - cbn [bind].
    destruct (parse_each_Err (ParseX25519Recipient age)
                "failed to parse recipient" _ _ _ Hin Hs []) as [e' ->].
    cbn [bind]. eauto.
Qed.

(** X23: one inline identity that does not parse fails the loading of all
    the identities, and with it [Load], before anything is
    decrypted. *)
Theorem LoadIdentities_bad_key (ks : KeySources) (s e : string) :
  In s (IdentitiesData ks) ->
  ParseX25519Identity age s = Err e ->
  exists e', LoadIdentities age ks = Err e'.
Proof.
  intros Hin Hs. unfold LoadIdentities.
  destruct (negb (String.eqb (IdentitiesFile ks) "")).
  - destruct (loadIdentitiesFromFile age (IdentitiesFile ks)) as [file|];
      cbn [wrap bind]; [|eauto].
    destruct (parse_each_Err (ParseX25519Identity age)
                "failed to parse identity" _ _ _ Hin Hs ([] ++ file))
      as [e' ->].
    cbn [bind]. eauto.
  - cbn [bind].
    destruct (parse_each_Err (ParseX25519Identity age)
                "failed to parse identity" _ _ _ Hin Hs []) as [e' ->].
    cbn [bind]. eauto.
Qed.

Lemma HasPassphraseRecipient_app (a b : list Recipient) :
  HasPassphraseRecipient (a ++ b)
  = HasPassphraseRecipient a || HasPassphraseRecipient b.
Proof.
  induction a as [|[s|p] a IH]; cbn [app HasPassphraseRecipient orb]; auto.
Qed.

Lemma GetRecipientStrings_app (a b : list Recipient) :
  GetRecipientStrings (a ++ b)
  = GetRecipientStrings a ++ GetRecipientStrings b.
Proof.
  induction a as [|[s|p] a IH]; cbn [app GetRecipientStrings]; auto;
    now rewrite IH.
Qed.

(** X24: the two fields of a record agree: where a passphrase recipient is
    reported, the recipient strings hold the word for it. *)
Theorem passphrase_in_recipient_strings (recipients : list Recipient) :
  HasPassphraseRecipient recipients = true ->
  In "passphrase" (GetRecipientStrings recipients).
Proof.
  induction recipients as [|[s|p] rest IH];
    cbn [HasPassphraseRecipient GetRecipientStrings].
  - discriminate.
  - intros H. right. now apply IH.
  - intros _. now left.
Qed.

(** With a passphrase provider, the last recipient is the one that
    the library made from the passphrase. *)
Lemma LoadRecipients_last (ks : KeySources) (provider : result string)
  (rs : list Recipient) :
  PassphraseProvider ks = Some provider ->
  LoadRecipients age ks = Ok rs ->
  exists before passphrase r,
    NewScryptRecipient age passphrase = Ok r /\ rs = before ++ [r].
Proof.
  intros Hp. unfold LoadRecipients. rewrite Hp.
  destruct (if negb (String.eqb (RecipientsFile ks) "")
            then _ else _) as [recipients0|]; cbn [bind]; [|discriminate].
  destruct (parse_each _ _ (Recipients ks) recipients0) as [recipients|];
    cbn [bind]; [|discriminate].
  destruct provider as [passphrase|]; cbn [wrap bind]; [|discriminate].
  destruct (NewScryptRecipient age passphrase) as [r|] eqn:Hr;
    cbn [wrap bind]; [|discriminate].
  intros [= <-]. now exists recipients, passphrase, r.
Qed.

(** X25: with a passphrase provider, the recipients that [LoadRecipients]
    returns end with the passphrase recipient, and the records of
    [Save] report it.  (The library makes scrypt recipients from
    passphrases.) *)
Theorem LoadRecipients_passphrase (ks : KeySources) (provider : result string)
  (rs : list Recipient) :
  (forall passphrase r, NewScryptRecipient age passphrase = Ok r ->
                        exists p, r = ScryptRecipient p) ->
  PassphraseProvider ks = Some provider ->
  LoadRecipients age ks = Ok rs ->
  HasPassphraseRecipient rs = true /\
  last (GetRecipientStrings rs) "" = "passphrase".
Proof.
  intros Hlib Hp HR.
  destruct (LoadRecipients_last ks provider rs Hp HR)
    as [before [passphrase [r [Hr ->]]]].
  destruct (Hlib _ _ Hr) as [p ->].
  rewrite HasPassphraseRecipient_app, GetRecipientStrings_app.
  cbn [HasPassphraseRecipient GetRecipientStrings].
  split; [now rewrite orb_true_r | apply last_last].
Qed.

End LoaderFacts.

Section LoaderWitnesses.

Import enc.

Lemma LoadRecipients_Ok_witness :
  exists fromFile parsed fromPassphrase,
    [X25519Recipient "age1"; X25519Recipient "age2"; ScryptRecipient "pw"]
    = fromFile ++ parsed ++ fromPassphrase /\
    (if String.eqb "" "" then fromFile = []
     else loadRecipientsFromFile fake.age "" = Ok fromFile) /\
    Forall2 (fun s r => ParseX25519Recipient fake.age s = Ok r)
            ["age1"; "age2"] parsed /\
    exists passphrase r,
      Ok "pw" = Ok passphrase /\
      NewScryptRecipient fake.age passphrase = Ok r /\ fromPassphrase = [r].
Proof.
  apply (LoadRecipients_Ok fake.age
           (mkKeySources "" [] "" ["age1"; "age2"] (Some (Ok "pw")))
           [X25519Recipient "age1"; X25519Recipient "age2";
            ScryptRecipient "pw"]).
  reflexivity.
Defined.

Lemma LoadIdentities_Ok_witness :
  exists fromFile parsed fromPassphrase,
    [X25519Identity "AGE-SECRET-KEY-1"] = fromFile ++ parsed ++ fromPassphrase /\
    (if String.eqb "" "" then fromFile = []
     else loadIdentitiesFromFile fake.age "" = Ok fromFile) /\
    Forall2 (fun s i => ParseX25519Identity fake.age s = Ok i)
            ["AGE-SECRET-KEY-1"] parsed /\
    fromPassphrase = [].
Proof.
  apply (LoadIdentities_Ok fake.age fake.keys
           [X25519Identity "AGE-SECRET-KEY-1"]).
  reflexivity.
Defined.

Lemma LoadRecipients_bad_key_witness :
  exists e',
    LoadRecipients
      (mkAge (fun s => Ok (X25519Identity s))
             (fun s => if strings.HasPrefix s "age1"
                       then Ok (X25519Recipient s)
                       else Err "malformed recipient")
             (fun s => Ok (ScryptIdentity s))
             (fun s => Ok (ScryptRecipient s))
             (fun _ => Err "open: no such file or directory")
             (fun _ => Err "open: no such file or directory")
             fake.seal fake.open)
      (mkKeySources "" [] "" ["age1abc"; "oops"] None) = Err e'.
Proof.
  apply (LoadRecipients_bad_key
           (mkAge (fun s => Ok (X25519Identity s))
                  (fun s => if strings.HasPrefix s "age1"
                            then Ok (X25519Recipient s)
                            else Err "malformed recipient")
                  (fun s => Ok (ScryptIdentity s))
                  (fun s => Ok (ScryptRecipient s))
                  (fun _ => Err "open: no such file or directory")
                  (fun _ => Err "open: no such file or directory")
                  fake.seal fake.open)
           (mkKeySources "" [] "" ["age1abc"; "oops"] None)
           "oops" "malformed recipient").
  - right. left. reflexivity.
  - reflexivity.
Defined.

Lemma LoadIdentities_bad_key_witness :
  exists e',
    LoadIdentities
      (mkAge (fun s => if strings.HasPrefix s "AGE-SECRET-KEY-1"
                       then Ok (X25519Identity s)
                       else Err "malformed secret key")
             (fun s => Ok (X25519Recipient s))
             (fun s => Ok (ScryptIdentity s))
             (fun s => Ok (ScryptRecipient s))
             (fun _ => Err "open: no such file or directory")
             (fun _ => Err "open: no such file or directory")
             fake.seal fake.open)
      (mkKeySources "" ["oops"; "AGE-SECRET-KEY-1"] "" [] None) = Err e'.
Proof.
  apply (LoadIdentities_bad_key
           (mkAge (fun s => if strings.HasPrefix s "AGE-SECRET-KEY-1"
                            then Ok (X25519Identity s)
                            else Err "malformed secret key")
                  (fun s => Ok (X25519Recipient s))
                  (fun s => Ok (ScryptIdentity s))
                  (fun s => Ok (ScryptRecipient s))
                  (fun _ => Err "open: no such file or directory")
                  (fun _ => Err "open: no such file or directory")
                  fake.seal fake.open)
           (mkKeySources "" ["oops"; "AGE-SECRET-KEY-1"] "" [] None)
           "oops" "malformed secret key").
  - left. reflexivity.
  - reflexivity.
Defined.

Lemma passphrase_in_recipient_strings_witness :
  In "passphrase"
     (GetRecipientStrings [X25519Recipient "age1"; ScryptRecipient "pw"]).
Proof.
  apply (passphrase_in_recipient_strings
           [X25519Recipient "age1"; ScryptRecipient "pw"]).
  reflexivity.
Defined.

Lemma LoadRecipients_passphrase_witness :
  HasPassphraseRecipient [X25519Recipient "age1"; ScryptRecipient "pw"] = true /\
  last (GetRecipientStrings [X25519Recipient "age1"; ScryptRecipient "pw"]) ""
  = "passphrase".
Proof.
  apply (LoadRecipients_passphrase fake.age
           (mkKeySources "" [] "" ["age1"] (Some (Ok "pw"))) (Ok "pw")
           [X25519Recipient "age1"; ScryptRecipient "pw"]).
  - intros passphrase r [= <-]. now exists passphrase.
  - reflexivity.
  - reflexivity.
Defined.

End LoaderWitnesses.

(* ================================================================= *)
(** ** More of the heuristic *)

Section ArmorMore.

Import armor.

(** X26: the heuristic looks for the two markers anywhere: a string that
    contains text recognised as ciphertext is recognised as
    ciphertext, whatever stands around it. *)
Theorem isArmoredData_surrounded (a s b : string) :
  isArmoredData s = true -> isArmoredData (a ++ s ++ b)%string = true.
Proof.
  unfold isArmoredData. intros H. apply andb_true_iff in H as [Hb He].
  apply Contains_iff in Hb as [b1 [b2 ->]].
  apply Contains_iff in He as [e1 [e2 He]].
  apply andb_true_iff. split; apply Contains_iff.
  - exists (a ++ b1)%string, (b2 ++ b)%string.
    now rewrite !append_assoc.
  - rewrite He. exists (a ++ e1)%string, (e2 ++ b)%string.
    now rewrite !append_assoc.
Qed.

Lemma isArmoredData_surrounded_witness :
  isArmoredData ("# comment " ++ fake.sealed "abc" ++ " trailing")%string
  = true.
Proof.
  apply (isArmoredData_surrounded "# comment " (fake.sealed "abc") " trailing").
  reflexivity.
Defined.

End ArmorMore.

(* ================================================================= *)
(** ** [GetFullPath] *)

Section FullPath.

Import walk.

Lemma GetFullPath_loop_app (p q : list string) :
  forall i result,
    GetFullPath_loop i (p ++ q) result
    = GetFullPath_loop (i + List.length p) q (GetFullPath_loop i p result).
Proof.
  induction p as [|part p IH]; intros i result; cbn [app List.length].
  - now rewrite Nat.add_0_r.
  - cbn [GetFullPath_loop]. rewrite IH. now rewrite Nat.add_succ_r.
Qed.

(** X27: the parts of a full path are joined by dots as they are: a
    key that holds a dot gives the same full path as the two keys
    around the dot, one inside the other. *)
Theorem GetFullPath_dotted_key (path : list string) (a b key key' : string)
  (v v' : any) :
  GetFullPath (mkFieldInfo (path ++ [(a ++ "." ++ b)%string]) key v)
  = GetFullPath (mkFieldInfo (path ++ [a; b]) key' v').
Proof.
  unfold GetFullPath. cbn [walk.Path].
  rewrite !length_app. cbn [List.length].
  replace (List.length path + 1 =? 0) with false
    by (symmetry; apply Nat.eqb_neq; lia).
  replace (List.length path + 2 =? 0) with false
    by (symmetry; apply Nat.eqb_neq; lia).
  rewrite !GetFullPath_loop_app. cbn [GetFullPath_loop Nat.add].
  generalize (GetFullPath_loop 0 path "") as r. intros r.
  destruct (0 <? List.length path); cbn [Nat.ltb Nat.leb];
    now rewrite !append_assoc.
Qed.

End FullPath.
